(** * Two classical ciphers over the Russian alphabet

    A shallow embedding of [modAlphaCipher] (Gronsfeld-style additive cipher,
    src/2.1/modAlphaCipher.cpp) and of [Table] (columnar route transposition,
    modTableCipher.cpp of src/2.2), followed by the properties of the
    specification that were checked against them.  The reporting functions
    of the two demonstration programs and the vectors of the unit tests are
    embedded as well, with further properties of the code at the end. *)

From Stdlib Require Import ZArith Lia.
From stdpp Require Import base tactics option list gmap strings.

Local Open Scope Z_scope.

(** ** Outcomes of a call

    Every fallible operation either returns, throws [cipher_error] (the only
    exception type of the repository, carrying its [what()] message), or has
    no defined behaviour in C++ (here: the remainder by [key.size()] when the
    key vector is empty, or an access outside a vector or a string). *)

Record cipher_error := CipherError { what : string }.

Inductive outcome (A : Type) : Type :=
| Ret (a : A)
| Throw (e : cipher_error)
| Undefined.
Arguments Ret {A} a.
Arguments Throw {A} e.
Arguments Undefined {A}.

#[global] Instance outcome_ret : MRet outcome := fun _ a => Ret a.
#[global] Instance outcome_bind : MBind outcome := fun _ _ f m =>
  match m with
  | Ret a => f a
  | Throw e => Throw e
  | Undefined => Undefined
  end.

#[global] Instance cipher_error_eq_dec : EqDecision cipher_error.
Proof. solve_decision. Defined.

(** A [for] loop whose body may fail: the body is run on the loop indices in
    order and the first failure ends the loop. *)
Fixpoint for_each {A B} (body : A -> B -> outcome A) (idx : list B) (a : A)
  : outcome A :=
  match idx with
  | [] => Ret a
  | i :: rest => a' ← body a i; for_each body rest a'
  end.

(** ** Machine integers and wide characters

    [wchar_t] holds a code point; a [std::wstring] is the list of its
    characters.  [int] is 32 bits wide and [size_t] 64 bits; conversions
    between them wrap. *)

Abbreviation wchar_t := Z (only parsing).
Abbreviation wstring := (list Z) (only parsing).

Definition INT_MAX : Z := 2 ^ 31 - 1.
Definition to_int (z : Z) : Z := (z + 2 ^ 31) mod 2 ^ 32 - 2 ^ 31.
Definition to_size_t (z : Z) : Z := z mod 2 ^ 64.

(** Character literals of the sources. *)
Definition L_A : wchar_t := 1040.      (* L'А' *)
Definition L_YA : wchar_t := 1071.     (* L'Я' *)
Definition L_a : wchar_t := 1072.      (* L'а' *)
Definition L_ya : wchar_t := 1103.     (* L'я' *)
Definition L_YO : wchar_t := 1025.     (* L'Ё' *)
Definition L_yo : wchar_t := 1105.     (* L'ё' *)
Definition L_space : wchar_t := 32.    (* L' ' *)

(** The string literal L"АБВГДЕЁЖЗИЙКЛМНОПРСТУФХЦЧШЩЪЫЬЭЮЯ" ([numAlpha]
    of the shift engine, [upper] of the transposition engine). *)
Definition upper_letters : wstring :=
  [1040; 1041; 1042; 1043; 1044; 1045; 1025; 1046; 1047; 1048; 1049;
   1050; 1051; 1052; 1053; 1054; 1055; 1056; 1057; 1058; 1059; 1060;
   1061; 1062; 1063; 1064; 1065; 1066; 1067; 1068; 1069; 1070; 1071].

(** The string literal L"абвгдеёжзийклмнопрстуфхцчшщъыьэюя". *)
Definition lower_letters : wstring :=
  [1072; 1073; 1074; 1075; 1076; 1077; 1105; 1078; 1079; 1080; 1081;
   1082; 1083; 1084; 1085; 1086; 1087; 1088; 1089; 1090; 1091; 1092;
   1093; 1094; 1095; 1096; 1097; 1098; 1099; 1100; 1101; 1102; 1103].

(** [std::wstring::find(c)]: the first position of [c], or [npos]. *)
Fixpoint find (s : wstring) (c : wchar_t) : option nat :=
  match s with
  | [] => None
  | x :: rest => if x =? c then Some 0%nat else S <$> find rest c
  end.

(** ** The C library's wide-character classification

    [std::iswalpha], [std::iswlower], [std::iswupper] and [std::towupper]
    belong to the platform and depend on the locale the program selected;
    the model takes them as a parameter. *)

Record Locale := {
  iswalpha : wchar_t -> bool;
  iswlower : wchar_t -> bool;
  iswupper : wchar_t -> bool;
  towupper : wchar_t -> wchar_t
}.

(** A character is a Russian letter when it is one of the 66 symbols of the
    two literals above. *)
Definition is_upper_letter (c : wchar_t) : bool :=
  bool_decide (c ∈ upper_letters).
Definition is_lower_letter (c : wchar_t) : bool :=
  bool_decide (c ∈ lower_letters).
Definition is_letter (c : wchar_t) : bool :=
  is_upper_letter c || is_lower_letter c.

(** What the properties below ask of the locale, each law on its own. *)

(** Upper-casing leaves the capital letters of the alphabet alone. *)
Definition capitals_fixed (L : Locale) : Prop :=
  forall c, c ∈ upper_letters -> towupper L c = c.

(** Upper-casing never turns a character that is no Russian letter into
    one.  This law speaks of every code point, and a C library need not
    meet it: glibc upper-cases the small letters U+1C80 to U+1C86 of the
    Cyrillic Extended-C block to the capitals В, Д, О, С, Т, Т and Ъ (see
    [glibc_ru] below).  A statement about arbitrary text therefore asks
    [no_alias] of the text instead, and this law is named only where a
    statement says so itself. *)
Definition foreign_kept_foreign (L : Locale) : Prop :=
  forall c, is_letter c = false -> is_letter (towupper L c) = false.

(** Russian letters of either case are alphabetic. *)
Definition letters_alphabetic (L : Locale) : Prop :=
  forall c, is_letter c = true -> iswalpha L c = true.

(** The capital letters of the alphabet are upper-case. *)
Definition capitals_upper (L : Locale) : Prop :=
  forall c, c ∈ upper_letters -> iswupper L c = true.

(** The Latin capitals A to Z are upper-case and fixed by upper-casing (as
    in every locale of the C library). *)
Definition latin_capitals (L : Locale) : Prop :=
  forall c, 65 <= c <= 90 -> iswupper L c = true /\ towupper L c = c.

Record RussianLocale (L : Locale) : Prop := {
  ru_capitals_fixed : capitals_fixed L;
  ru_foreign : foreign_kept_foreign L;
  ru_alphabetic : letters_alphabetic L;
  ru_upper : capitals_upper L
}.

(** The classification of a UTF-8 Russian locale on Basic Latin and on the
    Russian letters; every other code point counts as caseless and
    non-alphabetic.  It is the instance at which the general statements are
    tried and at which the defects are exhibited. *)
Definition in_range (lo hi c : Z) : bool := (lo <=? c) && (c <=? hi).

Definition utf8_iswupper (c : wchar_t) : bool :=
  in_range 65 90 c || in_range L_A L_YA c || (c =? L_YO).
Definition utf8_iswlower (c : wchar_t) : bool :=
  in_range 97 122 c || in_range L_a L_ya c || (c =? L_yo).
Definition utf8_towupper (c : wchar_t) : wchar_t :=
  if in_range 97 122 c || in_range L_a L_ya c then c - 32
  else if c =? L_yo then L_YO
  else c.

Definition utf8_ru : Locale := {|
  iswalpha := fun c => utf8_iswupper c || utf8_iswlower c;
  iswlower := utf8_iswlower;
  iswupper := utf8_iswupper;
  towupper := utf8_towupper
|}.

(** ** Normalization, in the words of the specification

    Discard every character that is not a letter of the alphabet, fold the
    survivors to upper case. *)
Definition fold_upper (c : wchar_t) : wchar_t :=
  if in_range L_a L_ya c then L_A + (c - L_a)
  else if c =? L_yo then L_YO
  else c.

Definition normalize (text : wstring) : wstring :=
  fold_upper <$> filter (fun c => is_letter c = true) text.

(** ** The shift engine: src/2.1/modAlphaCipher.cpp *)

Module modAlphaCipher.

Definition numAlpha : wstring := upper_letters.

(** The members [alphaNum] and [key]; [numAlpha] is the same constant in
    every instance. *)
Record t := {
  alphaNum : gmap Z Z;
  key : list Z
}.

(** The messages of the five [throw] sites. *)
Definition empty_key : cipher_error := CipherError "Empty key".
Definition invalid_key : cipher_error :=
  CipherError "Invalid key: non-alphabetic character".
Definition empty_text : cipher_error := CipherError "Empty text, no letters".
Definition empty_cipher_text : cipher_error := CipherError "Empty cipher text".
Definition invalid_cipher_text : cipher_error :=
  CipherError "Incorrect data entry".

Section WithLocale.
Context (L : Locale).

Definition toUpper (c : wchar_t) : wchar_t :=
  if (L_a <=? c) && (c <=? L_ya) then L_A + (c - L_a)
  else if c =? L_yo then L_YO
  else towupper L c.

(** The loop of [getValidKey] over the copy [tmp]. *)
Fixpoint checkKey (tmp : wstring) : outcome wstring :=
  match tmp with
  | [] => Ret []
  | c :: rest =>
      if negb (iswalpha L c) then Throw invalid_key
      else
        let c' := if iswlower L c then toUpper c else c in
        rest' ← checkKey rest; Ret (c' :: rest')
  end.

Definition getValidKey (s : wstring) : outcome wstring :=
  match s with
  | [] => Throw empty_key
  | _ => checkKey s
  end.

(** The filtered copy [tmp] built by [getValidOpenText]. *)
Fixpoint openLetters (s : wstring) : wstring :=
  match s with
  | [] => []
  | c :: rest =>
      if iswalpha L c
      then (if iswlower L c then toUpper c else c) :: openLetters rest
      else openLetters rest
  end.

Definition getValidOpenText (s : wstring) : outcome wstring :=
  match openLetters s with
  | [] => Throw empty_text
  | tmp => Ret tmp
  end.

(** The loop of [getValidCipherText] throws at the first character that is
    not upper-case. *)
Definition getValidCipherText (s : wstring) : outcome wstring :=
  match s with
  | [] => Throw empty_cipher_text
  | _ => if forallb (iswupper L) s then Ret s else Throw invalid_cipher_text
  end.

(** [convert(const std::wstring&)]: characters absent from [alphaNum] are
    skipped. *)
Fixpoint convert_s (m : gmap Z Z) (s : wstring) : list Z :=
  match s with
  | [] => []
  | c :: rest =>
      match m !! toUpper c with
      | Some i => i :: convert_s m rest
      | None => convert_s m rest
      end
  end.

(** [convert(const std::vector<int>&)]: indices outside the alphabet are
    skipped. *)
Fixpoint convert_v (v : list Z) : wstring :=
  match v with
  | [] => []
  | i :: rest =>
      if (0 <=? i) && (i <? to_int (Z.of_nat (length numAlpha)))
      then match numAlpha !! Z.to_nat i with
           | Some c => c :: convert_v rest
           | None => convert_v rest
           end
      else convert_v rest
  end.

(** The constructor: fill [alphaNum] from [numAlpha], then validate and
    convert the key. *)
Definition fillAlphaNum : gmap Z Z :=
  foldl (fun m i => match numAlpha !! i with
                    | Some c => <[c := to_int (Z.of_nat i)]> m
                    | None => m
                    end)
        ∅ (seq 0 (length numAlpha)).

Definition new (skey : wstring) : outcome t :=
  let m := fillAlphaNum in
  valid ← getValidKey skey;
  Ret {| alphaNum := m; key := convert_s m valid |}.

(** [numAlpha.size()], a [size_t]. *)
Definition numAlpha_size : Z := Z.of_nat (length numAlpha).

(** One round of the [for] loop of [encrypt], and one of [decrypt].  The
    operands are [int]s, the arithmetic is done in [size_t] because of
    [numAlpha.size()], and the result is stored in an [int].  [i %
    key.size()] is undefined for an empty key. *)
Definition encrypt_step (C : t) (work : list Z) (i : nat) : outcome (list Z) :=
  if (length (key C) =? 0)%nat then Undefined
  else match work !! i, key C !! (i mod length (key C))%nat with
       | Some w, Some k =>
           Ret (<[i := to_int (to_size_t (to_int (w + k)) mod numAlpha_size)]> work)
       | _, _ => Undefined
       end.

Definition decrypt_step (C : t) (work : list Z) (i : nat) : outcome (list Z) :=
  if (length (key C) =? 0)%nat then Undefined
  else match work !! i, key C !! (i mod length (key C))%nat with
       | Some w, Some k =>
           Ret (<[i := to_int (to_size_t (to_size_t (to_size_t w + numAlpha_size)
                                          - to_size_t k)
                               mod numAlpha_size)]> work)
       | _, _ => Undefined
       end.

Definition encrypt (C : t) (open_text : wstring) : outcome wstring :=
  valid ← getValidOpenText open_text;
  let work := convert_s (alphaNum C) valid in
  work' ← for_each (encrypt_step C) (seq 0 (length work)) work;
  Ret (convert_v work').

Definition decrypt (C : t) (cipher_text : wstring) : outcome wstring :=
  valid ← getValidCipherText cipher_text;
  let work := convert_s (alphaNum C) valid in
  work' ← for_each (decrypt_step C) (seq 0 (length work)) work;
  Ret (convert_v work').

End WithLocale.
End modAlphaCipher.

(** ** The transposition engine: modTableCipher.cpp *)

Module Table.

(** The member [cols], an [int]. *)
Record t := { cols : Z }.

(** The messages of the six [throw] sites. *)
Definition zero_key : cipher_error := CipherError "Invalid key: cannot be zero".
Definition negative_key : cipher_error :=
  CipherError "Invalid key: cannot be negative".
Definition large_key : cipher_error := CipherError "Invalid key: too large".
Definition empty_text : cipher_error :=
  CipherError "Empty text: no valid Russian letters".
Definition empty_cipher_text : cipher_error := CipherError "Empty cipher text".
Definition invalid_cipher_text : cipher_error :=
  CipherError "Invalid cipher text".

Definition getValidKey (key : Z) : outcome Z :=
  if key <=? 0 then Throw zero_key
  else if key <? 0 then Throw negative_key
  else if key >? 100 then Throw large_key
  else Ret key.

(** The constructor. *)
Definition new (key : Z) : outcome t :=
  k ← getValidKey key; Ret {| cols := k |}.

(** The locals [lower] and [upper] of the two text validations. *)
Definition lower : wstring := lower_letters.
Definition upper : wstring := upper_letters.

(** [s[index]]; outside the string the access has no defined behaviour. *)
Definition char_at (s : wstring) (index : nat) : outcome wchar_t :=
  match s !! index with
  | Some c => Ret c
  | None => Undefined
  end.

(** The filtered copy [tmp] built by [getValidOpenText]. *)
Fixpoint openLetters (s : wstring) : outcome wstring :=
  match s with
  | [] => Ret []
  | c :: rest =>
      match find upper c with
      | Some _ => tmp ← openLetters rest; Ret (c :: tmp)
      | None =>
          match find lower c with
          | Some pos =>
              u ← char_at upper pos; tmp ← openLetters rest; Ret (u :: tmp)
          | None => openLetters rest
          end
      end
  end.

Definition getValidOpenText (s : wstring) : outcome wstring :=
  tmp ← openLetters s;
  match tmp with
  | [] => Throw empty_text
  | _ => Ret tmp
  end.

(** The loop of [getValidCipherText] throws at the first character that
    [upper.find] does not find. *)
Definition getValidCipherText (s : wstring) : outcome wstring :=
  match s with
  | [] => Throw empty_cipher_text
  | _ =>
      if forallb (fun c => bool_decide (is_Some (find upper c))) s
      then Ret s else Throw invalid_cipher_text
  end.

(** The grid [vector<vector<wchar_t>> table(rows, vector<wchar_t>(cols, L' '))],
    the read of [table[row][col]] and the assignment to it.  An access
    outside the grid has no defined behaviour. *)
Abbreviation grid := (list (list Z)) (only parsing).

Definition blank (rows cols : nat) : grid :=
  replicate rows (replicate cols L_space).

Definition load (g : grid) (row col : nat) : outcome wchar_t :=
  match g !! row with
  | Some r => match r !! col with
              | Some v => Ret v
              | None => Undefined
              end
  | None => Undefined
  end.

Definition put (g : grid) (row col : nat) (v : wchar_t) : grid :=
  alter (fun r => <[col := v]> r) row g.

Definition store (g : grid) (row col : nat) (v : wchar_t) : outcome grid :=
  match g !! row with
  | Some r => if (col <? length r)%nat then Ret (put g row col v) else Undefined
  | None => Undefined
  end.

(** The guarded assignment [if (index < n) table[row][col] = validText[index++]]
    on the pair of the grid and the running [index]. *)
Definition fill_cell (validText : wstring) (n : nat)
    (st : grid * nat) (row col : nat) : outcome (grid * nat) :=
  let '(g, index) := st in
  if (index <? n)%nat then
    v ← char_at validText index;
    g' ← store g row col v;
    Ret (g', S index)
  else Ret st.

(** The guarded append [if (table[row][col] != L' ') result += table[row][col]]. *)
Definition read_cell (g : grid) (result : wstring) (row col : nat)
  : outcome wstring :=
  v ← load g row col;
  if negb (v =? L_space) then Ret (result ++ [v]) else Ret result.

(** The four loop nests. *)
Definition fill_rows (validText : wstring) (n rows cols : nat) (st : grid * nat)
  : outcome (grid * nat) :=
  for_each (fun st row =>
              for_each (fun st col => fill_cell validText n st row col)
                       (seq 0 cols) st)
           (seq 0 rows) st.

Definition read_cols (g : grid) (rows cols : nat) : outcome wstring :=
  for_each (fun res col =>
              for_each (fun res row => read_cell g res row col) (seq 0 rows) res)
           (reverse (seq 0 cols)) [].

Definition fill_cols (validText : wstring) (n rows cols fullCols : nat)
    (st : grid * nat) : outcome (grid * nat) :=
  for_each (fun st col =>
              let rowsInCol :=
                if (fullCols <=? col)%nat then (rows - 1)%nat else rows in
              for_each (fun st row => fill_cell validText n st row col)
                       (seq 0 rowsInCol) st)
           (reverse (seq 0 cols)) st.

Definition read_rows (g : grid) (rows cols : nat) : outcome wstring :=
  for_each (fun res row =>
              for_each (fun res col => read_cell g res row col) (seq 0 cols) res)
           (seq 0 rows) [].

(** The [int] locals [n], [rows] and [fullCols] are computed as the source
    does; the loops then count in naturals.  The two functions follow the
    source for a text within the [int] range ([fits_int] below).  Beyond it
    (a text of 2^31 characters or more) the source converts a negative
    [rows] to the [size_t] of the vector constructor, which throws
    [std::length_error]; here a negative bound makes a loop run zero times
    instead, so a statement about every input asks [fits_int]. *)
Definition encrypt (T : t) (plain : wstring) : outcome wstring :=
  validText ← getValidOpenText plain;
  let n := to_int (Z.of_nat (length validText)) in
  if n =? 0 then Ret []
  else
    let rows := Z.quot (to_int (n + cols T - 1)) (cols T) in
    let table := blank (Z.to_nat rows) (Z.to_nat (cols T)) in
    st ← fill_rows validText (Z.to_nat n) (Z.to_nat rows) (Z.to_nat (cols T))
                   (table, 0%nat);
    read_cols st.1 (Z.to_nat rows) (Z.to_nat (cols T)).

Definition decrypt (T : t) (cipher : wstring) : outcome wstring :=
  validText ← getValidCipherText cipher;
  let n := to_int (Z.of_nat (length validText)) in
  if n =? 0 then Ret []
  else
    let rows := Z.quot (to_int (n + cols T - 1)) (cols T) in
    let fullCols := Z.rem n (cols T) in
    let fullCols := if fullCols =? 0 then cols T else fullCols in
    let table := blank (Z.to_nat rows) (Z.to_nat (cols T)) in
    st ← fill_cols validText (Z.to_nat n) (Z.to_nat rows) (Z.to_nat (cols T))
                   (Z.to_nat fullCols) (table, 0%nat);
    read_rows st.1 (Z.to_nat rows) (Z.to_nat (cols T)).

End Table.

(** ** The demonstration programs

    [check] (src/unnamed/part_000, the main.cpp of the shift cipher) and
    [test] (src/2.2/main.cpp) run one encryption and one decryption inside a
    [try] block and write a report to [std::wcout]; [main] of either program
    is a fixed list of such calls.  A report is the sequence of the
    insertions made into the stream. *)

Inductive insertion :=
| put_wide (s : wstring)       (* a [std::wstring] or a wide literal *)
| put_narrow (s : string)      (* a [const char*], here [e.what()] *)
| put_int (z : Z)              (* an [int] *)
| put_endl.                    (* [endl] *)

(** A wide literal whose characters are ASCII. *)
Definition wide (s : string) : wstring :=
  (fun a => Z.of_nat (Ascii.nat_of_ascii a)) <$> String.list_ascii_of_string s.

(** [try { body } catch (const cipher_error& e) { handler }]. *)
Definition try_catch {A} (body : outcome A) (handler : cipher_error -> outcome A)
  : outcome A :=
  match body with
  | Throw e => handler e
  | _ => body
  end.

Module AlphaMain.
Section WithLocale.
(** [std::towlower] belongs to the platform, like the functions of
    [Locale]. *)
Context (L : Locale) (towlower : wchar_t -> wchar_t).

(** [cipherText.front() = towlower(cipherText.front())]; [front()] of an
    empty string has no defined behaviour. *)
Definition destruct_front (cipherText : wstring) : outcome wstring :=
  match cipherText with
  | [] => Undefined
  | c :: rest => Ret (towlower c :: rest)
  end.

Definition check (Text key : wstring) (destructCipherText : bool)
  : outcome (list insertion) :=
  try_catch
    (cipher ← modAlphaCipher.new L key;
     cipherText ← modAlphaCipher.encrypt L cipher Text;
     cipherText ← (if destructCipherText then destruct_front cipherText
                   else Ret cipherText);
     decryptedText ← modAlphaCipher.decrypt L cipher cipherText;
     Ret [put_wide (wide "key="); put_wide key; put_endl;
          put_wide (wide "Original: "); put_wide Text; put_endl;
          put_wide (wide "Encrypted: "); put_wide cipherText; put_endl;
          put_wide (wide "Decrypted: "); put_wide decryptedText; put_endl;
          put_wide (if bool_decide (Text = decryptedText)
                    then wide "Ok" ++ [10] else wide "Err" ++ [10]);
          put_endl])
    (fun e => Ret [put_wide (wide "Error: "); put_narrow (what e);
                   put_endl; put_endl]).

End WithLocale.
End AlphaMain.

Module TableMain.

Definition test (text : wstring) (key : Z) : outcome (list insertion) :=
  try_catch
    (cipher ← Table.new key;
     encrypted ← Table.encrypt cipher text;
     decrypted ← Table.decrypt cipher encrypted;
     Ret [put_wide (wide "Key: "); put_int key; put_wide (wide " | Text: '");
          put_wide text; put_wide (wide "'"); put_endl;
          put_wide (wide "Encrypted: '"); put_wide encrypted;
          put_wide (wide "'"); put_endl;
          put_wide (wide "Decrypted: '"); put_wide decrypted;
          put_wide (wide "'"); put_endl;
          put_endl])
    (fun e => Ret [put_wide (wide "Error with key "); put_int key;
                   put_wide (wide " and text '"); put_wide text;
                   put_wide (wide "': "); put_narrow (what e);
                   put_endl; put_endl]).

End TableMain.

(** ** Vocabulary of the properties

    Everything below this line is used to state and prove the properties;
    none of it is part of the program. *)

(** *** The shift transform in the words of the specification *)

(** The zero-based position of a capital letter in the alphabet, and the
    letter at a position. *)
Definition alphabet_index (c : wchar_t) : Z :=
  Z.of_nat (default 0%nat (find upper_letters c)).
Definition letter_at (p : Z) : wchar_t :=
  default 0 (upper_letters !! Z.to_nat p).

(** The key element used at text position [i]: the key is reused
    cyclically. *)
Definition key_at (key : list Z) (i : nat) : Z :=
  key !!! (i mod length key)%nat.

(** Position [i] with alphabet index [p] goes to the letter at index
    [(p + key[i mod keyLength]) mod m]; the inverse subtracts the key. *)
Definition shift_text (m : Z) (key : list Z) (txt : wstring) : wstring :=
  imap (fun i c => letter_at ((alphabet_index c + key_at key i) mod m)) txt.
Definition unshift_text (m : Z) (key : list Z) (txt : wstring) : wstring :=
  imap (fun i c => letter_at ((alphabet_index c + m - key_at key i) mod m)) txt.

Definition in_alphabet (p : Z) : Prop := 0 <= p < 33.

(** The character that [getValidKey] and [getValidOpenText] of the shift
    engine keep for an alphabetic [c]. *)
Definition kept (L : Locale) (c : wchar_t) : wchar_t :=
  if iswlower L c then modAlphaCipher.toUpper L c else c.

(** The characters that the shift engine reads as letters: alphabetic for
    the locale, and upper-cased by [toUpper] onto a capital of the alphabet.
    An alias is such a character outside the alphabet.  The C library of the
    platform (glibc) has seven: U+1C80 to U+1C86, lower-case letters that it
    upper-cases onto the capitals В Д О С Т Т Ъ. *)
Definition read_as_letter (L : Locale) (c : wchar_t) : bool :=
  iswalpha L c && is_upper_letter (modAlphaCipher.toUpper L (kept L c)).
Definition alias (L : Locale) (c : wchar_t) : bool :=
  negb (is_letter c) && read_as_letter L c.
Definition no_alias (L : Locale) (text : wstring) : Prop :=
  Forall (fun c => alias L c = false) text.

(** *** The transposition route in the words of the specification *)

(** [rows = ceil(n / cols)], and the number of letters in the last row. *)
Definition ceil_div (n cols : nat) : nat := ((n + cols - 1) / cols)%nat.
Definition last_row (n cols : nat) : nat :=
  if (n mod cols =? 0)%nat then cols else (n mod cols)%nat.

(** The text laid row-major in a grid of [cols] columns puts letter
    [r * cols + c] in row [r], column [c]; the read-out goes through the
    columns from the last to the first, each from top to bottom, and emits
    the cells that hold a letter. *)
Definition column_route (cols : nat) (txt : wstring) : wstring :=
  let n := length txt in
  let rows := ceil_div n cols in
  reverse (seq 0 cols) ≫= fun c =>
    seq 0 rows ≫= fun r =>
      if decide (r * cols + c < n)%nat then [txt !!! (r * cols + c)%nat] else [].

(** The [int] arithmetic of the transposition engine is exact for a text of
    [len] letters and [k] columns. *)
Definition fits_int (len : nat) (k : Z) : Prop :=
  Z.of_nat len + k - 1 <= INT_MAX.

(** *** Grids and the orders in which the loops visit them *)

Definition dims (g : list (list Z)) (rows cols : nat) : Prop :=
  length g = rows ∧ Forall (fun r => length r = cols) g.

Definition in_grid (rows cols : nat) (rc : nat * nat) : Prop :=
  (rc.1 < rows)%nat ∧ (rc.2 < cols)%nat.

Definition row_major (rows cols : nat) : list (nat * nat) :=
  seq 0 rows ≫= fun r => (fun c => (r, c)) <$> seq 0 cols.
Definition col_major (rows cols : nat) : list (nat * nat) :=
  reverse (seq 0 cols) ≫= fun c => (fun r => (r, c)) <$> seq 0 rows.
Definition depth_major (rows cols fullCols : nat) : list (nat * nat) :=
  reverse (seq 0 cols) ≫= fun c =>
    (fun r => (r, c))
      <$> seq 0 (if (fullCols <=? c)%nat then (rows - 1)%nat else rows).

(** The content of a cell of the grid, and what one round of a fill loop
    and of a read loop does when its accesses are inside the grid. *)
Definition cell (g : list (list Z)) (row col : nat) : wchar_t :=
  (g !!! row) !!! col.
Definition fill_at (vt : wstring) (n : nat) (st : list (list Z) * nat)
    (rc : nat * nat) : list (list Z) * nat :=
  if (st.2 <? n)%nat then (Table.put st.1 rc.1 rc.2 (vt !!! st.2), S st.2)
  else st.
Definition read_at (g : list (list Z)) (res : wstring) (rc : nat * nat) : wstring :=
  if negb (cell g rc.1 rc.2 =? L_space) then res ++ [cell g rc.1 rc.2] else res.

(** The grid after the row-major fill of [encrypt], the grid after the
    column-wise fill of [decrypt], and the letters met on a walk through a
    list of cells. *)
Definition row_filled (vt : wstring) (rows cols : nat) : list (list Z) :=
  (foldl (fill_at vt (length vt)) (Table.blank rows cols, 0%nat)
         (row_major rows cols)).1.
Definition col_filled (ct : wstring) (rows cols fc : nat) : list (list Z) :=
  (foldl (fill_at ct (length ct)) (Table.blank rows cols, 0%nat)
         (depth_major rows cols fc)).1.
Definition sweep (g : list (list Z)) (cells : list (nat * nat)) : wstring :=
  foldl (read_at g) [] cells.

(** A cell that does not hold the blank. *)
Definition inked (g : list (list Z)) (rc : nat * nat) : Prop :=
  cell g rc.1 rc.2 ≠ L_space.
#[global] Instance inked_dec g rc : Decision (inked g rc).
Proof. unfold inked. apply _. Defined.

(** The row-major rank of a cell; the cells that hold a letter are those
    whose rank is below the text length. *)
Definition code (cols : nat) (rc : nat * nat) : nat := (rc.1 * cols + rc.2)%nat.
Definition filled (cols n : nat) (rc : nat * nat) : Prop := (code cols rc < n)%nat.
#[global] Instance filled_dec cols n rc : Decision (filled cols n rc).
Proof. unfold filled. apply _. Defined.

(** The shape of the grid: [rows] is the least number of rows of width
    [cols] that hold [n] letters, and [fc] letters sit in the last row. *)
Record geometry (n rows cols fc : nat) : Prop := {
  geo_cols : (0 < cols)%nat;
  geo_rows : (0 < rows)%nat;
  geo_last : (0 < fc ≤ cols)%nat;
  geo_n : n = ((rows - 1) * cols + fc)%nat
}.

Definition no_blank (s : wstring) : Prop := Forall (fun c => c ≠ L_space) s.

(** *** Sample inputs *)

Definition txt_PRIVET : wstring := [1055; 1056; 1048; 1042; 1045; 1058].  (* ПРИВЕТ *)
Definition txt_TEVIRP : wstring := [1058; 1045; 1042; 1048; 1056; 1055].  (* ТЕВИРП *)
Definition txt_OPZBDS : wstring := [1054; 1055; 1047; 1041; 1044; 1057].  (* ОПЗБДС *)
Definition txt_ABVGD : wstring := [1040; 1041; 1042; 1043; 1044].         (* АБВГД *)
(** "привет, мир!" *)
Definition txt_privet_mir : wstring :=
  [1087; 1088; 1080; 1074; 1077; 1090; 44; 32; 1084; 1080; 1088; 33].
Definition key_YA : wstring := [1071].                                    (* Я *)
Definition key_MIR : wstring := [1052; 1048; 1056].                       (* МИР *)
Definition latin_ABC : wstring := [65; 66; 67].
Definition latin_abc : wstring := [97; 98; 99].

(** The engine built from the key "МИР". *)
Definition engine_MIR : modAlphaCipher.t :=
  {| modAlphaCipher.alphaNum := modAlphaCipher.fillAlphaNum;
     modAlphaCipher.key := [13; 9; 17] |}.

(** *** More of the platform, and operations on keys *)

(** [std::towlower] of the model locale. *)
Definition utf8_towlower (c : wchar_t) : wchar_t :=
  if in_range 65 90 c || in_range L_A L_YA c then c + 32
  else if c =? L_YO then L_yo
  else c.

(** The classification of the model locale with the seven aliases of the
    platform's C library added: U+1C80 to U+1C86 are alphabetic and
    lower-case, and upper-cased onto В Д О С Т Т Ъ. *)
Definition glibc_small (c : wchar_t) : bool := in_range 7296 7302 c.
Definition glibc_towupper (c : wchar_t) : wchar_t :=
  if c =? 7296 then 1042          (* U+1C80 to В *)
  else if c =? 7297 then 1044     (* U+1C81 to Д *)
  else if c =? 7298 then 1054     (* U+1C82 to О *)
  else if c =? 7299 then 1057     (* U+1C83 to С *)
  else if c =? 7300 then 1058     (* U+1C84 to Т *)
  else if c =? 7301 then 1058     (* U+1C85 to Т *)
  else if c =? 7302 then 1066     (* U+1C86 to Ъ *)
  else utf8_towupper c.

Definition glibc_ru : Locale := {|
  iswalpha := fun c => utf8_iswupper c || utf8_iswlower c || glibc_small c;
  iswlower := fun c => utf8_iswlower c || glibc_small c;
  iswupper := utf8_iswupper;
  towupper := glibc_towupper
|}.

(** Lowering a capital of the alphabet gives a character that is not
    upper-case. *)
Definition lowers_capitals (L : Locale) (towlower : wchar_t -> wchar_t) : Prop :=
  forall c, c ∈ upper_letters -> iswupper L (towlower c) = false.

(** For the Latin capitals: alphabetic, not lower-case. *)
Definition latin_alphabetic (L : Locale) : Prop :=
  forall c, 65 <= c <= 90 -> iswalpha L c = true /\ iswlower L c = false.

(** The key string repeated [n] times. *)
Definition repeated (n : nat) (s : wstring) : wstring := concat (replicate n s).

(** The key whose shifts are the sums of the shifts of two keys. *)
Definition add_keys (k1 k2 : list Z) : list Z :=
  zip_with (fun a b => (a + b) mod 33) k1 k2.

(** The first [n] elements of the key reused cyclically. *)
Definition cycled (key : list Z) (n : nat) : list Z := key_at key <$> seq 0 n.

(** *** More sample inputs *)

(** "ПРИВЕТМИР" *)
Definition txt_PRIVETMIR : wstring :=
  [1055; 1056; 1048; 1042; 1045; 1058; 1052; 1048; 1056].
Definition key_mir : wstring := [1084; 1080; 1088].                       (* мир *)
Definition key_SHCHSB : wstring := [1065; 1057; 1041].                    (* ЩСБ *)
Definition key_A : wstring := [1040].                                     (* А *)

(** The engines built from the keys "ЩСБ", "МИРМИР" and "А". *)
Definition engine_SHCHSB : modAlphaCipher.t :=
  {| modAlphaCipher.alphaNum := modAlphaCipher.fillAlphaNum;
     modAlphaCipher.key := [26; 18; 1] |}.
Definition engine_MIRMIR : modAlphaCipher.t :=
  {| modAlphaCipher.alphaNum := modAlphaCipher.fillAlphaNum;
     modAlphaCipher.key := [13; 9; 17; 13; 9; 17] |}.
Definition engine_A : modAlphaCipher.t :=
  {| modAlphaCipher.alphaNum := modAlphaCipher.fillAlphaNum;
     modAlphaCipher.key := [0] |}.


(** *** The vectors of the unit tests

    What src/2.1/unit_tests.cpp and src/2.2/test.cpp feed to the engines and
    what they expect back, test by test. *)

(** Shift engine, [CHECK_EQUAL] on [encrypt]: key, text, expected. *)
Definition shift_encrypt_expected : list (wstring * wstring * wstring) :=
  [
   (* KeyTest/ValidKey: МИР, ААААА, МИРМИ *)
   ([1052; 1048; 1056],
    [1040; 1040; 1040; 1040; 1040],
    [1052; 1048; 1056; 1052; 1048]);
   (* KeyTest/LongKey: ДЛИННЫЙКЛЮЧ, ААААА, ДЛИНН *)
   ([1044; 1051; 1048; 1053; 1053; 1067; 1049; 1050; 1051; 1070; 1063],
    [1040; 1040; 1040; 1040; 1040],
    [1044; 1051; 1048; 1053; 1053]);
   (* KeyTest/LowCaseKey: мир, ААААА, МИРМИ *)
   ([1084; 1080; 1088],
    [1040; 1040; 1040; 1040; 1040],
    [1052; 1048; 1056; 1052; 1048]);
   (* EncryptTest/UpCaseString: В, ПРИВЕТ, СТКДЖФ *)
   ([1042],
    [1055; 1056; 1048; 1042; 1045; 1058],
    [1057; 1058; 1050; 1044; 1046; 1060]);
   (* EncryptTest/LowCaseString: В, привет, СТКДЖФ *)
   ([1042],
    [1087; 1088; 1080; 1074; 1077; 1090],
    [1057; 1058; 1050; 1044; 1046; 1060]);
   (* EncryptTest/StringWithWhitspaceAndPunct: В, ПРИВЕТ, МИР!, СТКДЖФОКТ *)
   ([1042],
    [1055; 1056; 1048; 1042; 1045; 1058; 44; 32; 1052; 1048; 1056; 33],
    [1057; 1058; 1050; 1044; 1046; 1060; 1054; 1050; 1058]);
   (* EncryptTest/StringWithNumbers: В, ТЕСТ123, ФЖУФ *)
   ([1042],
    [1058; 1045; 1057; 1058; 49; 50; 51],
    [1060; 1046; 1059; 1060]);
   (* EncryptTest/MaxShiftKey: Я, ПРИВЕТ, ОПЗБДС *)
   ([1071],
    [1055; 1056; 1048; 1042; 1045; 1058],
    [1054; 1055; 1047; 1041; 1044; 1057])
  ].

(** Shift engine, [CHECK_EQUAL] on [decrypt]: key, ciphertext, expected. *)
Definition shift_decrypt_expected : list (wstring * wstring * wstring) :=
  [
   (* DecryptTest/UpCaseString: В, СТКДЖФ, ПРИВЕТ *)
   ([1042],
    [1057; 1058; 1050; 1044; 1046; 1060],
    [1055; 1056; 1048; 1042; 1045; 1058]);
   (* DecryptTest/MaxShiftKey: Я, ОПЗБДС, ПРИВЕТ *)
   ([1071],
    [1054; 1055; 1047; 1041; 1044; 1057],
    [1055; 1056; 1048; 1042; 1045; 1058])
  ].

(** Shift engine, [CHECK_THROW]: the refused keys; key and refused text;
    key and refused ciphertext (the ciphertext "СТКДЖФ" of "ПРИВЕТ" with
    its first letter lowered, with a blank or digits appended, with "!" in
    front). *)
Definition shift_keys_refused : list wstring :=
  [
   (* KeyTest/DigitsInKey: МИР123 *)
   [1052; 1048; 1056; 49; 50; 51];
   (* KeyTest/PunctuationInKey: МИР,МИР *)
   [1052; 1048; 1056; 44; 1052; 1048; 1056];
   (* KeyTest/WhitespaceInKey: МИР МИР *)
   [1052; 1048; 1056; 32; 1052; 1048; 1056];
   (* KeyTest/EmptyKey *)
   []
  ].
Definition shift_texts_refused : list (wstring * wstring) :=
  [
   (* EncryptTest/EmptyString *)
   ([1042], []);
   (* EncryptTest/NoAlphaString: 1234+8765=9999 *)
   ([1042], [49; 50; 51; 52; 43; 56; 55; 54; 53; 61; 57; 57; 57; 57])
  ].
Definition shift_ciphers_refused : list (wstring * wstring) :=
  [
   (* DecryptTest/LowCaseString *)
   ([1042], [1089; 1058; 1050; 1044; 1046; 1060]);
   (* DecryptTest/WhitespaceString *)
   ([1042], [1057; 1058; 1050; 1044; 1046; 1060; 32]);
   (* DecryptTest/DigitsString *)
   ([1042], [1057; 1058; 1050; 1044; 1046; 1060; 49; 50; 51]);
   (* DecryptTest/PunctString *)
   ([1042], [33; 1057; 1058; 1050; 1044; 1046; 1060]);
   (* DecryptTest/EmptyString *)
   ([1042], [])
  ].

(** Transposition engine, [CHECK_EQUAL] on [encrypt] and on [decrypt]:
    columns, input, expected. *)
Definition table_encrypt_expected : list (Z * wstring * wstring) :=
  [
   (* ConstructorTest/ValidKey, EncryptTest/UpperCaseString: ПРИВЕТМИР, ИТРРЕИПВМ *)
   (3,
    [1055; 1056; 1048; 1042; 1045; 1058; 1052; 1048; 1056],
    [1048; 1058; 1056; 1056; 1045; 1048; 1055; 1042; 1052]);
   (* ConstructorTest/LongKey: ПРИВЕТ, ТЕВИРП *)
   (10,
    [1055; 1056; 1048; 1042; 1045; 1058],
    [1058; 1045; 1042; 1048; 1056; 1055]);
   (* ConstructorTest/KeyEqualsMessageLength: ПРИВЕТМИР, РИМТЕВИРП *)
   (9,
    [1055; 1056; 1048; 1042; 1045; 1058; 1052; 1048; 1056],
    [1056; 1048; 1052; 1058; 1045; 1042; 1048; 1056; 1055]);
   (* EncryptTest/LowerCaseString: приветмир *)
   (3,
    [1087; 1088; 1080; 1074; 1077; 1090; 1084; 1080; 1088],
    [1048; 1058; 1056; 1056; 1045; 1048; 1055; 1042; 1052]);
   (* EncryptTest/StringWithWhitespace: ПРИВЕТ МИР *)
   (3,
    [1055; 1056; 1048; 1042; 1045; 1058; 32; 1052; 1048; 1056],
    [1048; 1058; 1056; 1056; 1045; 1048; 1055; 1042; 1052]);
   (* EncryptTest/StringWithNumbers: ПРИВЕТ2024, ИТРЕПВ *)
   (3,
    [1055; 1056; 1048; 1042; 1045; 1058; 50; 48; 50; 52],
    [1048; 1058; 1056; 1045; 1055; 1042]);
   (* EncryptTest/KeyEqualsOne *)
   (1,
    [1055; 1056; 1048; 1042; 1045; 1058; 1052; 1048; 1056],
    [1055; 1056; 1048; 1042; 1045; 1058; 1052; 1048; 1056]);
   (* EncryptTest/StringWithPunctuation: ПРИВЕТ, МИР *)
   (3,
    [1055; 1056; 1048; 1042; 1045; 1058; 44; 32; 1052; 1048; 1056],
    [1048; 1058; 1056; 1056; 1045; 1048; 1055; 1042; 1052]);
   (* EncryptTest/ShortText: А *)
   (3,
    [1040],
    [1040])
  ].
Definition table_decrypt_expected : list (Z * wstring * wstring) :=
  [
   (* DecryptTest/UpperCaseString, DecryptTest/ValidCipherText *)
   (3,
    [1048; 1058; 1056; 1056; 1045; 1048; 1055; 1042; 1052],
    [1055; 1056; 1048; 1042; 1045; 1058; 1052; 1048; 1056]);
   (* DecryptTest/KeyEqualsOneDecrypt *)
   (1,
    [1055; 1056; 1048; 1042; 1045; 1058; 1052; 1048; 1056],
    [1055; 1056; 1048; 1042; 1045; 1058; 1052; 1048; 1056]);
   (* DecryptTest/ShortCipherText *)
   (3,
    [1040],
    [1040])
  ].

(** Transposition engine, [CHECK_THROW]: the refused keys; columns and
    refused text; columns and refused ciphertext. *)
Definition table_keys_refused : list Z := [-3; 0].
Definition table_texts_refused : list (Z * wstring) :=
  [
   (* EncryptTest/NoLetters: 1234 *)
   (3, [49; 50; 51; 52]);
   (* EncryptTest/EmptyString *)
   (3, [])
  ].
Definition table_ciphers_refused : list (Z * wstring) :=
  [
   (* DecryptTest/LowerCaseString: итереиПВМ *)
   (3, [1080; 1090; 1077; 1088; 1077; 1080; 1055; 1042; 1052]);
   (* DecryptTest/WhitespaceString: ИТР РЕИ ПВМ *)
   (3,
    [1048; 1058; 1056; 32; 1056; 1045; 1048; 32; 1055; 1042; 1052]);
   (* DecryptTest/DigitsString: ИТРЕПВ2024 *)
   (3, [1048; 1058; 1056; 1045; 1055; 1042; 50; 48; 50; 52]);
   (* DecryptTest/NoLettersDecrypt: 1234 *)
   (3, [49; 50; 51; 52]);
   (* DecryptTest/EmptyStringDecrypt *)
   (3, [])
  ].

(** The round trips: KeyTest/WeakKey (key А, text ТЕСТ) of the shift engine;
    EncryptTest/NonMultipleKey (4 columns, АБВГД) and DecryptTest/ShortString
    (5 columns, А) of the transposition engine. *)
Definition shift_round_trips : list (wstring * wstring) :=
  [([1040], [1058; 1045; 1057; 1058])].
Definition table_round_trips : list (Z * wstring) :=
  [(4, [1040; 1041; 1042; 1043; 1044]); (5, [1040])].

(** * Properties *)

(** ** Lists and loops *)

Section ListFacts.
Local Open Scope nat_scope.

Lemma filter_ext_in {A} (P Q : A → Prop) `{!∀ x, Decision (P x), !∀ x, Decision (Q x)}
    (l : list A) :
  (∀ x, x ∈ l → P x ↔ Q x) → filter P l = filter Q l.
Proof.
  induction l as [|a l IH]; intros Hext; [done|].
  rewrite !filter_cons.
  assert (P a ↔ Q a) as Ha by (apply Hext; left).
  rewrite IH by (intros; apply Hext; by right).
  destruct (decide (P a)), (decide (Q a)); tauto.
Qed.

Lemma filter_fmap_pre {A B} (f : A → B) (P : B → Prop) `{!∀ x, Decision (P x)}
    (l : list A) :
  filter P (f <$> l) = f <$> filter (fun x => P (f x)) l.
Proof.
  induction l as [|a l IH]; [done|].
  rewrite fmap_cons, !filter_cons, IH. by destruct (decide (P (f a))).
Qed.

Lemma filter_bind_pre {A B} (f : A → list B) (P : B → Prop) `{!∀ x, Decision (P x)}
    (l : list A) :
  filter P (l ≫= f) = l ≫= fun x => filter P (f x).
Proof.
  induction l as [|a l IH]; [done|].
  by rewrite !bind_cons, filter_app, IH.
Qed.

Lemma filter_all {A} (P : A → Prop) `{!∀ x, Decision (P x)} (l : list A) :
  (∀ x, x ∈ l → P x) → filter P l = l.
Proof.
  induction l as [|a l IH]; intros Hall; [done|].
  rewrite filter_cons_True by (apply Hall; left).
  rewrite IH; [done|]. intros; apply Hall; by right.
Qed.

Lemma filter_none {A} (P : A → Prop) `{!∀ x, Decision (P x)} (l : list A) :
  (∀ x, x ∈ l → ¬ P x) → filter P l = [].
Proof.
  induction l as [|a l IH]; intros Hall; [done|].
  rewrite filter_cons_False by (apply Hall; left).
  apply IH. intros; apply Hall; by right.
Qed.

Lemma bind_ext_in {A B} (f g : A → list B) (l : list A) :
  (∀ x, x ∈ l → f x = g x) → l ≫= f = l ≫= g.
Proof.
  induction l as [|a l IH]; intros Hext; [done|].
  rewrite !bind_cons, (Hext a) by left.
  rewrite IH; [done|]. intros; apply Hext; by right.
Qed.

Lemma filter_seq_lt d m : d ≤ m → filter (fun r => r < d) (seq 0 m) = seq 0 d.
Proof.
  intros Hdm. replace m with (d + (m - d)) by lia.
  rewrite seq_app, filter_app, filter_all, filter_none.
  - apply app_nil_r.
  - intros x Hx%elem_of_seq. lia.
  - intros x Hx%elem_of_seq. lia.
Qed.

Lemma lookup_total_seq_fmap (l : list Z) : (fun i => l !!! i) <$> seq 0 (length l) = l.
Proof.
  apply list_eq. intros i. rewrite list_lookup_fmap.
  destruct (l !! i) as [x|] eqn:Hi.
  - rewrite (proj2 (lookup_seq 0 (length l) i i)).
    + cbn. by rewrite (list_lookup_total_correct _ _ _ Hi).
    + split; [done|]. by eapply lookup_lt_Some.
  - apply lookup_ge_None in Hi. rewrite (proj2 (lookup_ge_None _ _)); [done|].
    by rewrite length_seq.
Qed.

Lemma fmap_bind_comm {A B C} (f : B → C) (g : A → list B) (l : list A) :
  f <$> (l ≫= g) = l ≫= fun x => f <$> g x.
Proof.
  induction l as [|a l IH]; [done|]. by rewrite !bind_cons, fmap_app, IH.
Qed.

Lemma bind_guard {A B} (P : A → Prop) `{!∀ x, Decision (P x)} (f : A → B)
    (l : list A) :
  l ≫= (fun x => if decide (P x) then [f x] else []) = f <$> filter P l.
Proof.
  induction l as [|a l IH]; [done|].
  rewrite bind_cons, IH, filter_cons. by destruct (decide (P a)).
Qed.

Lemma length_pos {A} (l : list A) : l ≠ [] → 0 < length l.
Proof. destruct l; [done|cbn; lia]. Qed.

End ListFacts.

(** Loops that may fail. *)
Lemma for_each_app {A B} (body : A → B → outcome A) (l1 l2 : list B) a :
  for_each body (l1 ++ l2) a = for_each body l1 a ≫= for_each body l2.
Proof.
  revert a. induction l1 as [|x l1 IH]; intros a; [done|].
  cbn [app for_each]. destruct (body a x); cbn [mbind outcome_bind]; [apply IH|done..].
Qed.

Lemma for_each_snoc {A B} (body : A → B → outcome A) idx i a :
  for_each body (idx ++ [i]) a = for_each body idx a ≫= fun a' => body a' i.
Proof.
  rewrite for_each_app. destruct (for_each body idx a) as [a'| |]; [|done..].
  cbn. by destruct (body a' i).
Qed.

Lemma for_each_fmap {A B C} (body : A → B → outcome A) (g : C → B) (l : list C) a :
  for_each body (g <$> l) a = for_each (fun a y => body a (g y)) l a.
Proof.
  revert a. induction l as [|y l IH]; intros a; [done|].
  rewrite fmap_cons. cbn [for_each].
  destruct (body a (g y)); cbn [mbind outcome_bind]; [apply IH|done..].
Qed.

(** A loop nest is one loop over the pairs it visits. *)
Lemma for_each_nest {A B C D} (body : A → D → outcome A) (mk : B → C → D)
    (inner : B → list C) (outer : list B) (a : A) :
  for_each (fun a x => for_each (fun a y => body a (mk x y)) (inner x) a) outer a
  = for_each body (outer ≫= fun x => mk x <$> inner x) a.
Proof.
  revert a. induction outer as [|x outer IH]; intros a; [done|].
  rewrite bind_cons, for_each_app, for_each_fmap. cbn [for_each].
  destruct (for_each _ (inner x) a); cbn [mbind outcome_bind]; [apply IH|done..].
Qed.

(** A loop whose rounds all succeed, under an invariant, is a fold. *)
Lemma for_each_pure {A B} (Inv : A → Prop) (P : B → Prop)
    (body : A → B → outcome A) (f : A → B → A) (l : list B) (a : A) :
  (∀ a x, Inv a → P x → body a x = Ret (f a x) ∧ Inv (f a x)) →
  Inv a → Forall P l →
  for_each body l a = Ret (foldl f a l) ∧ Inv (foldl f a l).
Proof.
  intros Hbody Ha Hl. revert a Ha.
  induction Hl as [|x l Hx _ IH]; intros a Ha; [done|].
  destruct (Hbody a x Ha Hx) as [E Ha']. cbn [for_each foldl].
  rewrite E. cbn [mbind outcome_bind]. by apply IH.
Qed.

(** A loop that rewrites position [i] in round [i] maps over the vector. *)
Lemma for_each_update (g : nat → Z → Z) (body : list Z → nat → outcome (list Z))
    (w : list Z) :
  (∀ w' i x, length w' = length w → w' !! i = Some x →
     body w' i = Ret (<[i := g i x]> w')) →
  for_each body (seq 0 (length w)) w = Ret (imap g w).
Proof.
  intros Hbody.
  assert (∀ k, (k ≤ length w)%nat →
            for_each body (seq 0 k) w = Ret (take k (imap g w) ++ drop k w)) as H.
  { induction k as [|k IH]; intros Hk; [done|].
    rewrite seq_S, for_each_snoc, IH by lia. cbn [mbind outcome_bind plus].
    destruct (lookup_lt_is_Some_2 w k ltac:(lia)) as [x Hx].
    assert (length (take k (imap g w)) = k) as Hlen
      by (rewrite length_take, length_imap; lia).
    rewrite (Hbody _ k x).
    - f_equal. rewrite (take_S_r _ _ (g k x)) by (by rewrite list_lookup_imap, Hx).
      rewrite <- app_assoc. cbn [app].
      rewrite (drop_S _ _ _ Hx).
      rewrite insert_app_r_alt by lia. by rewrite Hlen, Nat.sub_diag.
    - rewrite length_app, Hlen, length_drop. lia.
    - rewrite lookup_app_r by lia. rewrite Hlen, Nat.sub_diag.
      by rewrite lookup_drop, Nat.add_0_r. }
  rewrite H by done. rewrite take_ge, drop_ge by (rewrite ?length_imap; lia).
  by rewrite app_nil_r.
Qed.

(** A loop raises only what its body raises. *)
Lemma for_each_no_throw {A B} (body : A → B → outcome A) (idx : list B) a e :
  (∀ a i e, body a i ≠ Throw e) → for_each body idx a ≠ Throw e.
Proof.
  intros Hbody. revert a. induction idx as [|i idx IH]; intros a; [done|].
  cbn [for_each]. destruct (body a i) as [a'|e'|] eqn:E; cbn [mbind outcome_bind].
  - apply IH.
  - by apply Hbody in E.
  - done.
Qed.

(** Conversions of small numbers do not wrap. *)
Lemma to_int_small z : - 2 ^ 31 <= z <= INT_MAX → to_int z = z.
Proof. unfold to_int, INT_MAX. intros H. rewrite Z.mod_small; lia. Qed.

Lemma to_size_t_small z : 0 <= z < 2 ^ 64 → to_size_t z = z.
Proof. intros. unfold to_size_t. by apply Z.mod_small. Qed.

(** Checks over a range or a list, to be run by computation. *)
Lemma forallb_range (P : Z → bool) (lo : Z) (n : nat) :
  forallb (fun i => P (lo + Z.of_nat i)) (seq 0 n) = true →
  ∀ c, lo <= c < lo + Z.of_nat n → P c = true.
Proof.
  intros H c Hc. rewrite forallb_forall in H.
  specialize (H (Z.to_nat (c - lo))). rewrite Z2Nat.id in H by lia.
  replace (lo + (c - lo)) with c in H by lia.
  apply H, list_elem_of_In, elem_of_seq. lia.
Qed.

Lemma forallb_elem (P : Z → bool) (l : list Z) c :
  forallb P l = true → c ∈ l → P c = true.
Proof. intros H Hc. rewrite forallb_forall in H. by apply H, list_elem_of_In. Qed.

(** ** The alphabet *)

Section Alphabet.
Local Open Scope nat_scope.

(** The search for a character in a string. *)
Lemma find_Some s c i : find s c = Some i → s !! i = Some c.
Proof.
  revert i. induction s as [|x s IH]; intros i; [done|]. cbn.
  destruct (Z.eqb_spec x c) as [->|Hne].
  - by intros [= <-].
  - destruct (find s c) as [j|]; [|done]. intros [= <-]. by apply IH.
Qed.

Lemma find_None s c : find s c = None → c ∉ s.
Proof.
  induction s as [|x s IH]; [intros _; apply not_elem_of_nil|]. cbn.
  destruct (Z.eqb_spec x c) as [->|Hne]; [done|].
  destruct (find s c) as [j|]; [done|]. intros _.
  apply not_elem_of_cons. split; [congruence|by apply IH].
Qed.

Lemma find_is_Some s c : is_Some (find s c) ↔ c ∈ s.
Proof.
  split.
  - intros [i Hi]. eapply list_elem_of_lookup_2, find_Some, Hi.
  - intros Hin. destruct (find s c) eqn:E; [done|]. by apply find_None in E.
Qed.

Lemma fold_upper_capital c : c ∈ upper_letters → fold_upper c = c.
Proof.
  intros Hc.
  assert (forallb (fun c => fold_upper c =? c)%Z upper_letters = true) as H
    by (by vm_compute).
  rewrite forallb_forall in H. apply Z.eqb_eq, H. by apply list_elem_of_In.
Qed.

Lemma fold_upper_small c : c ∈ lower_letters → fold_upper c ∈ upper_letters.
Proof.
  intros Hc.
  assert (forallb (fun c => is_upper_letter (fold_upper c)) lower_letters = true) as H
    by (by vm_compute).
  rewrite forallb_forall in H. eapply bool_decide_eq_true, H. by apply list_elem_of_In.
Qed.

Lemma is_letter_true c : is_letter c = true ↔ c ∈ upper_letters ∨ c ∈ lower_letters.
Proof.
  unfold is_letter, is_upper_letter, is_lower_letter.
  rewrite orb_true_iff, !bool_decide_eq_true. done.
Qed.

Lemma normalize_cons c s :
  normalize (c :: s)
  = if is_letter c then fold_upper c :: normalize s else normalize s.
Proof.
  unfold normalize. rewrite filter_cons.
  destruct (is_letter c); [by rewrite decide_True|by rewrite decide_False].
Qed.

Lemma normalize_capitals s : Forall (fun c => c ∈ upper_letters) (normalize s).
Proof.
  induction s as [|c s IH]; [constructor|]. rewrite normalize_cons.
  destruct (is_letter c) eqn:E; [|done]. constructor; [|done].
  apply is_letter_true in E as [?|?];
    [by rewrite fold_upper_capital|by apply fold_upper_small].
Qed.

End Alphabet.

Lemma is_letter_false c :
  is_letter c = false ↔ (c ∉ upper_letters) ∧ (c ∉ lower_letters).
Proof.
  unfold is_letter, is_upper_letter, is_lower_letter.
  rewrite orb_false_iff, !bool_decide_eq_false. done.
Qed.

(** Ranges of the letters. *)
Lemma capital_not_small c : c ∈ upper_letters → in_range L_a L_ya c = false ∧ (c =? L_yo) = false.
Proof.
  intros Hc.
  assert (forallb (fun c => negb (in_range L_a L_ya c) && negb (c =? L_yo))
            upper_letters = true) as H by (by vm_compute).
  rewrite forallb_forall in H. specialize (H c (proj1 (list_elem_of_In _ _) Hc)).
  apply andb_true_iff in H as [H1 H2]. by split; apply negb_true_iff.
Qed.

Lemma small_range c :
  c ∈ lower_letters ↔ in_range L_a L_ya c = true ∨ c = L_yo.
Proof.
  split.
  - intros Hc.
    assert (forallb (fun c => in_range L_a L_ya c || (c =? L_yo)) lower_letters = true)
      as H by (by vm_compute).
    rewrite forallb_forall in H. specialize (H c (proj1 (list_elem_of_In _ _) Hc)).
    apply orb_true_iff in H as [H|H]; [by left|right; lia].
  - intros [Hc| ->]; [|by apply (bool_decide_eq_true (L_yo ∈ lower_letters))].
    assert (forallb (fun n => is_lower_letter (L_a + Z.of_nat n)) (seq 0 32) = true)
      as H by (by vm_compute).
    rewrite forallb_forall in H. specialize (H (Z.to_nat (c - L_a))).
    unfold in_range, L_a, L_ya in *. rewrite Z2Nat.id in H by lia.
    replace (1072 + (c - 1072)) with c in H by lia.
    eapply bool_decide_eq_true, H, list_elem_of_In, elem_of_seq. lia.
Qed.

Lemma fold_upper_letter c : is_letter c = true → fold_upper c ∈ upper_letters.
Proof.
  intros [Hc|Hc]%is_letter_true.
  - unfold fold_upper. by destruct (capital_not_small c Hc) as [-> ->].
  - assert (forallb (fun c => is_upper_letter (fold_upper c)) lower_letters = true) as H
      by (by vm_compute).
    rewrite forallb_forall in H. eapply bool_decide_eq_true, H. by apply list_elem_of_In.
Qed.

(** A text checked letter by letter consists of capitals. *)
Lemma capitals_sample (s : list Z) :
  forallb is_upper_letter s = true → Forall (fun c => c ∈ upper_letters) s.
Proof.
  intros H. apply Forall_forall. intros c Hc.
  apply (forallb_elem is_upper_letter s c H) in Hc.
  by apply bool_decide_eq_true in Hc.
Qed.

(** The model locale obeys the four laws. *)
Lemma utf8_ru_russian : RussianLocale utf8_ru.
Proof.
  split.
  - intros c Hc. apply Z.eqb_eq.
    apply (forallb_elem (fun c => utf8_towupper c =? c) upper_letters); [|done].
    by vm_compute.
  - intros c Hc. cbn [towupper utf8_ru]. unfold utf8_towupper.
    destruct (in_range 97 122 c) eqn:E1; cbn [orb].
    + apply negb_true_iff.
      apply (forallb_range (fun c => negb (is_letter c)) 65 26); [by vm_compute|].
      unfold in_range in E1. lia.
    + pose proof Hc as [_ Hl]%is_letter_false.
      destruct (in_range L_a L_ya c) eqn:E2.
      { exfalso. apply Hl, small_range. by left. }
      destruct (Z.eqb_spec c L_yo) as [->|_]; [|done].
      exfalso. apply Hl, small_range. by right.
  - intros c [Hc|Hc]%is_letter_true; cbn [iswalpha utf8_ru].
    + apply (forallb_elem (fun c => utf8_iswupper c || utf8_iswlower c) upper_letters);
        [by vm_compute|done].
    + apply (forallb_elem (fun c => utf8_iswupper c || utf8_iswlower c) lower_letters);
        [by vm_compute|done].
  - intros c Hc. apply (forallb_elem utf8_iswupper upper_letters); [by vm_compute|done].
Qed.

(** The locale with the aliases of glibc obeys three of the laws and
    breaks the fourth: upper-casing sends U+1C80, which is no Russian letter,
    onto "В". *)
Lemma glibc_ru_capitals_fixed : capitals_fixed glibc_ru.
Proof.
  intros c Hc. apply Z.eqb_eq.
  apply (forallb_elem (fun c => glibc_towupper c =? c) upper_letters); [|done].
  by vm_compute.
Qed.

Lemma glibc_ru_alphabetic : letters_alphabetic glibc_ru.
Proof.
  intros c [Hc|Hc]%is_letter_true; cbn [iswalpha glibc_ru].
  - apply (forallb_elem (fun c => utf8_iswupper c || utf8_iswlower c || glibc_small c)
             upper_letters); [by vm_compute|done].
  - apply (forallb_elem (fun c => utf8_iswupper c || utf8_iswlower c || glibc_small c)
             lower_letters); [by vm_compute|done].
Qed.

Lemma glibc_ru_upper : capitals_upper glibc_ru.
Proof.
  intros c Hc. apply (forallb_elem utf8_iswupper upper_letters); [by vm_compute|done].
Qed.

Lemma glibc_ru_foreign : ¬ foreign_kept_foreign glibc_ru.
Proof. intros H. specialize (H 7296 eq_refl). by vm_compute in H. Qed.

(** A text checked character by character holds no alias. *)
Lemma no_alias_sample (L : Locale) (s : list Z) :
  forallb (fun c => negb (alias L c)) s = true → no_alias L s.
Proof.
  intros H. apply Forall_forall. intros c Hc.
  apply (forallb_elem (fun c => negb (alias L c)) s c H) in Hc.
  by apply negb_true_iff in Hc.
Qed.

(** ** The transposition engine *)

Module TableFacts.
Import Table.
Local Open Scope nat_scope.

(** *** The grid *)

Lemma dims_blank rows cols : dims (blank rows cols) rows cols.
Proof.
  split; [apply length_replicate|].
  apply Forall_replicate, length_replicate.
Qed.

Lemma dims_put g rows cols r c v : dims g rows cols → dims (put g r c v) rows cols.
Proof.
  intros [Hl Hf]. split; unfold put.
  - by rewrite length_alter.
  - apply Forall_alter; [done|]. intros x _ Hx. by rewrite length_insert.
Qed.

Lemma cell_blank rows cols r c : r < rows → c < cols → cell (blank rows cols) r c = L_space.
Proof.
  intros Hr Hc. unfold cell, blank.
  rewrite lookup_total_replicate_2 by done.
  by rewrite lookup_total_replicate_2.
Qed.

Lemma cell_put_eq g rows cols r c v :
  dims g rows cols → r < rows → c < cols → cell (put g r c v) r c = v.
Proof.
  intros [Hl Hf] Hr Hc. unfold cell, put.
  destruct (lookup_lt_is_Some_2 g r) as [x Hx]; [lia|].
  rewrite list_lookup_total_alter_eq by lia.
  rewrite (list_lookup_total_correct _ _ _ Hx).
  apply list_lookup_total_correct, list_lookup_insert_eq.
  rewrite Forall_lookup in Hf. by rewrite (Hf _ _ Hx).
Qed.

Lemma cell_put_ne g r c v r' c' :
  (r, c) ≠ (r', c') → cell (put g r c v) r' c' = cell g r' c'.
Proof.
  intros Hne. unfold cell, put.
  destruct (decide (r = r')) as [->|Hr].
  - destruct (g !! r') as [x|] eqn:Hx.
    + rewrite list_lookup_total_alter_eq by (by eapply lookup_lt_Some).
      rewrite (list_lookup_total_correct _ _ _ Hx).
      rewrite !list_lookup_total_alt, list_lookup_insert_ne; [done|congruence].
    + rewrite !(list_lookup_total_alt _ r'), list_lookup_alter_eq, Hx. done.
  - by rewrite list_lookup_total_alter_ne.
Qed.

(** Inside the grid the accesses are defined. *)
Lemma load_cell g rows cols r c :
  dims g rows cols → r < rows → c < cols → load g r c = Ret (cell g r c).
Proof.
  intros [Hl Hf] Hr Hc. unfold load, cell.
  destruct (lookup_lt_is_Some_2 g r) as [x Hx]; [lia|].
  rewrite Hx, (list_lookup_total_correct _ _ _ Hx).
  destruct (lookup_lt_is_Some_2 x c) as [v Hv].
  { rewrite Forall_lookup in Hf. by rewrite (Hf _ _ Hx). }
  by rewrite Hv, (list_lookup_total_correct _ _ _ Hv).
Qed.

Lemma store_put g rows cols r c v :
  dims g rows cols → r < rows → c < cols → store g r c v = Ret (put g r c v).
Proof.
  intros [Hl Hf] Hr Hc. unfold store.
  destruct (lookup_lt_is_Some_2 g r) as [x Hx]; [lia|]. rewrite Hx.
  rewrite Forall_lookup in Hf. rewrite (Hf _ _ Hx).
  by rewrite (proj2 (Nat.ltb_lt _ _) Hc).
Qed.

Lemma fill_cell_at vt n rows cols st rc :
  n ≤ length vt → dims st.1 rows cols → in_grid rows cols rc →
  fill_cell vt n st rc.1 rc.2 = Ret (fill_at vt n st rc)
  ∧ dims (fill_at vt n st rc).1 rows cols.
Proof.
  intros Hn Hd [Hr Hc]. destruct st as [g idx]. unfold fill_cell, fill_at.
  cbn [fst snd] in *. destruct (Nat.ltb_spec idx n) as [Hlt|Hge]; [|done].
  unfold char_at. destruct (lookup_lt_is_Some_2 vt idx) as [v Hv]; [lia|].
  rewrite Hv, (list_lookup_total_correct _ _ _ Hv). cbn [mbind outcome_bind].
  rewrite (store_put g rows cols) by done. cbn [fst].
  split; [done|by apply dims_put].
Qed.

Lemma read_cell_at g rows cols res rc :
  dims g rows cols → in_grid rows cols rc →
  read_cell g res rc.1 rc.2 = Ret (read_at g res rc).
Proof.
  intros Hd [Hr Hc]. unfold read_cell, read_at.
  rewrite (load_cell g rows cols) by done. cbn [mbind outcome_bind].
  by destruct (negb _).
Qed.

Lemma fill_cells_run vt n rows cols cells st :
  n ≤ length vt → dims st.1 rows cols → Forall (in_grid rows cols) cells →
  for_each (fun st rc => fill_cell vt n st rc.1 rc.2) cells st
  = Ret (foldl (fill_at vt n) st cells).
Proof.
  intros Hn Hd Hcells.
  apply (for_each_pure (fun st => dims st.1 rows cols) (in_grid rows cols));
    [|done..].
  intros st' rc Hd' Hrc. by apply fill_cell_at.
Qed.

Lemma dims_fill vt n rows cols cells st :
  n ≤ length vt → dims st.1 rows cols → Forall (in_grid rows cols) cells →
  dims (foldl (fill_at vt n) st cells).1 rows cols.
Proof.
  intros Hn Hd Hcells.
  apply (for_each_pure (fun st => dims st.1 rows cols) (in_grid rows cols)
           (fun st rc => fill_cell vt n st rc.1 rc.2)); [|done..].
  intros st' rc Hd' Hrc. by apply fill_cell_at.
Qed.

Lemma read_cells_run g rows cols cells :
  dims g rows cols → Forall (in_grid rows cols) cells →
  for_each (fun res rc => read_cell g res rc.1 rc.2) cells [] = Ret (sweep g cells).
Proof.
  intros Hd Hcells. unfold sweep.
  apply (for_each_pure (fun _ => True) (in_grid rows cols)); [|done..].
  intros res rc _ Hrc. split; [|done]. by eapply read_cell_at.
Qed.

Lemma row_major_in_grid rows cols : Forall (in_grid rows cols) (row_major rows cols).
Proof.
  apply Forall_forall. intros rc. unfold row_major, in_grid.
  rewrite list_elem_of_bind. intros (r & Hc & Hr).
  apply list_elem_of_fmap in Hc as (c & -> & Hc).
  apply elem_of_seq in Hr, Hc. cbn. lia.
Qed.

Lemma col_major_in_grid rows cols : Forall (in_grid rows cols) (col_major rows cols).
Proof.
  apply Forall_forall. intros rc. unfold col_major, in_grid.
  rewrite list_elem_of_bind. intros (c & Hr & Hc).
  apply list_elem_of_fmap in Hr as (r & -> & Hr).
  rewrite elem_of_reverse in Hc. apply elem_of_seq in Hr, Hc. cbn. lia.
Qed.

Lemma depth_major_in_grid rows cols fc :
  Forall (in_grid rows cols) (depth_major rows cols fc).
Proof.
  apply Forall_forall. intros rc. unfold depth_major, in_grid.
  rewrite list_elem_of_bind. intros (c & Hr & Hc).
  apply list_elem_of_fmap in Hr as (r & -> & Hr).
  rewrite elem_of_reverse in Hc. apply elem_of_seq in Hr, Hc. cbn.
  destruct (fc <=? c); lia.
Qed.

(** The four loop nests, run inside the grid. *)
Lemma fill_rows_run vt n rows cols st :
  n ≤ length vt → dims st.1 rows cols →
  fill_rows vt n rows cols st = Ret (foldl (fill_at vt n) st (row_major rows cols)).
Proof.
  intros Hn Hd. unfold fill_rows.
  rewrite (for_each_nest (fun st rc => fill_cell vt n st rc.1 rc.2)
             (fun r c => (r, c)) (fun _ => seq 0 cols)).
  apply (fill_cells_run vt n rows cols); [done..|apply row_major_in_grid].
Qed.

Lemma fill_cols_run vt n rows cols fc st :
  n ≤ length vt → dims st.1 rows cols →
  fill_cols vt n rows cols fc st
  = Ret (foldl (fill_at vt n) st (depth_major rows cols fc)).
Proof.
  intros Hn Hd. unfold fill_cols.
  rewrite (for_each_nest (fun st rc => fill_cell vt n st rc.1 rc.2)
             (fun c r => (r, c))
             (fun c => seq 0 (if fc <=? c then rows - 1 else rows))).
  apply (fill_cells_run vt n rows cols); [done..|apply depth_major_in_grid].
Qed.

Lemma read_cols_run g rows cols :
  dims g rows cols → read_cols g rows cols = Ret (sweep g (col_major rows cols)).
Proof.
  intros Hd. unfold read_cols.
  rewrite (for_each_nest (fun res rc => read_cell g res rc.1 rc.2)
             (fun c r => (r, c)) (fun _ => seq 0 rows)).
  apply (read_cells_run g rows cols); [done|apply col_major_in_grid].
Qed.

Lemma read_rows_run g rows cols :
  dims g rows cols → read_rows g rows cols = Ret (sweep g (row_major rows cols)).
Proof.
  intros Hd. unfold read_rows.
  rewrite (for_each_nest (fun res rc => read_cell g res rc.1 rc.2)
             (fun r c => (r, c)) (fun _ => seq 0 cols)).
  apply (read_cells_run g rows cols); [done|apply row_major_in_grid].
Qed.

(** *** What a read loop and a fill loop compute *)

Lemma read_spec g cells res :
  foldl (read_at g) res cells
  = res ++ ((fun rc => cell g rc.1 rc.2) <$> filter (inked g) cells).
Proof.
  revert res. induction cells as [|rc cells IH]; intros res.
  - by rewrite app_nil_r.
  - cbn [foldl]. rewrite IH. rewrite filter_cons.
    unfold read_at at 1. unfold inked at 1.
    destruct (Z.eqb_spec (cell g rc.1 rc.2) L_space) as [He|He]; cbn [negb].
    + rewrite decide_False by (by intros ?). done.
    + rewrite decide_True by done. by rewrite fmap_cons, <- app_assoc.
Qed.

Lemma fill_spec vt n rows cols cells :
  ∀ g idx, dims g rows cols → NoDup cells → Forall (in_grid rows cols) cells →
    let st := foldl (fill_at vt n) (g, idx) cells in
    dims st.1 rows cols
    ∧ (∀ j rc, cells !! j = Some rc → idx + j < n →
         cell st.1 rc.1 rc.2 = vt !!! (idx + j))
    ∧ (∀ rc, (∀ j, cells !! j = Some rc → n ≤ idx + j) →
         cell st.1 rc.1 rc.2 = cell g rc.1 rc.2).
Proof.
  induction cells as [|rc0 cells IH]; intros g idx Hd Hnd Hin.
  { cbn. split; [done|]. split; [|done]. intros j rc Hj. by rewrite lookup_nil in Hj. }
  apply NoDup_cons in Hnd as [Hfresh Hnd].
  apply Forall_cons in Hin as [[Hr0 Hc0] Hin].
  cbv zeta. cbn [foldl]. unfold fill_at at 2 4 6. cbn [fst snd].
  destruct (Nat.ltb_spec idx n) as [Hlt|Hge].
  - specialize (IH (put g rc0.1 rc0.2 (vt !!! idx)) (S idx)
                  (dims_put _ _ _ _ _ _ Hd) Hnd Hin).
    cbn zeta in IH. destruct IH as (Hd' & Hw & Hk).
    split; [done|]. split.
    + intros [|j] rc Hj Hlt'.
      * cbn in Hj. injection Hj as <-. rewrite Hk.
        -- rewrite Nat.add_0_r. by eapply cell_put_eq.
        -- intros j Hj. exfalso. apply Hfresh. by eapply list_elem_of_lookup_2.
      * cbn in Hj. rewrite (Hw j rc Hj) by lia. f_equal. lia.
    + intros rc Hrc. rewrite Hk.
      * apply cell_put_ne. intros Heq.
        assert (rc = rc0) as -> by (by destruct rc, rc0; simplify_eq/=).
        specialize (Hrc 0 eq_refl). lia.
      * intros j Hj. specialize (Hrc (S j) Hj). lia.
  - specialize (IH g idx Hd Hnd Hin). cbn zeta in IH.
    destruct IH as (Hd' & Hw & Hk).
    split; [done|]. split.
    + intros j rc _ ?. lia.
    + intros rc _. apply Hk. intros; lia.
Qed.

(** *** The orders of visit *)

Lemma row_major_S rows cols :
  row_major (S rows) cols = row_major rows cols ++ ((fun c => (rows, c)) <$> seq 0 cols).
Proof.
  unfold row_major. rewrite seq_S, bind_app. cbn. by rewrite app_nil_r.
Qed.

Lemma code_row_major rows cols :
  code cols <$> row_major rows cols = seq 0 (rows * cols).
Proof.
  induction rows as [|rows IH]; [done|].
  rewrite row_major_S, fmap_app, IH, <- list_fmap_compose.
  replace (S rows * cols) with (rows * cols + cols) by lia.
  rewrite seq_app. f_equal.
  transitivity (Nat.add (rows * cols) <$> seq 0 cols).
  - apply list_fmap_ext. intros _ c _. unfold code. done.
  - rewrite fmap_add_seq. f_equal. lia.
Qed.

Lemma elem_of_row_major rows cols rc :
  rc ∈ row_major rows cols ↔ in_grid rows cols rc.
Proof.
  unfold row_major, in_grid. rewrite list_elem_of_bind. split.
  - intros (r & Hc & Hr). apply list_elem_of_fmap in Hc as (c & -> & Hc).
    apply elem_of_seq in Hr, Hc. cbn. lia.
  - intros [Hr Hc]. exists rc.1. split; [|apply elem_of_seq; lia].
    apply list_elem_of_fmap. exists rc.2. split; [by destruct rc|apply elem_of_seq; lia].
Qed.

Lemma elem_of_col_major rows cols rc :
  rc ∈ col_major rows cols ↔ in_grid rows cols rc.
Proof.
  unfold col_major, in_grid. rewrite list_elem_of_bind. split.
  - intros (c & Hr & Hc). apply list_elem_of_fmap in Hr as (r & -> & Hr).
    rewrite elem_of_reverse in Hc. apply elem_of_seq in Hr, Hc. cbn. lia.
  - intros [Hr Hc]. exists rc.2. split; [|apply elem_of_reverse, elem_of_seq; lia].
    apply list_elem_of_fmap. exists rc.1. split; [by destruct rc|apply elem_of_seq; lia].
Qed.

Lemma NoDup_row_major rows cols : NoDup (row_major rows cols).
Proof.
  apply (NoDup_fmap_1 (code cols)). rewrite code_row_major. apply NoDup_seq.
Qed.

Lemma NoDup_col_major rows cols : NoDup (col_major rows cols).
Proof.
  unfold col_major. apply NoDup_bind.
  - intros c1 c2 rc _ _ H1 H2.
    apply list_elem_of_fmap in H1 as (r1 & -> & _).
    apply list_elem_of_fmap in H2 as (r2 & [= _ ->] & _). done.
  - intros c _. apply NoDup_fmap_2; [|apply NoDup_seq].
    intros r1 r2 [= ->]. done.
  - rewrite reverse_Permutation. apply NoDup_seq.
Qed.

Lemma col_major_perm rows cols : col_major rows cols ≡ₚ row_major rows cols.
Proof.
  apply NoDup_Permutation; [apply NoDup_col_major|apply NoDup_row_major|].
  intros rc. by rewrite elem_of_col_major, elem_of_row_major.
Qed.

Lemma code_filled_row_major rows cols n :
  n ≤ rows * cols →
  code cols <$> filter (filled cols n) (row_major rows cols) = seq 0 n.
Proof.
  intros Hn. rewrite <- (filter_seq_lt n (rows * cols)) by done.
  by rewrite <- code_row_major, filter_fmap_pre.
Qed.

(** *** Which cells hold a letter *)

Lemma geometry_fits n rows cols fc : geometry n rows cols fc → n ≤ rows * cols.
Proof. intros [? ? ? ->]. nia. Qed.

Lemma filled_depth n rows cols fc r c :
  geometry n rows cols fc → r < rows → c < cols →
  filled cols n (r, c) ↔ r < (if fc <=? c then rows - 1 else rows).
Proof.
  intros [? ? ? ->] Hr Hc. unfold filled, code. cbn.
  destruct (Nat.leb_spec fc c); nia.
Qed.

Lemma depth_major_filled n rows cols fc :
  geometry n rows cols fc →
  depth_major rows cols fc = filter (filled cols n) (col_major rows cols).
Proof.
  intros Hg. unfold depth_major, col_major. rewrite filter_bind_pre.
  apply bind_ext_in. intros c Hc.
  rewrite elem_of_reverse in Hc. apply elem_of_seq in Hc.
  rewrite filter_fmap_pre.
  rewrite <- (filter_seq_lt (if fc <=? c then rows - 1 else rows) rows)
    by (destruct (fc <=? c); lia).
  f_equal. apply filter_ext_in. intros r Hr%elem_of_seq.
  symmetry. apply (filled_depth n rows cols fc r c); [done|lia|lia].
Qed.

Lemma rank_row_major rows cols j rc :
  row_major rows cols !! j = Some rc → code cols rc = j.
Proof.
  intros Hj.
  assert ((code cols <$> row_major rows cols) !! j = Some (code cols rc)) as H
    by (by rewrite list_lookup_fmap, Hj).
  rewrite code_row_major in H. apply lookup_seq in H. lia.
Qed.

(** The grid of [encrypt] after the row-major fill. *)
Lemma encrypt_grid vt rows cols rc :
  length vt ≤ rows * cols → in_grid rows cols rc →
  cell (row_filled vt rows cols) rc.1 rc.2
  = if decide (filled cols (length vt) rc) then vt !!! code cols rc else L_space.
Proof.
  intros Hn Hrc. unfold row_filled.
  destruct (fill_spec vt (length vt) rows cols (row_major rows cols)
              (blank rows cols) 0 (dims_blank _ _) (NoDup_row_major _ _))
    as (_ & Hw & Hk).
  { apply Forall_forall. intros x. by rewrite elem_of_row_major. }
  destruct (list_elem_of_lookup_1 _ _ (proj2 (elem_of_row_major rows cols rc) Hrc))
    as [j Hj].
  pose proof (rank_row_major _ _ _ _ Hj) as Hcode.
  case_decide as Hf; unfold filled in Hf.
  - rewrite (Hw j rc Hj) by lia. by rewrite Hcode.
  - rewrite Hk.
    + destruct Hrc. by apply cell_blank.
    + intros j' Hj'. apply rank_row_major in Hj'. lia.
Qed.

Lemma no_blank_lookup vt k : no_blank vt → k < length vt → vt !!! k ≠ L_space.
Proof.
  intros Hnb Hk. destruct (lookup_lt_is_Some_2 vt k Hk) as [x Hx].
  rewrite (list_lookup_total_correct _ _ _ Hx).
  by apply (Forall_lookup_1 _ _ _ _ Hnb Hx).
Qed.

Lemma encrypt_core vt rows cols :
  no_blank vt → length vt ≤ rows * cols →
  sweep (row_filled vt rows cols) (col_major rows cols)
  = (fun rc => vt !!! code cols rc)
      <$> filter (filled cols (length vt)) (col_major rows cols).
Proof.
  intros Hnb Hn. unfold sweep. rewrite read_spec. cbn [app].
  rewrite (filter_ext_in _ (filled cols (length vt))).
  - apply list_fmap_ext. intros _ rc Hrc%list_elem_of_lookup_2.
    apply list_elem_of_filter in Hrc as [Hf Hrc%elem_of_col_major].
    rewrite encrypt_grid by done. by rewrite decide_True.
  - intros rc Hrc%elem_of_col_major. unfold inked.
    rewrite encrypt_grid by done. case_decide as Hf.
    + split; [done|]. intros _. by apply no_blank_lookup.
    + split; [done|]. intros ?. done.
Qed.

Lemma length_filled_col_major rows cols n :
  n ≤ rows * cols → length (filter (filled cols n) (col_major rows cols)) = n.
Proof.
  intros Hn. rewrite col_major_perm.
  rewrite <- (length_fmap (code cols)), code_filled_row_major by done.
  apply length_seq.
Qed.

(** The grid of [decrypt] after the column-wise fill. *)
Lemma decrypt_grid ct rows cols fc :
  geometry (length ct) rows cols fc →
  let D := col_filled ct rows cols fc in
  (∀ j rc, filter (filled cols (length ct)) (col_major rows cols) !! j = Some rc →
     cell D rc.1 rc.2 = ct !!! j)
  ∧ (∀ rc, in_grid rows cols rc → ¬ filled cols (length ct) rc →
       cell D rc.1 rc.2 = L_space).
Proof.
  intros Hg. cbv zeta. unfold col_filled. rewrite (depth_major_filled _ _ _ _ Hg).
  pose proof (geometry_fits _ _ _ _ Hg) as Hn.
  destruct (fill_spec ct (length ct) rows cols
              (filter (filled cols (length ct)) (col_major rows cols))
              (blank rows cols) 0 (dims_blank _ _)) as (_ & Hw & Hk).
  { apply NoDup_filter, NoDup_col_major. }
  { apply Forall_forall. intros x [_ Hx]%list_elem_of_filter.
    by apply elem_of_col_major. }
  split.
  - intros j rc Hj. rewrite (Hw j rc Hj); [done|].
    apply lookup_lt_Some in Hj. rewrite length_filled_col_major in Hj by done. lia.
  - intros rc [Hr Hc] Hnf. rewrite Hk; [by apply cell_blank|].
    intros j Hj%list_elem_of_lookup_2. by apply list_elem_of_filter in Hj as [? _].
Qed.

Lemma decrypt_core ct rows cols fc :
  no_blank ct → geometry (length ct) rows cols fc →
  let D := col_filled ct rows cols fc in
  sweep D (row_major rows cols)
  = (fun rc => cell D rc.1 rc.2)
      <$> filter (filled cols (length ct)) (row_major rows cols).
Proof.
  intros Hnb Hg. cbv zeta. destruct (decrypt_grid ct rows cols fc Hg) as [Hw Hk].
  pose proof (geometry_fits _ _ _ _ Hg) as Hn.
  unfold sweep. rewrite read_spec. cbn [app]. f_equal.
  apply filter_ext_in. intros rc Hrc. unfold inked. split.
  - intros Hink. destruct (decide (filled cols (length ct) rc)) as [|Hnf]; [done|].
    exfalso. apply Hink, Hk; [by apply elem_of_row_major|done].
  - intros Hf.
    assert (rc ∈ filter (filled cols (length ct)) (col_major rows cols)) as Hin.
    { apply list_elem_of_filter. split; [done|]. by rewrite col_major_perm. }
    apply list_elem_of_lookup_1 in Hin as [j Hj]. rewrite (Hw j rc Hj).
    apply no_blank_lookup; [done|]. apply lookup_lt_Some in Hj.
    by rewrite length_filled_col_major in Hj.
Qed.

Lemma decrypt_column_order ct rows cols fc :
  geometry (length ct) rows cols fc →
  let D := col_filled ct rows cols fc in
  (fun rc => cell D rc.1 rc.2)
    <$> filter (filled cols (length ct)) (col_major rows cols) = ct.
Proof.
  intros Hg. cbv zeta. destruct (decrypt_grid ct rows cols fc Hg) as [Hw _].
  pose proof (geometry_fits _ _ _ _ Hg) as Hn.
  apply list_eq. intros j. rewrite list_lookup_fmap.
  destruct (filter _ _ !! j) as [rc|] eqn:Hj; cbn.
  - rewrite (Hw j rc Hj). symmetry. apply list_lookup_lookup_total_lt.
    apply lookup_lt_Some in Hj. by rewrite length_filled_col_major in Hj.
  - symmetry. apply lookup_ge_None. apply lookup_ge_None in Hj.
    by rewrite length_filled_col_major in Hj.
Qed.

Lemma roundtrip_core vt rows cols fc :
  no_blank vt → geometry (length vt) rows cols fc →
  let ct := (fun rc => vt !!! code cols rc)
              <$> filter (filled cols (length vt)) (col_major rows cols) in
  length ct = length vt
  ∧ sweep (col_filled ct rows cols fc) (row_major rows cols) = vt.
Proof.
  intros Hnb Hg. cbv zeta.
  pose proof (geometry_fits _ _ _ _ Hg) as Hn.
  set (F := filter (filled cols (length vt)) (col_major rows cols)).
  set (ct := (fun rc => vt !!! code cols rc) <$> F).
  assert (length ct = length vt) as Hlen.
  { unfold ct, F. by rewrite length_fmap, length_filled_col_major. }
  split; [done|].
  assert (no_blank ct) as Hnb'.
  { unfold ct, no_blank. apply Forall_fmap, Forall_forall.
    intros rc [Hf _]%list_elem_of_filter. cbn. by apply no_blank_lookup. }
  assert (geometry (length ct) rows cols fc) as Hg' by (by rewrite Hlen).
  rewrite (decrypt_core ct rows cols fc Hnb' Hg').
  destruct (decrypt_grid ct rows cols fc Hg') as [Hw _].
  rewrite Hlen in *.
  transitivity ((fun rc => vt !!! code cols rc)
                  <$> filter (filled cols (length vt)) (row_major rows cols)).
  - apply list_fmap_ext. intros _ rc Hrc%list_elem_of_lookup_2.
    assert (rc ∈ F) as [j Hj]%list_elem_of_lookup_1.
    { unfold F. by rewrite col_major_perm. }
    rewrite (Hw j rc Hj). apply list_lookup_total_correct.
    unfold ct. by rewrite list_lookup_fmap, Hj.
  - etrans; [apply (list_fmap_compose (code cols) (fun k => vt !!! k))|].
    rewrite code_filled_row_major by done. apply lookup_total_seq_fmap.
Qed.


(** *** The arithmetic of the engine *)

Lemma geometry_ceil n cols :
  0 < n → 0 < cols → geometry n (ceil_div n cols) cols (last_row n cols).
Proof.
  intros Hn Hc. unfold ceil_div, last_row.
  pose proof (Nat.div_mod n cols ltac:(lia)) as E1.
  pose proof (Nat.mod_upper_bound n cols ltac:(lia)) as B1.
  set (q := n / cols) in *. set (m := n mod cols) in *.
  destruct (Nat.eqb_spec m 0) as [Hm|Hm].
  - rewrite <- (Nat.div_unique (n + cols - 1) cols q (cols - 1)) by lia.
    destruct q as [|q]; [lia|].
    split; [lia|lia|lia|]. replace (S q - 1) with q by lia. lia.
  - rewrite <- (Nat.div_unique (n + cols - 1) cols (S q) (m - 1)) by lia.
    split; [lia|lia|lia|]. replace (S q - 1) with q by lia. lia.
Qed.

Local Open Scope Z_scope.

Lemma rows_of_int (n : nat) (k : Z) :
  0 < k → Z.of_nat n + k - 1 <= INT_MAX →
  Z.to_nat (Z.quot (to_int (to_int (Z.of_nat n) + k - 1)) k) = ceil_div n (Z.to_nat k).
Proof.
  intros Hk Hfit. unfold INT_MAX in Hfit.
  rewrite (to_int_small (Z.of_nat n)) by (unfold INT_MAX; lia).
  rewrite to_int_small by (unfold INT_MAX; lia).
  rewrite Z.quot_div_nonneg by lia. unfold ceil_div.
  apply Nat2Z.inj. rewrite Nat2Z.inj_div, Z2Nat.id.
  - f_equal; lia.
  - apply Z.div_pos; lia.
Qed.

Lemma last_row_of_int (n : nat) (k : Z) :
  0 < k → Z.of_nat n <= INT_MAX →
  Z.to_nat (let fullCols := Z.rem (to_int (Z.of_nat n)) k in
            if fullCols =? 0 then k else fullCols)
  = last_row n (Z.to_nat k).
Proof.
  intros Hk Hfit. cbv zeta. unfold INT_MAX in Hfit.
  rewrite !to_int_small by (unfold INT_MAX; lia).
  rewrite Z.rem_mod_nonneg by lia. unfold last_row.
  assert (Z.of_nat (n mod Z.to_nat k) = Z.of_nat n mod k) as E.
  { rewrite Nat2Z.inj_mod. f_equal. lia. }
  destruct (Z.eqb_spec (Z.of_nat n mod k) 0) as [H0|H0];
    destruct (Nat.eqb_spec (n mod Z.to_nat k) 0) as [H1|H1]; lia.
Qed.

Local Open Scope nat_scope.

(** *** Validation *)

Lemma upper_of_lower pos c :
  lower !! pos = Some c → char_at upper pos = Ret (fold_upper c).
Proof.
  intros H. unfold lower, lower_letters in H.
  repeat (destruct pos as [|pos]; [by injection H as <-|]). done.
Qed.

Lemma table_openLetters_normalize s : openLetters s = Ret (normalize s).
Proof.
  induction s as [|c s IH]; [done|]. rewrite normalize_cons. cbn [openLetters].
  destruct (find upper c) as [i|] eqn:Hu.
  - assert (c ∈ upper_letters) as Hc by (apply find_is_Some; by exists i).
    rewrite (proj2 (is_letter_true c)) by (by left).
    by rewrite fold_upper_capital, IH.
  - apply find_None in Hu. destruct (find lower c) as [pos|] eqn:Hl.
    + apply find_Some in Hl.
      rewrite (proj2 (is_letter_true c)) by (right; by eapply list_elem_of_lookup_2).
      by rewrite (upper_of_lower _ _ Hl), IH.
    + apply find_None in Hl. destruct (is_letter c) eqn:E; [|done].
      apply is_letter_true in E as [?|?]; done.
Qed.

Lemma capitals_no_blank s : Forall (fun c => c ∈ upper_letters) s → no_blank s.
Proof.
  intros H. eapply Forall_impl; [exact H|]. intros c Hc ->.
  assert (L_space ∉ upper_letters) as Hn
    by (apply (bool_decide_eq_false (L_space ∈ upper_letters)); by vm_compute).
  done.
Qed.

Lemma table_getValidOpenText_spec s :
  getValidOpenText s
  = if decide (normalize s = []) then Throw empty_text else Ret (normalize s).
Proof.
  unfold getValidOpenText. rewrite table_openLetters_normalize.
  cbn [mbind outcome_bind]. by destruct (normalize s).
Qed.

Lemma table_getValidCipherText_ok s :
  s ≠ [] → Forall (fun c => c ∈ upper_letters) s → getValidCipherText s = Ret s.
Proof.
  intros Hne Hall. destruct s as [|c s]; [done|]. unfold getValidCipherText.
  rewrite (proj2 (forallb_forall _ _)); [done|].
  intros x Hx%list_elem_of_In. apply bool_decide_eq_true, find_is_Some.
  by apply (proj1 (Forall_forall _ _) Hall).
Qed.

Lemma table_getValidCipherText_bad s c :
  c ∈ s → c ∉ upper_letters → getValidCipherText s = Throw invalid_cipher_text.
Proof.
  intros Hin Hc. destruct s as [|x s]; [by apply elem_of_nil in Hin|].
  unfold getValidCipherText.
  destruct (forallb _ (x :: s)) eqn:E; [|done].
  rewrite forallb_forall in E. specialize (E c (proj1 (list_elem_of_In _ _) Hin)).
  apply bool_decide_eq_true, find_is_Some in E. done.
Qed.

Lemma table_new_spec k : (1 <= k <= 100)%Z → new k = Ret {| cols := k |}.
Proof.
  intros Hk. unfold new, getValidKey.
  destruct (Z.leb_spec k 0); [lia|]. destruct (Z.ltb_spec k 0); [lia|].
  destruct (Z.gtb_spec k 100); [lia|]. done.
Qed.

Lemma table_new_inv k T : new k = Ret T → (1 <= k <= 100)%Z ∧ cols T = k.
Proof.
  unfold new, getValidKey.
  destruct (Z.leb_spec k 0); [done|]. destruct (Z.ltb_spec k 0); [done|].
  destruct (Z.gtb_spec k 100); [done|]. cbn. intros [= <-]. cbn. lia.
Qed.

(** *** [encrypt] and [decrypt] in closed form *)

Lemma table_encrypt_closed T plain :
  (0 < cols T)%Z → normalize plain ≠ [] →
  fits_int (length (normalize plain)) (cols T) →
  let vt := normalize plain in
  let k := Z.to_nat (cols T) in
  encrypt T plain
  = Ret ((fun rc => vt !!! code k rc)
           <$> filter (filled k (length vt)) (col_major (ceil_div (length vt) k) k)).
Proof.
  intros Hk Hne Hfit. cbv zeta. unfold encrypt.
  rewrite table_getValidOpenText_spec, decide_False by done. cbn [mbind outcome_bind].
  unfold fits_int, INT_MAX in Hfit.
  assert (0 < length (normalize plain)) as Hlen
    by (destruct (normalize plain); [done|cbn; lia]).
  rewrite rows_of_int by done.
  rewrite (to_int_small (Z.of_nat _)) by (unfold INT_MAX; lia).
  rewrite (proj2 (Z.eqb_neq _ 0)) by lia. rewrite Nat2Z.id.
  pose proof (geometry_ceil (length (normalize plain)) (Z.to_nat (cols T))
                Hlen ltac:(lia)) as Hg.
  rewrite fill_rows_run by (done || apply dims_blank).
  cbn [mbind outcome_bind]. fold (row_filled (normalize plain)
    (ceil_div (length (normalize plain)) (Z.to_nat (cols T))) (Z.to_nat (cols T))).
  rewrite read_cols_run
    by (apply dims_fill; [done|apply dims_blank|apply row_major_in_grid]).
  f_equal. apply encrypt_core.
  - apply capitals_no_blank, normalize_capitals.
  - by eapply geometry_fits.
Qed.

Lemma table_decrypt_closed T ct :
  (0 < cols T)%Z → ct ≠ [] → Forall (fun c => c ∈ upper_letters) ct →
  fits_int (length ct) (cols T) →
  let k := Z.to_nat (cols T) in
  let rows := ceil_div (length ct) k in
  decrypt T ct
  = Ret (sweep (col_filled ct rows k (last_row (length ct) k)) (row_major rows k)).
Proof.
  intros Hk Hne Hall Hfit. cbv zeta. unfold decrypt.
  rewrite table_getValidCipherText_ok by done. cbn [mbind outcome_bind].
  unfold fits_int, INT_MAX in Hfit.
  assert (0 < length ct) as Hlen by (destruct ct; [done|cbn; lia]).
  rewrite rows_of_int by done.
  pose proof (last_row_of_int (length ct) (cols T) Hk) as Hfc. cbv zeta in Hfc.
  rewrite Hfc by (unfold INT_MAX; lia).
  rewrite (to_int_small (Z.of_nat _)) by (unfold INT_MAX; lia).
  rewrite (proj2 (Z.eqb_neq _ 0)) by lia. rewrite Nat2Z.id.
  rewrite fill_cols_run by (done || apply dims_blank).
  cbn [mbind outcome_bind]. fold (col_filled ct
    (ceil_div (length ct) (Z.to_nat (cols T))) (Z.to_nat (cols T))
    (last_row (length ct) (Z.to_nat (cols T)))).
  apply read_rows_run.
  apply dims_fill; [done|apply dims_blank|apply depth_major_in_grid].
Qed.

(** The loops of the engine raise nothing. *)
Lemma fill_cell_no_throw vt n st r c e : fill_cell vt n st r c ≠ Throw e.
Proof.
  unfold fill_cell, char_at, store. destruct st as [g idx].
  destruct (idx <? n); [|done]. destruct (vt !! idx); [|done].
  cbn [mbind outcome_bind]. destruct (g !! r) as [x|]; [|done].
  by destruct (c <? length x).
Qed.

Lemma read_cell_no_throw g res r c e : read_cell g res r c ≠ Throw e.
Proof.
  unfold read_cell, load. destruct (g !! r) as [x|]; [|done].
  destruct (x !! c) as [v|]; [|done]. cbn [mbind outcome_bind].
  by destruct (negb _).
Qed.

Lemma table_encrypt_throws T plain e :
  encrypt T plain = Throw e ↔ e = empty_text ∧ normalize plain = [].
Proof.
  unfold encrypt. rewrite table_getValidOpenText_spec.
  case_decide as Hn; cbn [mbind outcome_bind].
  { split; [by intros [= <-]|by intros [-> _]]. }
  split; [|by intros [_ ?]]. destruct (to_int _ =? 0)%Z; [done|].
  destruct (fill_rows _ _ _ _ _) as [st| |] eqn:E; cbn [mbind outcome_bind].
  - intros H. exfalso. revert H. unfold read_cols.
    apply for_each_no_throw. intros res col e'.
    apply for_each_no_throw. intros. apply read_cell_no_throw.
  - exfalso. revert E. unfold fill_rows.
    apply for_each_no_throw. intros st row e'.
    apply for_each_no_throw. intros. apply fill_cell_no_throw.
  - done.
Qed.

Lemma geometry_table T (len : nat) :
  (0 < cols T)%Z → 0 < len →
  geometry len (ceil_div len (Z.to_nat (cols T))) (Z.to_nat (cols T))
    (last_row len (Z.to_nat (cols T))).
Proof. intros. apply geometry_ceil; lia. Qed.

Lemma route_capitals (vt : list Z) (k : nat) (cells : list (nat * nat)) :
  Forall (fun c => c ∈ upper_letters) vt →
  Forall (fun c => c ∈ upper_letters)
    ((fun rc => vt !!! code k rc) <$> filter (filled k (length vt)) cells).
Proof.
  intros Hall. apply Forall_fmap, Forall_forall.
  intros rc [Hf _]%list_elem_of_filter. cbn.
  destruct (lookup_lt_is_Some_2 vt (code k rc) Hf) as [x Hx].
  rewrite (list_lookup_total_correct _ _ _ Hx).
  by apply (Forall_lookup_1 _ _ _ _ Hall Hx).
Qed.

Lemma table_round_trip_closed T plain :
  (0 < cols T)%Z → normalize plain ≠ [] →
  fits_int (length (normalize plain)) (cols T) →
  encrypt T plain ≫= decrypt T = Ret (normalize plain).
Proof.
  intros Hk Hne Hfit.
  rewrite (table_encrypt_closed T plain Hk Hne Hfit). cbn [mbind outcome_bind].
  pose proof (length_pos _ Hne) as Hlen.
  pose proof (geometry_table T _ Hk Hlen) as Hg.
  pose proof (capitals_no_blank _ (normalize_capitals plain)) as Hnb.
  destruct (roundtrip_core _ _ _ _ Hnb Hg) as [Hl Hrt].
  rewrite table_decrypt_closed.
  - rewrite Hl in *. by rewrite Hrt.
  - done.
  - intros E. rewrite E in Hl. cbn in Hl. lia.
  - apply route_capitals, normalize_capitals.
  - by rewrite Hl.
Qed.

(** *** Permutations *)

Lemma table_encrypt_perm T plain :
  (0 < cols T)%Z → normalize plain ≠ [] →
  fits_int (length (normalize plain)) (cols T) →
  ∃ c, encrypt T plain = Ret c ∧ c ≡ₚ normalize plain.
Proof.
  intros Hk Hne Hfit. eexists. split; [by apply table_encrypt_closed|].
  pose proof (length_pos _ Hne) as Hlen.
  pose proof (geometry_fits _ _ _ _ (geometry_table T _ Hk Hlen)) as Hn.
  rewrite col_major_perm.
  pose proof (list_fmap_compose (code (Z.to_nat (cols T)))
                (fun i => normalize plain !!! i)
                (filter (filled (Z.to_nat (cols T)) (length (normalize plain)))
                   (row_major (ceil_div (length (normalize plain))
                                 (Z.to_nat (cols T))) (Z.to_nat (cols T))))) as E.
  cbn [compose] in E. unfold compose in E. rewrite E.
  rewrite code_filled_row_major by done. by rewrite lookup_total_seq_fmap.
Qed.

Lemma table_decrypt_perm T ct :
  (0 < cols T)%Z → ct ≠ [] → Forall (fun c => c ∈ upper_letters) ct →
  fits_int (length ct) (cols T) →
  ∃ p, decrypt T ct = Ret p ∧ p ≡ₚ ct.
Proof.
  intros Hk Hne Hall Hfit. eexists. split; [by apply table_decrypt_closed|].
  pose proof (length_pos _ Hne) as Hlen.
  pose proof (geometry_table T _ Hk Hlen) as Hg.
  rewrite (decrypt_core ct _ _ _ (capitals_no_blank _ Hall) Hg).
  rewrite <- col_major_perm.
  by rewrite (decrypt_column_order ct _ _ _ Hg).
Qed.

(** *** The route of the specification *)

Lemma column_route_cells cols (txt : list Z) :
  column_route cols txt
  = (fun rc => txt !!! code cols rc)
      <$> filter (filled cols (length txt)) (col_major (ceil_div (length txt) cols) cols).
Proof.
  unfold column_route, col_major. cbv zeta.
  rewrite filter_bind_pre, fmap_bind_comm. apply bind_ext_in. intros c _.
  induction (seq 0 (ceil_div (length txt) cols)) as [|r l IH]; [done|].
  rewrite bind_cons, IH, (fmap_cons (fun r => (r, c))), filter_cons.
  destruct (decide (filled cols (length txt) (r, c))) as [Hf|Hf];
    unfold filled, code in Hf; cbn [fst snd] in Hf.
  - by rewrite decide_True.
  - by rewrite decide_False.
Qed.

Lemma ceil_div_one n : ceil_div n 1 = n.
Proof. unfold ceil_div. rewrite Nat.div_1_r. lia. Qed.

Lemma ceil_div_wide n cols : 0 < n → n ≤ cols → ceil_div n cols = 1.
Proof.
  intros Hn Hc. unfold ceil_div. symmetry.
  apply (Nat.div_unique _ _ _ (n - 1)); lia.
Qed.

Lemma column_route_one (txt : list Z) : column_route 1 txt = txt.
Proof.
  unfold column_route. cbv zeta. rewrite ceil_div_one.
  change (reverse (seq 0 1)) with [0]. rewrite bind_cons. cbn [mbind list_bind].
  rewrite app_nil_r.
  rewrite (bind_guard (fun r => r * 1 + 0 < length txt) (fun r => txt !!! (r * 1 + 0))).
  rewrite filter_all by (intros r Hr%elem_of_seq; lia).
  etrans; [|apply (lookup_total_seq_fmap txt)].
  apply list_fmap_ext. intros _ r _. f_equal. lia.
Qed.

Lemma column_route_wide cols (txt : list Z) :
  0 < length txt → length txt ≤ cols → column_route cols txt = reverse txt.
Proof.
  intros Hn Hc. unfold column_route. cbv zeta. rewrite ceil_div_wide by done.
  change (seq 0 1) with [0].
  erewrite bind_ext_in.
  2:{ intros c _. rewrite bind_cons. cbn [mbind list_bind]. rewrite app_nil_r.
      change (0 * cols + c) with c. reflexivity. }
  rewrite (bind_guard (fun c => c < length txt) (fun c => txt !!! c)).
  rewrite filter_reverse, filter_seq_lt by done.
  by rewrite fmap_reverse, lookup_total_seq_fmap.
Qed.

Lemma col_major_one rows : col_major rows 1 = row_major rows 1.
Proof.
  unfold col_major, row_major. change (reverse (seq 0 1)) with [0].
  rewrite bind_cons. cbn [mbind list_bind]. rewrite app_nil_r.
  induction (seq 0 rows) as [|r l IH]; [done|].
  by rewrite fmap_cons, bind_cons, IH.
Qed.

Lemma table_decrypt_one T ct :
  cols T = 1%Z → ct ≠ [] → Forall (fun c => c ∈ upper_letters) ct →
  fits_int (length ct) 1 → decrypt T ct = Ret ct.
Proof.
  intros HT Hne Hall Hfit.
  assert (0 < cols T)%Z as Hk by lia.
  rewrite table_decrypt_closed by (by rewrite ?HT).
  pose proof (geometry_table T _ Hk (length_pos _ Hne)) as Hg.
  rewrite (decrypt_core ct _ _ _ (capitals_no_blank _ Hall) Hg).
  rewrite HT in *. change (Z.to_nat 1) with 1 in *. rewrite <- col_major_one.
  f_equal. apply (decrypt_column_order ct _ _ _ Hg).
Qed.


End TableFacts.

(** ** The shift engine *)

Module ShiftFacts.
Import modAlphaCipher.
#[local] Opaque fillAlphaNum.

(** *** The map [alphaNum] and the positions of the alphabet *)

Lemma alphaNum_entries :
  Forall (fun ci => ci.1 ∈ upper_letters ∧ ci.2 = alphabet_index ci.1)
         (map_to_list fillAlphaNum).
Proof.
  apply Forall_forall. intros ci Hci.
  assert (forallb (fun ci => is_upper_letter ci.1 && (ci.2 =? alphabet_index ci.1))
            (map_to_list fillAlphaNum) = true) as H by (by vm_compute).
  rewrite forallb_forall in H. specialize (H ci (proj1 (list_elem_of_In _ _) Hci)).
  apply andb_true_iff in H as [H1 H2].
  split; [by apply bool_decide_eq_true in H1|lia].
Qed.

Lemma alphaNum_capitals :
  Forall (fun c => fillAlphaNum !! c = Some (alphabet_index c)) upper_letters.
Proof.
  apply Forall_forall. intros c Hc.
  assert (forallb (fun c => bool_decide (fillAlphaNum !! c = Some (alphabet_index c)))
            upper_letters = true) as H by (by vm_compute).
  rewrite forallb_forall in H. eapply bool_decide_eq_true, H. by apply list_elem_of_In.
Qed.

Lemma alphaNum_lookup c :
  fillAlphaNum !! c
  = if is_upper_letter c then Some (alphabet_index c) else None.
Proof.
  unfold is_upper_letter. case_bool_decide as Hc.
  - by apply (proj1 (Forall_forall _ _) alphaNum_capitals).
  - destruct (fillAlphaNum !! c) as [i|] eqn:E; [|done].
    apply elem_of_map_to_list in E.
    destruct (proj1 (Forall_forall _ _) alphaNum_entries _ E) as [H _]. done.
Qed.

Lemma alphabet_index_range c : c ∈ upper_letters → 0 <= alphabet_index c < 33.
Proof.
  intros Hc.
  assert (forallb (fun c => in_range 0 32 (alphabet_index c)) upper_letters = true) as H
    by (by vm_compute).
  rewrite forallb_forall in H. specialize (H c (proj1 (list_elem_of_In _ _) Hc)).
  unfold in_range in H. lia.
Qed.

Lemma letter_at_index c : c ∈ upper_letters → letter_at (alphabet_index c) = c.
Proof.
  intros Hc.
  assert (forallb (fun c => letter_at (alphabet_index c) =? c) upper_letters = true) as H
    by (by vm_compute).
  rewrite forallb_forall in H. apply Z.eqb_eq, H. by apply list_elem_of_In.
Qed.

Lemma lookup_letter_at p :
  0 <= p < 33 → upper_letters !! Z.to_nat p = Some (letter_at p).
Proof.
  intros Hp. unfold letter_at.
  destruct (lookup_lt_is_Some_2 upper_letters (Z.to_nat p)) as [x ->]; [|done].
  cbn. lia.
Qed.

Lemma letter_at_capital p : 0 <= p < 33 → letter_at p ∈ upper_letters.
Proof. intros Hp. eapply list_elem_of_lookup_2, lookup_letter_at, Hp. Qed.

Lemma index_letter_at p : 0 <= p < 33 → alphabet_index (letter_at p) = p.
Proof.
  intros Hp.
  assert (forallb (fun n => alphabet_index (letter_at (Z.of_nat n)) =? Z.of_nat n)
            (seq 0 33) = true) as H by (by vm_compute).
  rewrite forallb_forall in H. specialize (H (Z.to_nat p)).
  rewrite Z2Nat.id in H by lia. apply Z.eqb_eq, H, list_elem_of_In, elem_of_seq. lia.
Qed.

(** *** Upper-casing *)

Section Laws.
Context (L : Locale).

Lemma toUpper_small c : c ∈ lower_letters → toUpper L c = fold_upper c.
Proof.
  intros Hc%small_range. unfold toUpper, fold_upper, in_range in *.
  destruct Hc as [-> | ->]; done.
Qed.

Lemma toUpper_other c : c ∉ lower_letters → toUpper L c = towupper L c.
Proof.
  intros Hc. unfold toUpper. 
  destruct ((L_a <=? c) && (c <=? L_ya)) eqn:E1.
  { exfalso. apply Hc, small_range. by left. }
  destruct (Z.eqb_spec c L_yo) as [->|]; [|done].
  exfalso. apply Hc, small_range. by right.
Qed.

Lemma capital_not_in_lower c : c ∈ upper_letters → c ∉ lower_letters.
Proof.
  intros Hc [H| ->]%small_range.
  - by rewrite (proj1 (capital_not_small c Hc)) in H.
  - by destruct (capital_not_small _ Hc) as [_ ?].
Qed.

Lemma toUpper_capital c :
  capitals_fixed L → c ∈ upper_letters → toUpper L c = c.
Proof.
  intros HL Hc. rewrite toUpper_other by (by apply capital_not_in_lower). by apply HL.
Qed.

Lemma toUpper_kept_letter c :
  capitals_fixed L → is_letter c = true → toUpper L (kept L c) = fold_upper c.
Proof.
  intros HL [Hc|Hc]%is_letter_true; unfold kept.
  - rewrite (toUpper_capital c HL Hc), Tauto.if_same.
    rewrite toUpper_capital by done. symmetry.
    unfold fold_upper. by destruct (capital_not_small c Hc) as [-> ->].
  - destruct (iswlower L c); [|by apply toUpper_small].
    rewrite (toUpper_small c Hc). apply toUpper_capital; [done|].
    clear -Hc.
    assert (forallb (fun c => is_upper_letter (fold_upper c)) lower_letters = true) as H
      by (by vm_compute).
    rewrite forallb_forall in H. eapply bool_decide_eq_true, H. by apply list_elem_of_In.
Qed.

Lemma toUpper_kept_foreign c :
  foreign_kept_foreign L → is_letter c = false →
  toUpper L (kept L c) ∉ upper_letters.
Proof.
  intros HL Hc. pose proof (HL c Hc) as Hup.
  apply is_letter_false in Hc as [Hc1 Hc2]. unfold kept.
  pose proof Hup as [Hu1 Hu2]%is_letter_false.
  destruct (iswlower L c); rewrite ?(toUpper_other c Hc2); [|done].
  rewrite (toUpper_other _ Hu2).
  exact (proj1 (proj1 (is_letter_false _) (HL _ Hup))).
Qed.
End Laws.

(** *** The two conversions *)

Section Engine.
Context (L : Locale).

Lemma convert_s_cons c s :
  convert_s L fillAlphaNum (c :: s)
  = if is_upper_letter (toUpper L c)
    then alphabet_index (toUpper L c) :: convert_s L fillAlphaNum s
    else convert_s L fillAlphaNum s.
Proof. cbn [convert_s]. rewrite alphaNum_lookup. by destruct (is_upper_letter _). Qed.

(** Every converted index is a position of the alphabet. *)
Lemma convert_s_range s :
  Forall (fun p => 0 <= p < 33) (convert_s L fillAlphaNum s).
Proof.
  induction s as [|c s IH]; [constructor|]. rewrite convert_s_cons.
  unfold is_upper_letter. case_bool_decide as Hc; [|done].
  constructor; [by apply alphabet_index_range|done].
Qed.

Lemma convert_s_capitals s :
  capitals_fixed L → Forall (fun c => c ∈ upper_letters) s →
  convert_s L fillAlphaNum s = alphabet_index <$> s.
Proof.
  intros HL. induction 1 as [|c s Hc _ IH]; [done|].
  rewrite convert_s_cons, (toUpper_capital L c HL Hc), IH.
  unfold is_upper_letter. by rewrite bool_decide_true.
Qed.

Lemma convert_v_range v :
  Forall (fun p => 0 <= p < 33) v → convert_v v = letter_at <$> v.
Proof.
  induction 1 as [|p v Hp _ IH]; [done|]. cbn [convert_v].
  change (to_int (Z.of_nat (length numAlpha))) with 33.
  rewrite (proj2 (andb_true_iff _ _)) by (split; lia).
  unfold numAlpha. by rewrite (lookup_letter_at p Hp), IH.
Qed.

(** On the text kept by [getValidOpenText], [convert] yields the alphabet
    positions of the normalized text. *)
Lemma convert_open_text s :
  capitals_fixed L → foreign_kept_foreign L → letters_alphabetic L →
  convert_s L fillAlphaNum (openLetters L s) = alphabet_index <$> normalize s.
Proof.
  intros H1 H2 H3. induction s as [|c s IH]; [done|].
  rewrite normalize_cons. cbn [openLetters].
  destruct (is_letter c) eqn:Hc.
  - rewrite (H3 c Hc). fold (kept L c).
    rewrite convert_s_cons, (toUpper_kept_letter L c H1 Hc), IH.
    unfold is_upper_letter. rewrite bool_decide_true; [done|].
    by apply fold_upper_letter.
  - destruct (iswalpha L c); [|done]. fold (kept L c).
    rewrite convert_s_cons. unfold is_upper_letter.
    rewrite bool_decide_false; [done|]. by apply toUpper_kept_foreign.
Qed.

Lemma openLetters_nonempty s :
  letters_alphabetic L → normalize s ≠ [] → openLetters L s ≠ [].
Proof.
  intros HL. induction s as [|c s IH]; [done|].
  rewrite normalize_cons. cbn [openLetters].
  destruct (is_letter c) eqn:Hc; [by rewrite (HL c Hc)|].
  intros Hn. destruct (iswalpha L c); [done|by apply IH].
Qed.
End Engine.

(** *** The loops of [encrypt] and [decrypt] *)

Lemma key_at_lookup key i : key ≠ [] → key !! (i mod length key)%nat = Some (key_at key i).
Proof.
  intros Hk. apply list_lookup_lookup_total_lt, Nat.mod_upper_bound.
  by destruct key.
Qed.

Lemma key_at_range key i : key ≠ [] → Forall in_alphabet key → in_alphabet (key_at key i).
Proof.
  intros Hk Hall. eapply Forall_lookup_1; [exact Hall|]. by apply key_at_lookup.
Qed.

Section Loops.
Context (L : Locale) (C : t).
Hypothesis key_nonempty : key C ≠ [].
Hypothesis key_range : Forall in_alphabet (key C).

Lemma key_length : (length (key C) =? 0)%nat = false.
Proof. apply Nat.eqb_neq. by destruct (key C). Qed.

Lemma encrypt_loop w :
  Forall in_alphabet w →
  for_each (encrypt_step C) (seq 0 (length w)) w
  = Ret (imap (fun i p => (p + key_at (key C) i) mod 33) w).
Proof.
  intros Hw.
  rewrite (for_each_update
             (fun i p => to_int (to_size_t (to_int (p + key_at (key C) i))
                                 mod numAlpha_size))).
  - f_equal. apply imap_ext. intros i p Hp.
    pose proof (Forall_lookup_1 _ _ _ _ Hw Hp) as Hr.
    pose proof (key_at_range (key C) i key_nonempty key_range) as Hk.
    unfold in_alphabet in *. change numAlpha_size with 33.
    rewrite (to_int_small (p + _)) by (unfold INT_MAX; lia).
    rewrite to_size_t_small by lia.
    apply to_int_small. unfold INT_MAX.
    pose proof (Z.mod_pos_bound (p + key_at (key C) i) 33). lia.
  - intros w' i x _ Hx. unfold encrypt_step.
    by rewrite key_length, Hx, key_at_lookup.
Qed.

Lemma decrypt_loop w :
  Forall in_alphabet w →
  for_each (decrypt_step C) (seq 0 (length w)) w
  = Ret (imap (fun i p => (p + 33 - key_at (key C) i) mod 33) w).
Proof.
  intros Hw.
  rewrite (for_each_update
             (fun i p => to_int (to_size_t (to_size_t (to_size_t p + numAlpha_size)
                                            - to_size_t (key_at (key C) i))
                                 mod numAlpha_size))).
  - f_equal. apply imap_ext. intros i p Hp.
    pose proof (Forall_lookup_1 _ _ _ _ Hw Hp) as Hr.
    pose proof (key_at_range (key C) i key_nonempty key_range) as Hk.
    unfold in_alphabet in *. change numAlpha_size with 33.
    rewrite (to_size_t_small p), (to_size_t_small (key_at _ _)) by lia.
    rewrite (to_size_t_small (p + 33)) by lia.
    rewrite to_size_t_small by lia.
    apply to_int_small. unfold INT_MAX.
    pose proof (Z.mod_pos_bound (p + 33 - key_at (key C) i) 33). lia.
  - intros w' i x _ Hx. unfold decrypt_step.
    by rewrite key_length, Hx, key_at_lookup.
Qed.
End Loops.

Lemma imap_range (f : nat → Z → Z) w :
  (∀ i p, in_alphabet (f i p)) → Forall in_alphabet (imap f w).
Proof.
  intros Hf. apply Forall_lookup. intros i x Hx.
  rewrite list_lookup_imap in Hx. destruct (w !! i); [|done].
  injection Hx as <-. apply Hf.
Qed.

Lemma mod33_range z : in_alphabet (z mod 33).
Proof. unfold in_alphabet. pose proof (Z.mod_pos_bound z 33). lia. Qed.

(** *** Closed forms and the round trip *)

Section EncryptForm.
Context (L : Locale).

Lemma shift_new_inv skey C :
  new L skey = Ret C →
  ∃ valid, getValidKey L skey = Ret valid
           ∧ alphaNum C = fillAlphaNum
           ∧ key C = convert_s L fillAlphaNum valid.
Proof.
  unfold new. destruct (getValidKey L skey) as [valid| |]; [|done..].
  cbn [mbind outcome_bind mret outcome_ret]. intros [= <-]. by exists valid.
Qed.

Lemma key_in_alphabet skey C : new L skey = Ret C → Forall in_alphabet (key C).
Proof.
  intros (valid & _ & _ & ->)%shift_new_inv. apply convert_s_range.
Qed.

Lemma shift_encrypt_closed skey C text :
  capitals_fixed L → foreign_kept_foreign L → letters_alphabetic L →
  new L skey = Ret C → key C ≠ [] → normalize text ≠ [] →
  encrypt L C text = Ret (shift_text 33 (key C) (normalize text)).
Proof.
  intros H1 H2 H3 Hnew Hkey Hne.
  pose proof (key_in_alphabet _ _ Hnew) as Hrange.
  apply shift_new_inv in Hnew as (valid & _ & Hmap & _).
  unfold encrypt, getValidOpenText.
  pose proof (openLetters_nonempty L text H3 Hne) as Hopen.
  destruct (openLetters L text) as [|c s] eqn:E; [done|]. rewrite <- E.
  cbn [mbind outcome_bind]. rewrite Hmap, (convert_open_text L text H1 H2 H3).
  rewrite (encrypt_loop C Hkey Hrange).
  2:{ apply Forall_fmap, Forall_forall. intros x Hx. cbn.
      apply alphabet_index_range.
      by apply (proj1 (Forall_forall _ _) (normalize_capitals text)). }
  cbn [mbind outcome_bind]. rewrite convert_v_range.
  2:{ apply imap_range. intros. apply mod33_range. }
  f_equal. unfold shift_text. by rewrite fmap_imap, imap_fmap.
Qed.
End EncryptForm.

Section DecryptForm.
Context (L : Locale).

Lemma getValidCipherText_capitals ct :
  capitals_upper L → ct ≠ [] → Forall (fun c => c ∈ upper_letters) ct →
  getValidCipherText L ct = Ret ct.
Proof.
  intros HL Hne Hall. destruct ct as [|c ct]; [done|]. unfold getValidCipherText.
  rewrite (proj2 (forallb_forall _ _)); [done|].
  intros x Hx%list_elem_of_In. apply HL.
  by apply (proj1 (Forall_forall _ _) Hall).
Qed.

Lemma shift_decrypt_closed skey C ct :
  capitals_fixed L → capitals_upper L →
  new L skey = Ret C → key C ≠ [] →
  ct ≠ [] → Forall (fun c => c ∈ upper_letters) ct →
  decrypt L C ct = Ret (unshift_text 33 (key C) ct).
Proof.
  intros H1 H4 Hnew Hkey Hne Hall.
  pose proof (key_in_alphabet _ _ _ Hnew) as Hrange.
  apply shift_new_inv in Hnew as (valid & _ & Hmap & _).
  unfold decrypt. rewrite getValidCipherText_capitals by done.
  cbn [mbind outcome_bind]. rewrite Hmap, (convert_s_capitals L ct H1 Hall).
  rewrite (decrypt_loop C Hkey Hrange).
  2:{ apply Forall_fmap. eapply Forall_impl; [exact Hall|].
      intros c Hc. by apply alphabet_index_range. }
  cbn [mbind outcome_bind]. rewrite convert_v_range.
  2:{ apply imap_range. intros. apply mod33_range. }
  f_equal. unfold unshift_text. by rewrite fmap_imap, imap_fmap.
Qed.

Lemma mod_shift_inv p k :
  0 <= p < 33 → 0 <= k < 33 → ((p + k) mod 33 + 33 - k) mod 33 = p.
Proof.
  intros Hp Hk. destruct (Z.lt_ge_cases (p + k) 33) as [Hlt|Hge].
  - rewrite (Z.mod_small (p + k)) by lia.
    replace (p + k + 33 - k) with (p + 1 * 33) by lia.
    rewrite Z.mod_add by lia. apply Z.mod_small. lia.
  - replace ((p + k) mod 33) with (p + k - 33).
    + replace (p + k - 33 + 33 - k) with p by lia. apply Z.mod_small. lia.
    + apply (Z.mod_unique _ _ 1); lia.
Qed.

Lemma shift_text_capitals key txt :
  Forall (fun c => c ∈ upper_letters) (shift_text 33 key txt).
Proof.
  apply Forall_lookup. intros i x Hx. unfold shift_text in Hx.
  rewrite list_lookup_imap in Hx. destruct (txt !! i); [|done].
  injection Hx as <-. apply letter_at_capital, mod33_range.
Qed.

Lemma unshift_shift key txt :
  key ≠ [] → Forall in_alphabet key → Forall (fun c => c ∈ upper_letters) txt →
  unshift_text 33 key (shift_text 33 key txt) = txt.
Proof.
  intros Hk Hrange Hall. apply list_eq. intros i.
  unfold unshift_text, shift_text. rewrite !list_lookup_imap.
  destruct (txt !! i) as [c|] eqn:Hc; [|done]. cbn. f_equal.
  pose proof (Forall_lookup_1 _ _ _ _ Hall Hc) as Hcap.
  pose proof (alphabet_index_range c Hcap) as Hp.
  pose proof (key_at_range key i Hk Hrange) as Hki. unfold in_alphabet in Hki.
  rewrite index_letter_at by apply mod33_range.
  rewrite <- (letter_at_index c Hcap) at 2. f_equal.
  by apply mod_shift_inv.
Qed.

Lemma shift_round_trip skey C text :
  RussianLocale L → new L skey = Ret C → key C ≠ [] → normalize text ≠ [] →
  encrypt L C text ≫= decrypt L C = Ret (normalize text).
Proof.
  intros [H1 H2 H3 H4] Hnew Hkey Hne.
  rewrite (shift_encrypt_closed L skey C text H1 H2 H3 Hnew Hkey Hne).
  cbn [mbind outcome_bind].
  rewrite (shift_decrypt_closed skey C _ H1 H4 Hnew Hkey).
  - f_equal. apply unshift_shift; [done|by eapply key_in_alphabet|].
    apply normalize_capitals.
  - unfold shift_text. intros E. apply (f_equal length) in E.
    rewrite length_imap in E. by destruct (normalize text).
  - apply shift_text_capitals.
Qed.
End DecryptForm.


(** *** Validation *)

Section Validation.
Context (L : Locale).

Lemma checkKey_kept s v : checkKey L s = Ret v → v = kept L <$> s.
Proof.
  revert v. induction s as [|c s IH]; intros v; cbn [checkKey].
  - by intros [= <-].
  - destruct (iswalpha L c); cbn [negb]; [|done].
    destruct (checkKey L s) as [v'| |]; cbn [mbind outcome_bind]; [|done..].
    intros [= <-]. by rewrite (IH v' eq_refl).
Qed.

Lemma getValidKey_kept s v : getValidKey L s = Ret v → s ≠ [] ∧ v = kept L <$> s.
Proof.
  destruct s as [|c s]; [done|]. unfold getValidKey. intros H%checkKey_kept. done.
Qed.

Lemma convert_kept_nonempty s :
  capitals_fixed L → Exists (fun c => is_letter c = true) s →
  convert_s L fillAlphaNum (kept L <$> s) ≠ [].
Proof.
  intros HL. induction 1 as [c s Hc|c s _ IH]; rewrite fmap_cons, convert_s_cons.
  - rewrite (toUpper_kept_letter L c HL Hc). unfold is_upper_letter.
    rewrite bool_decide_true by (by apply fold_upper_letter). done.
  - by destruct (is_upper_letter _).
Qed.

Lemma key_nonempty_of_letter skey C :
  capitals_fixed L → new L skey = Ret C →
  Exists (fun c => is_letter c = true) skey → key C ≠ [].
Proof.
  intros HL (valid & Hv & _ & ->)%shift_new_inv Hex.
  apply getValidKey_kept in Hv as [_ ->]. by apply convert_kept_nonempty.
Qed.

Lemma encrypt_step_no_throw C w i e : encrypt_step C w i ≠ Throw e.
Proof.
  unfold encrypt_step. destruct (length (key C) =? 0)%nat; [done|].
  by destruct (w !! i), (key C !! (i mod length (key C))%nat).
Qed.

Lemma openLetters_nil s :
  openLetters L s = [] ↔ Forall (fun c => iswalpha L c = false) s.
Proof.
  induction s as [|c s IH]; [by split; [constructor|]|]. cbn [openLetters].
  rewrite Forall_cons. destruct (iswalpha L c); [|by rewrite IH; intuition].
  split; [done|]. by intros [? _].
Qed.

Lemma shift_encrypt_throws C text e :
  encrypt L C text = Throw e ↔
  e = empty_text ∧ Forall (fun c => iswalpha L c = false) text.
Proof.
  unfold encrypt, getValidOpenText. rewrite <- openLetters_nil.
  destruct (openLetters L text) as [|c s]; cbn [mbind outcome_bind].
  - split; [by intros [= <-]|by intros [-> _]].
  - split; [|by intros [_ ?]].
    destruct (for_each _ _ _) as [w| |] eqn:E; cbn [mbind outcome_bind]; [done| |done].
    exfalso. revert E. apply for_each_no_throw. apply encrypt_step_no_throw.
Qed.

Lemma shift_encrypt_returns skey C text :
  letters_alphabetic L → new L skey = Ret C → key C ≠ [] → normalize text ≠ [] →
  ∃ c, encrypt L C text = Ret c.
Proof.
  intros HL Hnew Hkey Hne.
  pose proof (key_in_alphabet _ _ _ Hnew) as Hrange.
  apply shift_new_inv in Hnew as (valid & _ & Hmap & _).
  unfold encrypt, getValidOpenText.
  pose proof (openLetters_nonempty L text HL Hne) as Hopen.
  destruct (openLetters L text) as [|c s] eqn:E; [done|]. rewrite <- E.
  cbn [mbind outcome_bind]. rewrite Hmap.
  rewrite (encrypt_loop C Hkey Hrange) by apply convert_s_range.
  cbn [mbind outcome_bind]. by eexists.
Qed.

Lemma shift_decrypt_rejects C s c :
  c ∈ s → iswupper L c = false → decrypt L C s = Throw invalid_cipher_text.
Proof.
  intros Hin Hc. destruct s as [|x s]; [by apply elem_of_nil in Hin|].
  unfold decrypt, getValidCipherText.
  destruct (forallb _ (x :: s)) eqn:E; [|done].
  rewrite forallb_forall in E. specialize (E c (proj1 (list_elem_of_In _ _) Hin)).
  congruence.
Qed.

Lemma convert_s_foreign s :
  Forall (fun c => is_letter c = false ∧ towupper L c = c) s →
  convert_s L fillAlphaNum s = [].
Proof.
  induction 1 as [|c s [Hc Hfix] _ IH]; [done|].
  rewrite convert_s_cons, IH. unfold is_upper_letter.
  rewrite bool_decide_false; [done|].
  pose proof Hc as [Hu Hl]%is_letter_false.
  by rewrite (toUpper_other L c Hl), Hfix.
Qed.
End Validation.


(** *** What the engine reads as letters *)

Section OwnLetters.
Context (L : Locale).

(** On a text without aliases the engine keeps the letters of the alphabet
    and nothing else. *)
Lemma convert_open_clean s :
  capitals_fixed L → letters_alphabetic L → no_alias L s →
  convert_s L fillAlphaNum (openLetters L s) = alphabet_index <$> normalize s.
Proof.
  intros H1 H3. induction 1 as [|c s Hc _ IH]; [done|].
  rewrite normalize_cons. cbn [openLetters].
  destruct (is_letter c) eqn:Hl.
  - rewrite (H3 c Hl). fold (kept L c).
    rewrite convert_s_cons, (toUpper_kept_letter L c H1 Hl), IH.
    unfold is_upper_letter. rewrite bool_decide_true; [done|].
    by apply fold_upper_letter.
  - destruct (iswalpha L c) eqn:Ha; [|done]. fold (kept L c).
    rewrite convert_s_cons. unfold alias, read_as_letter in Hc.
    rewrite Hl, Ha in Hc. cbn [negb andb] in Hc. by rewrite Hc.
Qed.

Lemma shift_encrypt_clean skey C text :
  capitals_fixed L → letters_alphabetic L →
  new L skey = Ret C → key C ≠ [] → normalize text ≠ [] → no_alias L text →
  encrypt L C text = Ret (shift_text 33 (key C) (normalize text)).
Proof.
  intros H1 H3 Hnew Hkey Hne Hclean.
  pose proof (key_in_alphabet _ _ _ Hnew) as Hrange.
  apply shift_new_inv in Hnew as (valid & _ & Hmap & _).
  unfold encrypt, getValidOpenText.
  pose proof (openLetters_nonempty L text H3 Hne) as Hopen.
  destruct (openLetters L text) as [|c s] eqn:E; [done|]. rewrite <- E.
  cbn [mbind outcome_bind]. rewrite Hmap, (convert_open_clean text H1 H3 Hclean).
  rewrite (encrypt_loop C Hkey Hrange).
  2:{ apply Forall_fmap, Forall_forall. intros x Hx. cbn.
      apply alphabet_index_range.
      by apply (proj1 (Forall_forall _ _) (normalize_capitals text)). }
  cbn [mbind outcome_bind]. rewrite convert_v_range.
  2:{ apply imap_range. intros. apply mod33_range. }
  f_equal. unfold shift_text. by rewrite fmap_imap, imap_fmap.
Qed.

Lemma shift_round_trip_clean skey C text :
  capitals_fixed L → letters_alphabetic L → capitals_upper L →
  new L skey = Ret C → key C ≠ [] → normalize text ≠ [] → no_alias L text →
  encrypt L C text ≫= decrypt L C = Ret (normalize text).
Proof.
  intros H1 H3 H4 Hnew Hkey Hne Hclean.
  rewrite (shift_encrypt_clean skey C text H1 H3 Hnew Hkey Hne Hclean).
  cbn [mbind outcome_bind].
  rewrite (shift_decrypt_closed L skey C _ H1 H4 Hnew Hkey).
  - f_equal. apply unshift_shift; [done|by eapply key_in_alphabet|].
    apply normalize_capitals.
  - unfold shift_text. intros E. apply (f_equal length) in E.
    rewrite length_imap in E. by destruct (normalize text).
  - apply shift_text_capitals.
Qed.

(** A text of which the engine reads nothing as a letter. *)
Lemma convert_open_unread s :
  Forall (fun c => read_as_letter L c = false) s →
  convert_s L fillAlphaNum (openLetters L s) = [].
Proof.
  induction 1 as [|c s Hc _ IH]; [done|]. cbn [openLetters].
  destruct (iswalpha L c) eqn:Ha; [|done]. fold (kept L c).
  rewrite convert_s_cons. unfold read_as_letter in Hc.
  rewrite Ha in Hc. cbn [andb] in Hc. by rewrite Hc.
Qed.

Lemma shift_encrypt_unread skey C text :
  new L skey = Ret C →
  Exists (fun c => iswalpha L c = true) text →
  Forall (fun c => read_as_letter L c = false) text →
  encrypt L C text = Ret [].
Proof.
  intros (valid & _ & Hmap & _)%shift_new_inv Hex Hall.
  unfold encrypt, getValidOpenText.
  destruct (openLetters L text) as [|c s] eqn:E.
  { exfalso. apply openLetters_nil in E.
    apply Exists_exists in Hex as (x & Hx & Hax).
    rewrite (proj1 (Forall_forall _ _) E x Hx) in Hax. done. }
  rewrite <- E. cbn [mbind outcome_bind].
  by rewrite Hmap, convert_open_unread.
Qed.

End OwnLetters.

End ShiftFacts.

Import TableFacts ShiftFacts.
#[local] Opaque modAlphaCipher.fillAlphaNum.

(** * The claims of the specification *)

(** The constructor builds [engine_MIR] from "МИР". *)
Lemma engine_MIR_new : modAlphaCipher.new utf8_ru key_MIR = Ret engine_MIR.
Proof. vm_compute. reflexivity. Qed.

(** So it does in the locale with the aliases of glibc. *)
Lemma engine_MIR_glibc : modAlphaCipher.new glibc_ru key_MIR = Ret engine_MIR.
Proof. vm_compute. reflexivity. Qed.

(** ** C1: round trip of the shift engine *)

(** C1.  For every key string the constructor accepts and every text with a
    non-empty normalization, [decrypt (encrypt text)] is the normalization
    of the text.  The engine breaks this for a key of letters that are not
    in the alphabet: under the model locale the constructor accepts the key
    "ABC", the derived key vector is empty, and [encrypt] of the one-letter
    text "А" (whose normalization is itself) takes a remainder by
    [key.size() = 0], so the call has no defined result and there is no
    ciphertext to decrypt.  For keys whose derived vector is non-empty the
    round trip holds: lemma [ShiftFacts.shift_round_trip]. *)
Theorem shift_round_trip_latin_key :
  ∃ C, modAlphaCipher.new utf8_ru latin_ABC = Ret C
       ∧ modAlphaCipher.key C = []
       ∧ normalize [L_A] = [L_A]
       ∧ modAlphaCipher.encrypt utf8_ru C [L_A] = Undefined.
Proof.
  eexists. split; [reflexivity|]. split; [by vm_compute|].
  split; [by vm_compute|]. by vm_compute.
Qed.

(** ** C2: round trip of the transposition engine *)

(** C2.  For every column count [k] in [1, 100] the constructor succeeds,
    and for every text whose normalization is non-empty (and whose length
    fits the engine's [int] arithmetic) decrypting the ciphertext of the
    text gives back exactly [normalize text]; ragged grids are included,
    since [k] and the text are arbitrary. *)
Theorem table_round_trip (k : Z) (text : list Z) :
  1 <= k <= 100 → normalize text ≠ [] → fits_int (length (normalize text)) k →
  ∃ T, Table.new k = Ret T
       ∧ Table.encrypt T text ≫= Table.decrypt T = Ret (normalize text).
Proof.
  intros Hk Hne Hfit. exists {| Table.cols := k |}.
  split; [by apply table_new_spec|]. apply table_round_trip_closed; cbn; [lia|done..].
Qed.

(** The statement of C2 at four columns and the five-letter text "АБВГД"
    (a ragged grid: one letter in the last row). *)
Lemma table_round_trip_witness :
  1 <= 4 <= 100 ∧ normalize txt_ABVGD ≠ []
  ∧ fits_int (length (normalize txt_ABVGD)) 4
  ∧ ∃ T, Table.new 4 = Ret T
         ∧ Table.encrypt T txt_ABVGD ≫= Table.decrypt T = Ret (normalize txt_ABVGD).
Proof.
  assert (1 <= 4 <= 100) as H1 by lia.
  assert (normalize txt_ABVGD ≠ []) as H2 by (by vm_compute).
  assert (fits_int (length (normalize txt_ABVGD)) 4) as H3 by (by vm_compute).
  split; [exact H1|]. split; [exact H2|]. split; [exact H3|].
  exact (table_round_trip 4 txt_ABVGD H1 H2 H3).
Defined.

(** ** C3: invariant of the derived shift key *)

(** The claim C3 bounds the key elements by 32.  The key "Я" is accepted
    and its derived vector is [[32]]: the alphabet has 33 letters, "Ё"
    included, so the bound of the claim is broken. *)
Lemma shift_key_below_32_fails :
  ∃ C, modAlphaCipher.new utf8_ru key_YA = Ret C
       ∧ ¬ (modAlphaCipher.key C ≠ []
            ∧ Forall (fun p => 0 <= p < 32) (modAlphaCipher.key C)).
Proof.
  exists {| modAlphaCipher.alphaNum := modAlphaCipher.fillAlphaNum;
            modAlphaCipher.key := [32] |}.
  split; [vm_compute; reflexivity|]. cbn [modAlphaCipher.key].
  intros [_ H]. apply Forall_cons in H as [H _]. lia.
Qed.

(** C3, as amended.  For every key string the constructor accepts, every
    element of the derived key lies in [0, 33); and, where upper-casing
    fixes the capitals of the alphabet, the derived key is non-empty as soon
    as the key string holds one letter of the alphabet (of either case). *)
Theorem shift_key_invariant (L : Locale) (skey : list Z) (C : modAlphaCipher.t) :
  modAlphaCipher.new L skey = Ret C →
  Forall (fun p => 0 <= p < 33) (modAlphaCipher.key C)
  ∧ (capitals_fixed L → Exists (fun c => is_letter c = true) skey →
     modAlphaCipher.key C ≠ []).
Proof.
  intros Hnew. split; [by eapply key_in_alphabet|].
  intros HL Hex. by eapply key_nonempty_of_letter.
Qed.

(** The amended C3 at the key "МИР", whose derived vector is [13; 9; 17]. *)
Lemma shift_key_invariant_witness :
  modAlphaCipher.new utf8_ru key_MIR = Ret engine_MIR
  ∧ Forall (fun p => 0 <= p < 33) (modAlphaCipher.key engine_MIR)
  ∧ modAlphaCipher.key engine_MIR ≠ [].
Proof.
  split; [exact engine_MIR_new|].
  destruct (shift_key_invariant utf8_ru key_MIR engine_MIR engine_MIR_new)
    as [H1 H2].
  split; [exact H1|]. apply H2.
  - apply utf8_ru_russian.
  - apply Exists_cons_hd. reflexivity.
Defined.

(** ** C4: strictness of decrypt *)




(** ** C5: when encrypt reports an empty text *)

(** The claim C5 has encrypt fail whenever no letter of the alphabet
    survives.  The shift engine, keyed with "Я", is given "abc": the
    normalization is empty, yet the call returns the empty string instead of
    raising. *)
Lemma shift_encrypt_latin_text :
  ∃ C, modAlphaCipher.new utf8_ru key_YA = Ret C
       ∧ normalize latin_abc = []
       ∧ modAlphaCipher.encrypt utf8_ru C latin_abc = Ret [].
Proof.
  eexists. split; [reflexivity|]. split; by vm_compute.
Qed.

(** C5, as amended.  The transposition engine raises its empty-text error
    exactly when the normalization of the input is empty.  The shift engine
    raises its empty-text error exactly when no character of the input is
    alphabetic for the locale ([iswalpha]).  An input with at least one
    letter of the alphabet is encrypted by both (for the transposition
    engine within the [int] range; for the shift engine when Russian letters
    are alphabetic and the derived key is non-empty).  An input that has
    alphabetic characters, none of which the shift engine reads as a letter
    (none is upper-cased onto a capital of the alphabet: Latin letters, for
    example), is accepted by the shift engine and encrypted to the empty
    string. *)
Theorem encrypt_empty_text (L : Locale) (skey : list Z) (C : modAlphaCipher.t)
    (k : Z) (T : Table.t) (text : list Z) :
  modAlphaCipher.new L skey = Ret C → Table.new k = Ret T →
  (Table.encrypt T text = Throw Table.empty_text ↔ normalize text = [])
  ∧ (modAlphaCipher.encrypt L C text = Throw modAlphaCipher.empty_text
     ↔ Forall (fun c => iswalpha L c = false) text)
  ∧ (normalize text ≠ [] → fits_int (length (normalize text)) k →
     ∃ c, Table.encrypt T text = Ret c)
  ∧ (letters_alphabetic L → modAlphaCipher.key C ≠ [] → normalize text ≠ [] →
     ∃ c, modAlphaCipher.encrypt L C text = Ret c)
  ∧ (Exists (fun c => iswalpha L c = true) text →
     Forall (fun c => read_as_letter L c = false) text →
     modAlphaCipher.encrypt L C text = Ret []).
Proof.
  intros Hnew [Hk HT]%table_new_inv. split; [|split; [|split; [|split]]].
  - rewrite table_encrypt_throws. intuition.
  - rewrite shift_encrypt_throws. intuition.
  - intros Hne Hfit. eexists. apply table_encrypt_closed; [lia|done|by rewrite HT].
  - intros HL Hkey Hne. by eapply shift_encrypt_returns.
  - intros Hex Hall. by eapply shift_encrypt_unread.
Qed.

(** The amended C5 in the locale with the aliases of glibc, at the
    key "МИР" and three columns: both engines return a ciphertext for the
    text "привет, мир!", and the shift engine returns the empty string for
    the text "abc". *)
Lemma encrypt_empty_text_witness :
  modAlphaCipher.new glibc_ru key_MIR = Ret engine_MIR
  ∧ Table.new 3 = Ret {| Table.cols := 3 |}
  ∧ (∃ c, Table.encrypt {| Table.cols := 3 |} txt_privet_mir = Ret c)
  ∧ (∃ c, modAlphaCipher.encrypt glibc_ru engine_MIR txt_privet_mir = Ret c)
  ∧ modAlphaCipher.encrypt glibc_ru engine_MIR latin_abc = Ret [].
Proof.
  assert (Table.new 3 = Ret {| Table.cols := 3 |}) as HT by reflexivity.
  split; [exact engine_MIR_glibc|]. split; [exact HT|].
  destruct (encrypt_empty_text glibc_ru key_MIR engine_MIR 3 _ txt_privet_mir
              engine_MIR_glibc HT) as (_ & _ & H3 & H4 & _).
  destruct (encrypt_empty_text glibc_ru key_MIR engine_MIR 3 _ latin_abc
              engine_MIR_glibc HT) as (_ & _ & _ & _ & H5).
  split; [|split].
  - apply H3; [vm_compute; discriminate|vm_compute; discriminate].
  - apply H4; [apply glibc_ru_alphabetic|discriminate|vm_compute; discriminate].
  - apply H5; [apply Exists_cons_hd; reflexivity|].
    repeat constructor.
Defined.

(** ** C6: the shift transform *)

(** The claim C6 reduces modulo 32.  With the key "Я" (index 32) the text
    "ПРИВЕТ" is not encrypted to what the transform modulo 32 gives (which
    would leave the text unchanged): the engine reduces modulo 33, the size
    of its alphabet, and returns "ОПЗБДС". *)
Lemma shift_modulus_32_fails :
  ∃ C, modAlphaCipher.new utf8_ru key_YA = Ret C
       ∧ modAlphaCipher.encrypt utf8_ru C txt_PRIVET
         ≠ Ret (shift_text 32 (modAlphaCipher.key C) (normalize txt_PRIVET)).
Proof.
  exists {| modAlphaCipher.alphaNum := modAlphaCipher.fillAlphaNum;
            modAlphaCipher.key := [32] |}.
  split; [vm_compute; reflexivity|]. by vm_compute.
Qed.

(** C6, as amended.  In a locale where the Russian letters are alphabetic
    and the capitals of the alphabet are upper-case and fixed by
    upper-casing, for an engine whose derived key is non-empty and a text
    that holds no alias (no character outside the alphabet that the locale
    upper-cases onto a capital of the alphabet), encrypt sends the
    normalized symbol at position [i], of alphabet index [p], to the symbol
    of index [(p + key[i mod keyLength]) mod 33], whatever the lengths of
    key and text; the output is as long as the normalized input; and
    decrypt sends the symbol of index [c] at position [i] of a valid
    ciphertext to the symbol of index [(c + 33 - key[i mod keyLength]) mod
    33]. *)
Theorem shift_transform (L : Locale) (skey : list Z) (C : modAlphaCipher.t)
    (text cipher : list Z) :
  capitals_fixed L → letters_alphabetic L → capitals_upper L →
  modAlphaCipher.new L skey = Ret C → modAlphaCipher.key C ≠ [] →
  normalize text ≠ [] → no_alias L text →
  cipher ≠ [] → Forall (fun c => c ∈ upper_letters) cipher →
  modAlphaCipher.encrypt L C text
  = Ret (shift_text 33 (modAlphaCipher.key C) (normalize text))
  ∧ length (shift_text 33 (modAlphaCipher.key C) (normalize text))
    = length (normalize text)
  ∧ modAlphaCipher.decrypt L C cipher
    = Ret (unshift_text 33 (modAlphaCipher.key C) cipher).
Proof.
  intros H1 H3 H4 Hnew Hkey Hne Hclean Hc Hall. split; [|split].
  - by eapply shift_encrypt_clean.
  - apply length_imap.
  - by eapply shift_decrypt_closed.
Qed.

(** The amended C6 in the locale with the aliases of glibc, at the
    key "МИР", the text "привет, мир!" and the ciphertext "ОПЗБДС". *)
Lemma shift_transform_witness :
  modAlphaCipher.new glibc_ru key_MIR = Ret engine_MIR
  ∧ no_alias glibc_ru txt_privet_mir
  ∧ modAlphaCipher.encrypt glibc_ru engine_MIR txt_privet_mir
    = Ret (shift_text 33 [13; 9; 17] (normalize txt_privet_mir))
  ∧ modAlphaCipher.decrypt glibc_ru engine_MIR txt_OPZBDS
    = Ret (unshift_text 33 [13; 9; 17] txt_OPZBDS).
Proof.
  assert (no_alias glibc_ru txt_privet_mir) as Hclean
    by (apply no_alias_sample; vm_compute; reflexivity).
  split; [exact engine_MIR_glibc|]. split; [exact Hclean|].
  destruct (shift_transform glibc_ru key_MIR engine_MIR txt_privet_mir txt_OPZBDS
              glibc_ru_capitals_fixed glibc_ru_alphabetic glibc_ru_upper
              engine_MIR_glibc) as (H1 & _ & H3).
  - discriminate.
  - vm_compute. discriminate.
  - exact Hclean.
  - discriminate.
  - apply capitals_sample. vm_compute. reflexivity.
  - split; [exact H1|exact H3].
Defined.

(** The condition on the text cannot be dropped.  In the locale with the
    aliases of glibc, under the key "Б", the text "А", U+1C80, "Б"
    has the normalization "АБ", and encrypt returns the three letters
    "БГВ": the alias U+1C80 is read as "В". *)
Lemma shift_transform_alias :
  ∃ C, modAlphaCipher.new glibc_ru [1041] = Ret C
       ∧ alias glibc_ru 7296 = true
       ∧ normalize [1040; 7296; 1041] = [1040; 1041]
       ∧ modAlphaCipher.encrypt glibc_ru C [1040; 7296; 1041]
         = Ret [1041; 1043; 1042].
Proof.
  eexists. split; [reflexivity|]. split; [by vm_compute|].
  split; by vm_compute.
Qed.

(** ** C7: the route of the transposition *)

(** C7.  For every [k] in [1, 100] and every text with non-empty
    normalization, encrypt returns the read-out of [column_route]: the
    normalized text laid row-major in [ceil(n / k)] rows, read column by
    column from column [k - 1] down to column [0], top to bottom, filled
    cells only.  When [k] is at least the normalized length, the ciphertext
    is the reversal of the normalized text. *)
Theorem table_encrypt_route (k : Z) (text : list Z) :
  1 <= k <= 100 → normalize text ≠ [] → fits_int (length (normalize text)) k →
  ∃ T, Table.new k = Ret T
       ∧ Table.encrypt T text = Ret (column_route (Z.to_nat k) (normalize text))
       ∧ (Z.of_nat (length (normalize text)) <= k →
          Table.encrypt T text = Ret (reverse (normalize text))).
Proof.
  intros Hk Hne Hfit. exists {| Table.cols := k |}.
  split; [by apply table_new_spec|].
  assert (Table.encrypt {| Table.cols := k |} text
          = Ret (column_route (Z.to_nat k) (normalize text))) as E.
  { rewrite table_encrypt_closed; cbn [Table.cols]; [|lia|done..].
    by rewrite column_route_cells. }
  split; [done|]. intros Hwide. rewrite E. f_equal.
  apply column_route_wide; [by apply length_pos|lia].
Qed.

(** C7 at ten columns and the text "ПРИВЕТ": the ciphertext is "ТЕВИРП". *)
Lemma table_encrypt_route_witness :
  1 <= 10 <= 100 ∧ normalize txt_PRIVET ≠ []
  ∧ fits_int (length (normalize txt_PRIVET)) 10
  ∧ Z.of_nat (length (normalize txt_PRIVET)) <= 10
  ∧ Table.encrypt {| Table.cols := 10 |} txt_PRIVET = Ret txt_TEVIRP.
Proof.
  assert (1 <= 10 <= 100) as H1 by lia.
  assert (normalize txt_PRIVET ≠ []) as H2 by (vm_compute; discriminate).
  assert (fits_int (length (normalize txt_PRIVET)) 10) as H3
    by (vm_compute; discriminate).
  assert (Z.of_nat (length (normalize txt_PRIVET)) <= 10) as H4
    by (vm_compute; discriminate).
  split; [exact H1|]. split; [exact H2|]. split; [exact H3|]. split; [exact H4|].
  destruct (table_encrypt_route 10 txt_PRIVET H1 H2 H3) as (T & HT & _ & Hrev).
  injection HT as <-. exact (Hrev H4).
Defined.

(** ** C8: one column is the identity *)

(** C8.  With one column, encrypt returns the normalization of every text
    whose normalization is non-empty, and decrypt returns every valid
    ciphertext (non-empty, capitals of the alphabet only) unchanged. *)
Theorem table_one_column_identity (text cipher : list Z) :
  normalize text ≠ [] → fits_int (length (normalize text)) 1 →
  cipher ≠ [] → Forall (fun c => c ∈ upper_letters) cipher →
  fits_int (length cipher) 1 →
  ∃ T, Table.new 1 = Ret T
       ∧ Table.encrypt T text = Ret (normalize text)
       ∧ Table.decrypt T cipher = Ret cipher.
Proof.
  intros Hne Hfit Hc Hall Hfit'. exists {| Table.cols := 1 |}.
  split; [done|]. split.
  - rewrite table_encrypt_closed; cbn [Table.cols]; [|lia|done..].
    change (Z.to_nat 1) with 1%nat.
    by rewrite <- column_route_cells, column_route_one.
  - by apply table_decrypt_one.
Qed.

(** C8 at the text "привет, мир!" and the ciphertext "ОПЗБДС". *)
Lemma table_one_column_identity_witness :
  normalize txt_privet_mir ≠ [] ∧ txt_OPZBDS ≠ []
  ∧ Table.encrypt {| Table.cols := 1 |} txt_privet_mir = Ret (normalize txt_privet_mir)
  ∧ Table.decrypt {| Table.cols := 1 |} txt_OPZBDS = Ret txt_OPZBDS.
Proof.
  assert (normalize txt_privet_mir ≠ []) as H1 by (vm_compute; discriminate).
  assert (txt_OPZBDS ≠ []) as H2 by discriminate.
  split; [exact H1|]. split; [exact H2|].
  destruct (table_one_column_identity txt_privet_mir txt_OPZBDS H1) as (T & HT & He & Hd).
  - vm_compute. discriminate.
  - exact H2.
  - apply capitals_sample. vm_compute. reflexivity.
  - vm_compute. discriminate.
  - injection HT as <-. split; [exact He|exact Hd].
Defined.

(** ** C9: the transposition permutes *)

(** C9.  For every valid column count, the ciphertext of an accepted
    plaintext is a permutation of the normalized plaintext, of the same
    length; and the plaintext that decrypt returns for a valid ciphertext is
    a permutation of that ciphertext, of the same length. *)
Theorem table_permutation (k : Z) (text cipher : list Z) :
  1 <= k <= 100 →
  normalize text ≠ [] → fits_int (length (normalize text)) k →
  cipher ≠ [] → Forall (fun c => c ∈ upper_letters) cipher →
  fits_int (length cipher) k →
  ∃ T c p, Table.new k = Ret T
    ∧ Table.encrypt T text = Ret c
    ∧ c ≡ₚ normalize text ∧ length c = length (normalize text)
    ∧ Table.decrypt T cipher = Ret p
    ∧ p ≡ₚ cipher ∧ length p = length cipher.
Proof.
  intros Hk Hne Hfit Hc Hall Hfit'.
  destruct (table_encrypt_perm {| Table.cols := k |} text) as (c & He & Hpc);
    cbn [Table.cols]; [lia|done..|].
  destruct (table_decrypt_perm {| Table.cols := k |} cipher) as (p & Hd & Hpp);
    cbn [Table.cols]; [lia|done..|].
  exists {| Table.cols := k |}, c, p.
  split; [by apply table_new_spec|]. split; [done|]. split; [done|].
  split; [by rewrite Hpc|]. split; [done|]. split; [done|]. by rewrite Hpp.
Qed.

(** C9 at three columns, the text "привет, мир!" and the ciphertext
    "АБВГД". *)
Lemma table_permutation_witness :
  1 <= 3 <= 100 ∧ normalize txt_privet_mir ≠ [] ∧ txt_ABVGD ≠ []
  ∧ ∃ c p, Table.encrypt {| Table.cols := 3 |} txt_privet_mir = Ret c
           ∧ c ≡ₚ normalize txt_privet_mir
           ∧ Table.decrypt {| Table.cols := 3 |} txt_ABVGD = Ret p
           ∧ p ≡ₚ txt_ABVGD.
Proof.
  assert (1 <= 3 <= 100) as H0 by lia.
  assert (normalize txt_privet_mir ≠ []) as H1 by (vm_compute; discriminate).
  assert (txt_ABVGD ≠ []) as H2 by discriminate.
  split; [exact H0|]. split; [exact H1|]. split; [exact H2|].
  destruct (table_permutation 3 txt_privet_mir txt_ABVGD H0 H1)
    as (T & c & p & HT & He & Hpc & _ & Hd & Hpp & _).
  - vm_compute. discriminate.
  - exact H2.
  - apply capitals_sample. vm_compute. reflexivity.
  - vm_compute. discriminate.
  - injection HT as <-. exists c, p. repeat split; assumption.
Defined.

(** ** C10: Latin capitals pass the shift engine's decrypt *)

(** C10.  In a locale where the Latin capitals are upper-case and fixed by
    upper-casing, every constructed shift engine has a non-empty input, made
    of upper-case characters that are not in the alphabet, on which decrypt
    raises nothing and returns the empty string: the input "ABC". *)
Theorem shift_decrypt_drops_latin (L : Locale) (skey : list Z) (C : modAlphaCipher.t) :
  latin_capitals L → modAlphaCipher.new L skey = Ret C →
  ∃ s, s ≠ []
       ∧ Forall (fun c => iswupper L c = true ∧ c ∉ upper_letters) s
       ∧ modAlphaCipher.decrypt L C s = Ret [].
Proof.
  intros Hup (valid & _ & Hmap & _)%shift_new_inv. exists latin_ABC.
  assert (Forall (fun c => 65 <= c <= 90) latin_ABC) as Hr
    by (repeat constructor; lia).
  assert (Forall (fun c => is_letter c = false) latin_ABC) as Hf
    by (by repeat constructor).
  split; [done|]. split.
  - apply Forall_forall. intros c Hc. split.
    + by apply Hup, (proj1 (Forall_forall _ _) Hr).
    + by apply is_letter_false, (proj1 (Forall_forall _ _) Hf).
  - unfold modAlphaCipher.decrypt, modAlphaCipher.getValidCipherText, latin_ABC.
    cbn [forallb].
    rewrite (proj1 (Hup 65 ltac:(lia))), (proj1 (Hup 66 ltac:(lia))),
      (proj1 (Hup 67 ltac:(lia))).
    cbn [andb mbind outcome_bind]. rewrite Hmap. fold latin_ABC.
    rewrite (convert_s_foreign L latin_ABC); [done|].
    apply Forall_forall. intros c Hc. split.
    + by apply (proj1 (Forall_forall _ _) Hf).
    + by apply Hup, (proj1 (Forall_forall _ _) Hr).
Qed.

(** C10 in the model locale, for the engine keyed with "МИР". *)
Lemma shift_decrypt_drops_latin_witness :
  latin_capitals utf8_ru
  ∧ modAlphaCipher.new utf8_ru key_MIR = Ret engine_MIR
  ∧ ∃ s, s ≠ [] ∧ modAlphaCipher.decrypt utf8_ru engine_MIR s = Ret [].
Proof.
  assert (latin_capitals utf8_ru) as HL.
  { intros c Hc. cbn [iswupper towupper utf8_ru].
    unfold utf8_iswupper, utf8_towupper, in_range, L_a, L_ya, L_yo.
    destruct (Z.leb_spec 65 c); [|lia]. destruct (Z.leb_spec c 90); [|lia].
    destruct (Z.leb_spec 97 c); [lia|]. destruct (Z.leb_spec 1072 c); [lia|].
    destruct (Z.eqb_spec c 1105); [lia|]. split; reflexivity. }
  split; [exact HL|]. split; [exact engine_MIR_new|].
  destruct (shift_decrypt_drops_latin utf8_ru key_MIR engine_MIR HL engine_MIR_new)
    as (s & Hs & _ & Hd).
  exists s. split; [exact Hs|exact Hd].
Defined.

(** * Further properties of the code *)

(** ** Normalization *)

Lemma normalize_of_capitals s :
  Forall (fun c => c ∈ upper_letters) s → normalize s = s.
Proof.
  induction 1 as [|c s Hc _ IH]; [done|]. rewrite normalize_cons.
  assert (is_letter c = true) as -> by (apply is_letter_true; by left).
  by rewrite fold_upper_capital, IH.
Qed.

Lemma normalize_idemp s : normalize (normalize s) = normalize s.
Proof. apply normalize_of_capitals, normalize_capitals. Qed.

(** ** Laws of the transposition engine *)

Module TableLaws.
Import Table.
Local Open Scope nat_scope.

Lemma code_inj cols rc1 rc2 :
  rc1.2 < cols → rc2.2 < cols → code cols rc1 = code cols rc2 → rc1 = rc2.
Proof.
  destruct rc1 as [r1 c1], rc2 as [r2 c2]. unfold code. cbn. intros H1 H2 E.
  assert (r1 = r2) by nia. subst. f_equal. lia.
Qed.

(** The cell of row-major rank [j] is the [j]-th filled cell of the row-major
    walk. *)
Lemma filled_row_major_lookup rows cols n rc :
  n ≤ rows * cols → in_grid rows cols rc → filled cols n rc →
  filter (filled cols n) (row_major rows cols) !! code cols rc = Some rc.
Proof.
  intros Hn [Hr Hc] Hf.
  pose proof (code_filled_row_major rows cols n Hn) as E.
  assert ((code cols <$> filter (filled cols n) (row_major rows cols)) !! code cols rc
          = Some (code cols rc)) as Hl.
  { rewrite E. apply lookup_seq. split; [done|]. exact Hf. }
  rewrite list_lookup_fmap in Hl.
  destruct (filter (filled cols n) (row_major rows cols) !! code cols rc)
    as [rc'|] eqn:E'; [|done].
  cbn in Hl. injection Hl as Hl. f_equal. apply (code_inj cols); [|done|done].
  apply list_elem_of_lookup_2, list_elem_of_filter in E' as [_ Hin].
  apply elem_of_row_major in Hin as [_ ?]. done.
Qed.

(** Decrypting and then encrypting restores the grid, hence the ciphertext. *)
Lemma reverse_trip_core ct rows cols fc :
  no_blank ct → geometry (length ct) rows cols fc →
  let pt := sweep (col_filled ct rows cols fc) (row_major rows cols) in
  length pt = length ct
  ∧ (fun rc => pt !!! code cols rc)
      <$> filter (filled cols (length pt)) (col_major rows cols) = ct.
Proof.
  intros Hnb Hgeo pt.
  pose proof (geometry_fits _ _ _ _ Hgeo) as Hfit.
  assert (pt = (fun rc => cell (col_filled ct rows cols fc) rc.1 rc.2)
                 <$> filter (filled cols (length ct)) (row_major rows cols)) as Hpt
    by (by apply decrypt_core).
  assert (length pt = length ct) as Hlen.
  { rewrite Hpt, length_fmap.
    rewrite <- (length_fmap (code cols)), code_filled_row_major by done.
    apply length_seq. }
  split; [done|]. rewrite Hlen.
  etrans; [|apply (decrypt_column_order ct rows cols fc Hgeo)].
  apply Forall_fmap_ext_1, Forall_forall. intros rc [Hf Hin]%list_elem_of_filter.
  apply elem_of_col_major in Hin.
  apply list_lookup_total_correct. rewrite Hpt, list_lookup_fmap.
  by rewrite (filled_row_major_lookup rows cols (length ct) rc).
Qed.

Lemma sweep_capitals ct rows cols fc :
  Forall (fun c => c ∈ upper_letters) ct → geometry (length ct) rows cols fc →
  Forall (fun c => c ∈ upper_letters)
    (sweep (col_filled ct rows cols fc) (row_major rows cols)).
Proof.
  intros Hcap Hgeo.
  rewrite decrypt_core by (by try apply capitals_no_blank).
  apply Forall_fmap, Forall_forall. intros rc [Hf Hin]%list_elem_of_filter. cbn.
  pose proof (geometry_fits _ _ _ _ Hgeo) as Hfit.
  apply elem_of_row_major in Hin.
  assert (rc ∈ filter (filled cols (length ct)) (col_major rows cols)) as Hc
    by (apply list_elem_of_filter; split; [done|by apply elem_of_col_major]).
  apply list_elem_of_lookup_1 in Hc as [j Hj].
  destruct (decrypt_grid ct rows cols fc Hgeo) as [Hcell _].
  rewrite (Hcell j rc Hj).
  assert (j < length ct) as Hlt.
  { apply lookup_lt_Some in Hj. by rewrite length_filled_col_major in Hj. }
  destruct (lookup_lt_is_Some_2 ct j Hlt) as [x Hx].
  rewrite (list_lookup_total_correct _ _ _ Hx).
  by apply (proj1 (Forall_lookup _ _) Hcap j).
Qed.

Lemma table_reverse_trip_closed T ct :
  (0 < cols T)%Z → ct ≠ [] → Forall (fun c => c ∈ upper_letters) ct →
  fits_int (length ct) (cols T) →
  decrypt T ct ≫= encrypt T = Ret ct.
Proof.
  intros Hk Hne Hcap Hfit.
  rewrite table_decrypt_closed by done. cbn [mbind outcome_bind].
  set (k := Z.to_nat (cols T)). set (rows := ceil_div (length ct) k).
  set (pt := sweep _ _).
  assert (geometry (length ct) rows k (last_row (length ct) k)) as Hgeo
    by (apply geometry_table; [done|by apply length_pos]).
  destruct (reverse_trip_core ct rows k _ (capitals_no_blank _ Hcap) Hgeo)
    as [Hlen Hct]. fold pt in Hlen, Hct.
  assert (Forall (fun c => c ∈ upper_letters) pt) as Hpt by (by apply sweep_capitals).
  assert (normalize pt = pt) as Hnorm by (by apply normalize_of_capitals).
  assert (pt ≠ []) as Hpne.
  { intros E. rewrite E in Hlen. cbn in Hlen. destruct ct; [done|]. cbn in Hlen. lia. }
  rewrite table_encrypt_closed; rewrite ?Hnorm, ?Hlen; [|done..].
  cbv zeta. f_equal. fold k. fold rows. by rewrite <- Hlen.
Qed.

(** A grid at least as wide as the text is one row: the walk is a reversal
    in both directions. *)
Lemma table_decrypt_wide_closed T ct :
  (0 < cols T <= 100)%Z → ct ≠ [] → Forall (fun c => c ∈ upper_letters) ct →
  (Z.of_nat (length ct) <= cols T)%Z →
  decrypt T ct = Ret (reverse ct).
Proof.
  intros Hk Hne Hcap Hwide.
  assert (Forall (fun c => c ∈ upper_letters) (reverse ct)) as Hrc
    by (by rewrite reverse_Permutation).
  assert (normalize (reverse ct) = reverse ct) as Hnorm
    by (by apply normalize_of_capitals).
  assert (reverse ct ≠ []) as Hrne.
  { intros E. apply (f_equal length) in E. rewrite length_reverse in E.
    destruct ct; [done|]. cbn in E. lia. }
  assert (fits_int (length (reverse ct)) (cols T)) as Hfit.
  { unfold fits_int, INT_MAX. rewrite length_reverse. lia. }
  pose proof (table_round_trip_closed T (reverse ct)) as Hrt.
  rewrite Hnorm in Hrt. specialize (Hrt ltac:(lia) Hrne Hfit).
  rewrite table_encrypt_closed in Hrt; rewrite ?Hnorm; [|lia|done..].
  cbv zeta in Hrt. rewrite Hnorm, <- column_route_cells in Hrt.
  rewrite column_route_wide in Hrt.
  - by rewrite reverse_involutive in Hrt.
  - rewrite length_reverse. by apply length_pos.
  - rewrite length_reverse. lia.
Qed.

(** What the constructor raises. *)
Lemma table_new_throws k e :
  new k = Throw e ↔ (k <= 0 ∧ e = zero_key)%Z ∨ (100 < k ∧ e = large_key)%Z.
Proof.
  unfold new, getValidKey. destruct (Z.leb_spec k 0) as [Hle|Hgt].
  - split; [intros [= <-]; by left|]. intros [[_ ->]|[? _]]; [done|lia].
  - destruct (Z.ltb_spec k 0); [lia|]. destruct (Z.gtb_spec k 100) as [Hbig|Hok].
    + split; [intros [= <-]; by right|]. intros [[? _]|[_ ->]]; [lia|done].
    + split; [done|]. intros [[? _]|[? _]]; lia.
Qed.

(** What [decrypt] raises. *)
Lemma table_getValidCipherText_spec s :
  getValidCipherText s
  = match s with
    | [] => Throw empty_cipher_text
    | _ => if decide (Forall (fun c => c ∈ upper_letters) s) then Ret s
           else Throw invalid_cipher_text
    end.
Proof.
  destruct s as [|c s]; [done|]. destruct (decide _) as [H|H].
  - by apply table_getValidCipherText_ok.
  - apply not_Forall_Exists in H; [|apply _].
    apply Exists_exists in H as (x & Hx & Hnx).
    by apply (table_getValidCipherText_bad _ x).
Qed.

Lemma fill_cols_no_throw vt n rows cols fc st e :
  fill_cols vt n rows cols fc st ≠ Throw e.
Proof.
  unfold fill_cols. apply for_each_no_throw. intros a i e'.
  apply for_each_no_throw. intros. apply fill_cell_no_throw.
Qed.

Lemma read_rows_no_throw g rows cols e : read_rows g rows cols ≠ Throw e.
Proof.
  unfold read_rows. apply for_each_no_throw. intros a i e'.
  apply for_each_no_throw. intros. apply read_cell_no_throw.
Qed.

End TableLaws.

(** ** Laws of the shift engine *)

Module ShiftLaws.
Import modAlphaCipher.

(** *** The cyclic key *)

Lemma key_at_zip (f : Z → Z → Z) (k1 k2 : list Z) i :
  k1 ≠ [] → length k1 = length k2 →
  key_at (zip_with f k1 k2) i = f (key_at k1 i) (key_at k2 i).
Proof.
  intros Hne Hlen. unfold key_at. rewrite length_zip_with, <- Hlen, Nat.min_id.
  assert (i mod length k1 < length k1)%nat as Hlt
    by (apply Nat.mod_upper_bound; by destruct k1).
  destruct (lookup_lt_is_Some_2 k1 _ Hlt) as [x Hx].
  destruct (lookup_lt_is_Some_2 k2 (i mod length k1)%nat) as [y Hy]; [lia|].
  rewrite (list_lookup_total_correct _ _ _ Hx), (list_lookup_total_correct _ _ _ Hy).
  apply list_lookup_total_correct. by rewrite lookup_zip_with, Hx, Hy.
Qed.

Lemma lookup_repeated (k : list Z) n j :
  (j < n * length k)%nat →
  concat (replicate n k) !! j = k !! (j mod length k)%nat.
Proof.
  revert j. induction n as [|n IH]; intros j Hj; [lia|].
  cbn [replicate concat]. destruct (decide (j < length k)%nat) as [Hlt|Hge].
  - rewrite lookup_app_l by done. by rewrite Nat.mod_small.
  - rewrite lookup_app_r by lia. rewrite IH by lia. f_equal.
    replace j with ((j - length k) + 1 * length k)%nat at 2 by lia.
    by rewrite Nat.Div0.mod_add.
Qed.

Lemma key_at_repeated (k : list Z) n i :
  k ≠ [] → key_at (concat (replicate (S n) k)) i = key_at k i.
Proof.
  intros Hne. unfold key_at.
  assert (0 < length k)%nat as Hpos by (by apply length_pos).
  assert (length (concat (replicate (S n) k)) = (S n * length k)%nat) as Hlen.
  { clear. induction (S n) as [|m IH]; [done|].
    cbn [replicate concat]. rewrite length_app, IH. lia. }
  rewrite Hlen.
  assert (i mod (S n * length k) < S n * length k)%nat as Hlt
    by (apply Nat.mod_upper_bound; lia).
  assert ((i mod (S n * length k)) mod length k = i mod length k)%nat as Hmod.
  { rewrite (Nat.mul_comm (S n)), Nat.Div0.mod_mul_r.
    rewrite Nat.mul_comm, Nat.Div0.mod_add. apply Nat.Div0.mod_mod. }
  pose proof (lookup_repeated k (S n) _ Hlt) as E. rewrite Hmod in E.
  destruct (lookup_lt_is_Some_2 k (i mod length k)%nat) as [x Hx];
    [by apply Nat.mod_upper_bound; lia|].
  rewrite Hx in E.
  by rewrite (list_lookup_total_correct _ _ _ Hx), (list_lookup_total_correct _ _ _ E).
Qed.

(** *** Arithmetic of the transform *)

Lemma mod_unshift_inv p k :
  0 <= p < 33 → 0 <= k < 33 → ((p + 33 - k) mod 33 + k) mod 33 = p.
Proof.
  intros Hp Hk. destruct (Z.lt_ge_cases p k) as [Hlt|Hge].
  - rewrite (Z.mod_small (p + 33 - k)) by lia.
    replace (p + 33 - k + k) with (p + 1 * 33) by lia.
    rewrite Z.mod_add by lia. apply Z.mod_small. lia.
  - replace ((p + 33 - k) mod 33) with (p - k).
    + replace (p - k + k) with p by lia. apply Z.mod_small. lia.
    + apply (Z.mod_unique _ _ 1); lia.
Qed.

Lemma unshift_text_capitals key txt :
  Forall (fun c => c ∈ upper_letters) (unshift_text 33 key txt).
Proof.
  apply Forall_lookup. intros i x Hx. unfold unshift_text in Hx.
  rewrite list_lookup_imap in Hx. destruct (txt !! i); [|done].
  injection Hx as <-. apply letter_at_capital, mod33_range.
Qed.

Lemma shift_unshift key txt :
  key ≠ [] → Forall in_alphabet key → Forall (fun c => c ∈ upper_letters) txt →
  shift_text 33 key (unshift_text 33 key txt) = txt.
Proof.
  intros Hk Hrange Hall. apply list_eq. intros i.
  unfold unshift_text, shift_text. rewrite !list_lookup_imap.
  destruct (txt !! i) as [c|] eqn:Hc; [|done]. cbn. f_equal.
  pose proof (Forall_lookup_1 _ _ _ _ Hall Hc) as Hcap.
  pose proof (alphabet_index_range c Hcap) as Hp.
  pose proof (key_at_range key i Hk Hrange) as Hki. unfold in_alphabet in Hki.
  rewrite index_letter_at by apply mod33_range.
  rewrite <- (letter_at_index c Hcap) at 2. f_equal.
  by apply mod_unshift_inv.
Qed.

Lemma shift_shift k1 k2 txt :
  k1 ≠ [] → length k1 = length k2 →
  shift_text 33 k2 (shift_text 33 k1 txt)
  = shift_text 33 (zip_with (fun a b => (a + b) mod 33) k1 k2) txt.
Proof.
  intros Hne Hlen. apply list_eq. intros i.
  unfold shift_text. rewrite !list_lookup_imap.
  destruct (txt !! i) as [c|]; [|done]. cbn. f_equal. f_equal.
  rewrite index_letter_at by apply mod33_range.
  rewrite key_at_zip by done.
  rewrite Z.add_mod_idemp_l, Z.add_mod_idemp_r by lia. f_equal. lia.
Qed.

Lemma length_shift_text m key txt : length (shift_text m key txt) = length txt.
Proof. apply length_imap. Qed.

Lemma length_unshift_text m key txt : length (unshift_text m key txt) = length txt.
Proof. apply length_imap. Qed.

Lemma nonempty_length {A} (l1 l2 : list A) : length l1 = length l2 → l2 ≠ [] → l1 ≠ [].
Proof. intros E H ->. by destruct l2. Qed.

(** *** The two [convert]s *)

Section Converts.
Context (L : Locale).

Lemma convert_s_app s1 s2 :
  convert_s L fillAlphaNum (s1 ++ s2)
  = convert_s L fillAlphaNum s1 ++ convert_s L fillAlphaNum s2.
Proof.
  induction s1 as [|c s1 IH]; [done|].
  rewrite <- app_comm_cons, !convert_s_cons, IH.
  by destruct (is_upper_letter _).
Qed.

Lemma convert_s_repeated s n :
  convert_s L fillAlphaNum (concat (replicate n s))
  = concat (replicate n (convert_s L fillAlphaNum s)).
Proof.
  induction n as [|n IH]; [done|]. cbn [replicate concat].
  by rewrite convert_s_app, IH.
Qed.

(** [convert] of a string, on any string: the positions of its
    normalization. *)
Lemma convert_s_normalize s :
  capitals_fixed L → foreign_kept_foreign L →
  convert_s L fillAlphaNum s = alphabet_index <$> normalize s.
Proof.
  intros H1 H2. induction s as [|c s IH]; [done|].
  rewrite convert_s_cons, normalize_cons, IH.
  destruct (is_letter c) eqn:Hc.
  - assert (toUpper L c = fold_upper c) as ->.
    { apply is_letter_true in Hc as [Hc|Hc].
      - by rewrite toUpper_capital, fold_upper_capital.
      - by apply toUpper_small. }
    unfold is_upper_letter. rewrite bool_decide_true; [done|].
    by apply fold_upper_letter.
  - pose proof Hc as [_ Hl]%is_letter_false.
    rewrite (toUpper_other L c Hl). unfold is_upper_letter.
    rewrite bool_decide_false; [done|].
    specialize (H2 c Hc). by apply is_letter_false in H2 as [? _].
Qed.

Lemma convert_kept_letters s :
  capitals_fixed L → Forall (fun c => is_letter c = true) s →
  convert_s L fillAlphaNum (kept L <$> s) = alphabet_index <$> normalize s.
Proof.
  intros H1. induction 1 as [|c s Hc _ IH]; [done|].
  rewrite fmap_cons, convert_s_cons, normalize_cons, IH, Hc.
  rewrite (toUpper_kept_letter L c H1 Hc).
  unfold is_upper_letter. rewrite bool_decide_true; [done|].
  by apply fold_upper_letter.
Qed.

Lemma convert_kept_normalize s :
  capitals_fixed L → foreign_kept_foreign L →
  convert_s L fillAlphaNum (kept L <$> s) = alphabet_index <$> normalize s.
Proof.
  intros H1 H2. induction s as [|c s IH]; [done|].
  rewrite fmap_cons, convert_s_cons, normalize_cons, IH.
  destruct (is_letter c) eqn:Hc.
  - rewrite (toUpper_kept_letter L c H1 Hc).
    unfold is_upper_letter. rewrite bool_decide_true; [done|].
    by apply fold_upper_letter.
  - unfold is_upper_letter. rewrite bool_decide_false; [done|].
    by apply toUpper_kept_foreign.
Qed.

(** [convert] of a vector drops the indices outside the alphabet. *)
Lemma convert_v_filter v :
  convert_v v = letter_at <$> filter in_alphabet v.
Proof.
  induction v as [|p v IH]; [done|]. cbn [convert_v].
  change (to_int (Z.of_nat (length numAlpha))) with 33.
  rewrite filter_cons. unfold in_alphabet at 1.
  destruct (decide (0 <= p < 33)) as [Hp|Hp].
  - rewrite (proj2 (andb_true_iff _ _)) by (split; lia).
    unfold numAlpha. by rewrite (lookup_letter_at p Hp), IH.
  - destruct ((0 <=? p) && (p <? 33)) eqn:E; [|done].
    apply andb_true_iff in E. lia.
Qed.

Lemma convert_vs v :
  capitals_fixed L →
  convert_s L fillAlphaNum (convert_v v) = filter in_alphabet v.
Proof.
  intros H1. rewrite convert_v_filter.
  assert (Forall in_alphabet (filter in_alphabet v)) as Hr.
  { apply Forall_forall. by intros x [? _]%list_elem_of_filter. }
  induction Hr as [|p w Hp _ IH]; [done|].
  rewrite fmap_cons, convert_s_cons.
  rewrite (toUpper_capital L _ H1) by (by apply letter_at_capital).
  unfold is_upper_letter. rewrite bool_decide_true by (by apply letter_at_capital).
  by rewrite index_letter_at, IH.
Qed.

Lemma letter_at_index_fmap s :
  Forall (fun c => c ∈ upper_letters) s → letter_at <$> (alphabet_index <$> s) = s.
Proof.
  induction 1 as [|c s Hc _ IH]; [done|].
  by rewrite !fmap_cons, letter_at_index, IH.
Qed.

Lemma convert_sv s :
  capitals_fixed L → foreign_kept_foreign L →
  convert_v (convert_s L fillAlphaNum s) = normalize s.
Proof.
  intros H1 H2. rewrite convert_v_range by apply convert_s_range.
  rewrite convert_s_normalize by done.
  apply letter_at_index_fmap, normalize_capitals.
Qed.

End Converts.

(** *** The constructor *)

Section Constructor.
Context (L : Locale).

Lemma checkKey_spec s :
  checkKey L s
  = if forallb (iswalpha L) s then Ret (kept L <$> s) else Throw invalid_key.
Proof.
  induction s as [|c s IH]; [done|]. cbn [checkKey forallb].
  destruct (iswalpha L c); cbn [negb andb]; [|done].
  rewrite IH. by destruct (forallb _ s).
Qed.

Lemma shift_new_spec skey :
  new L skey
  = match skey with
    | [] => Throw empty_key
    | _ => if forallb (iswalpha L) skey
           then Ret {| alphaNum := fillAlphaNum;
                       key := convert_s L fillAlphaNum (kept L <$> skey) |}
           else Throw invalid_key
    end.
Proof.
  unfold new, getValidKey. destruct skey as [|c s]; [done|].
  rewrite checkKey_spec. by destruct (forallb _ _).
Qed.

Lemma forallb_false_Exists (P : Z → bool) s :
  forallb P s = false ↔ Exists (fun c => P c = false) s.
Proof.
  induction s as [|c s IH]; cbn [forallb].
  - split; [done|]. by intros H%Exists_nil.
  - rewrite Exists_cons, andb_false_iff, IH. done.
Qed.

Lemma forallb_true_Forall (P : Z → bool) s :
  forallb P s = true ↔ Forall (fun c => P c = true) s.
Proof.
  induction s as [|c s IH]; cbn [forallb].
  - split; [constructor|done].
  - rewrite Forall_cons, andb_true_iff, IH. done.
Qed.

Lemma shift_new_throws skey e :
  new L skey = Throw e ↔
  (skey = [] ∧ e = empty_key)
  ∨ (e = invalid_key ∧ Exists (fun c => iswalpha L c = false) skey).
Proof.
  rewrite shift_new_spec. destruct skey as [|c s].
  - split.
    + intros [= <-]. by left.
    + intros [[_ ->]|[_ H]]; [done|]. by apply Exists_nil in H.
  - destruct (forallb _ _) eqn:E.
    + split; [done|]. intros [[? _]|[_ H]]; [done|].
      apply forallb_false_Exists in H. congruence.
    + split.
      * intros [= <-]. right. split; [done|]. by apply forallb_false_Exists.
      * by intros [[? _]|[-> _]].
Qed.

Lemma shift_new_accepts skey :
  skey ≠ [] → Forall (fun c => iswalpha L c = true) skey →
  new L skey = Ret {| alphaNum := fillAlphaNum;
                      key := convert_s L fillAlphaNum (kept L <$> skey) |}.
Proof.
  intros Hne Hall. rewrite shift_new_spec. destruct skey; [done|].
  by rewrite (proj2 (forallb_true_Forall _ _) Hall).
Qed.

Lemma shift_new_key skey C :
  new L skey = Ret C →
  alphaNum C = fillAlphaNum ∧ key C = convert_s L fillAlphaNum (kept L <$> skey).
Proof.
  rewrite shift_new_spec. destruct skey; [done|].
  destruct (forallb _ _); [|done]. by intros [= <-].
Qed.

End Constructor.

(** *** [encrypt] and [decrypt] as maps over the validated text *)

Section Maps.
Context (L : Locale).

Lemma shift_encrypt_map skey C text :
  new L skey = Ret C → key C ≠ [] →
  encrypt L C text
  = valid ← getValidOpenText L text;
    Ret (letter_at <$> imap (fun i p => (p + key_at (key C) i) mod 33)
                            (convert_s L fillAlphaNum valid)).
Proof.
  intros Hnew Hkey. pose proof (key_in_alphabet _ _ _ Hnew) as Hrange.
  apply shift_new_key in Hnew as [Hmap _].
  unfold encrypt. destruct (getValidOpenText L text) as [valid| |]; [|done..].
  cbn [mbind outcome_bind]. rewrite Hmap.
  rewrite (encrypt_loop C Hkey Hrange) by apply convert_s_range.
  cbn [mbind outcome_bind]. rewrite convert_v_range; [done|].
  apply imap_range. intros. apply mod33_range.
Qed.

Lemma shift_decrypt_map skey C text :
  new L skey = Ret C → key C ≠ [] →
  decrypt L C text
  = valid ← getValidCipherText L text;
    Ret (letter_at <$> imap (fun i p => (p + 33 - key_at (key C) i) mod 33)
                            (convert_s L fillAlphaNum valid)).
Proof.
  intros Hnew Hkey. pose proof (key_in_alphabet _ _ _ Hnew) as Hrange.
  apply shift_new_key in Hnew as [Hmap _].
  unfold decrypt. destruct (getValidCipherText L text) as [valid| |]; [|done..].
  cbn [mbind outcome_bind]. rewrite Hmap.
  rewrite (decrypt_loop C Hkey Hrange) by apply convert_s_range.
  cbn [mbind outcome_bind]. rewrite convert_v_range; [done|].
  apply imap_range. intros. apply mod33_range.
Qed.

(** A text of Russian letters needs no law on foreign characters. *)
Lemma openLetters_alphabetic s :
  Forall (fun c => iswalpha L c = true) s → openLetters L s = kept L <$> s.
Proof.
  induction 1 as [|c s Hc _ IH]; [done|]. cbn [openLetters]. by rewrite Hc, IH.
Qed.

Lemma shift_encrypt_letters skey C text :
  capitals_fixed L → letters_alphabetic L →
  new L skey = Ret C → key C ≠ [] →
  text ≠ [] → Forall (fun c => is_letter c = true) text →
  encrypt L C text = Ret (shift_text 33 (key C) (normalize text)).
Proof.
  intros H1 H3 Hnew Hkey Hne Hall.
  rewrite (shift_encrypt_map skey) by done.
  unfold getValidOpenText. rewrite openLetters_alphabetic.
  2:{ eapply Forall_impl; [exact Hall|]. intros c Hc. by apply H3. }
  destruct text as [|c s]; [done|]. rewrite fmap_cons. rewrite <- fmap_cons.
  cbn [mbind outcome_bind]. rewrite convert_kept_letters by done.
  f_equal. unfold shift_text. by rewrite fmap_imap, imap_fmap.
Qed.

(** What [decrypt] raises. *)
Lemma decrypt_step_no_throw C w i e : decrypt_step C w i ≠ Throw e.
Proof.
  unfold decrypt_step. destruct (length (key C) =? 0)%nat; [done|].
  by destruct (w !! i), (key C !! (i mod length (key C))%nat).
Qed.

End Maps.

(** *** The table [alphaNum] *)

Lemma alphaNum_inverse c i :
  fillAlphaNum !! c = Some i ↔ 0 <= i < 33 ∧ numAlpha !! Z.to_nat i = Some c.
Proof.
  rewrite alphaNum_lookup. unfold is_upper_letter, numAlpha. case_bool_decide as Hc.
  - split.
    + intros [= <-]. split; [by apply alphabet_index_range|].
      rewrite lookup_letter_at by (by apply alphabet_index_range).
      by rewrite letter_at_index.
    + intros [Hi Hl]. rewrite lookup_letter_at in Hl by done.
      injection Hl as <-. by rewrite index_letter_at.
  - split; [done|]. intros [_ Hl]. exfalso. apply Hc.
    by eapply list_elem_of_lookup_2.
Qed.

Lemma alphaNum_size : size fillAlphaNum = 33%nat.
Proof.
  unfold size, map_size.
  by vm_compute.
Qed.

(** *** The empty key and the zero key *)

Section EmptyKey.
Context (L : Locale).

Lemma convert_open_nonempty text :
  capitals_fixed L → letters_alphabetic L → normalize text ≠ [] →
  convert_s L fillAlphaNum (openLetters L text) ≠ [].
Proof.
  intros H1 H3. induction text as [|c s IH]; [done|].
  rewrite normalize_cons. cbn [openLetters]. destruct (is_letter c) eqn:Hc.
  - intros _. rewrite (H3 c Hc). fold (kept L c).
    rewrite convert_s_cons, (toUpper_kept_letter L c H1 Hc).
    unfold is_upper_letter. by rewrite bool_decide_true by (by apply fold_upper_letter).
  - intros Hne. destruct (iswalpha L c); [|by apply IH].
    rewrite convert_s_cons. destruct (is_upper_letter _); [done|by apply IH].
Qed.





Lemma zero_key_derived skey :
  capitals_fixed L → Forall (fun c => c = L_A ∨ c = L_a) skey →
  convert_s L fillAlphaNum (kept L <$> skey) = replicate (length skey) 0.
Proof.
  intros H1 Hall. rewrite convert_kept_letters; [|done|].
  - induction Hall as [|c s Hc _ IH]; [done|].
    rewrite normalize_cons.
    assert (is_letter c = true ∧ alphabet_index (fold_upper c) = 0) as [-> E0]
      by (destruct Hc as [-> | ->]; by vm_compute).
    by rewrite fmap_cons, E0, IH.
  - eapply Forall_impl; [exact Hall|]. by intros c [-> | ->].
Qed.

End EmptyKey.

(** *** [encrypt] on the letters that the engine reads *)

Lemma shift_text_indices m k v :
  Forall in_alphabet v →
  shift_text m k (letter_at <$> v)
  = letter_at <$> imap (fun i p => (p + key_at k i) mod m) v.
Proof.
  intros Hv. unfold shift_text. rewrite imap_fmap, fmap_imap.
  apply imap_ext. intros i p Hp. cbn.
  by rewrite index_letter_at by (by apply (Forall_lookup_1 _ _ _ _ Hv Hp)).
Qed.

Section OwnText.
Context (L : Locale).

Lemma shift_encrypt_own skey C text :
  new L skey = Ret C → key C ≠ [] →
  encrypt L C text
  = valid ← getValidOpenText L text;
    Ret (shift_text 33 (key C) (letter_at <$> convert_s L fillAlphaNum valid)).
Proof.
  intros Hnew Hkey. rewrite (shift_encrypt_map L skey C) by done.
  destruct (getValidOpenText L text) as [valid| |]; [|done..].
  cbn [mbind outcome_bind]. by rewrite shift_text_indices by apply convert_s_range.
Qed.

(** A text with a letter of the alphabet is validated, and the engine reads
    at least one letter in it. *)
Lemma shift_open_text text :
  capitals_fixed L → letters_alphabetic L → normalize text ≠ [] →
  ∃ valid, getValidOpenText L text = Ret valid
           ∧ convert_s L fillAlphaNum valid ≠ [].
Proof.
  intros H1 H3 Hne. exists (openLetters L text). split.
  - unfold getValidOpenText.
    pose proof (openLetters_nonempty L text H3 Hne) as Hopen.
    by destruct (openLetters L text).
  - by apply convert_open_nonempty.
Qed.

End OwnText.

End ShiftLaws.

(** ** The reports of the demonstration programs *)

Module ProgramFacts.
Import TableLaws ShiftLaws.

Lemma try_catch_no_throw {A} (body : outcome A) handler e :
  (∀ e', handler e' ≠ Throw e) → try_catch body handler ≠ Throw e.
Proof. intros H. destruct body; cbn; [done|apply H|done]. Qed.

Section CheckFacts.
Context (L : Locale) (towlower : Z → Z).

Lemma check_no_throw Text skey d e : AlphaMain.check L towlower Text skey d ≠ Throw e.
Proof. unfold AlphaMain.check. by apply try_catch_no_throw. Qed.

Lemma check_key_error Text skey d e :
  modAlphaCipher.new L skey = Throw e →
  AlphaMain.check L towlower Text skey d
  = Ret [put_wide (wide "Error: "); put_narrow (what e); put_endl; put_endl].
Proof. intros E. unfold AlphaMain.check. by rewrite E. Qed.

Lemma check_text_error Text skey C d e :
  modAlphaCipher.new L skey = Ret C →
  modAlphaCipher.encrypt L C Text = Throw e →
  AlphaMain.check L towlower Text skey d
  = Ret [put_wide (wide "Error: "); put_narrow (what e); put_endl; put_endl].
Proof.
  intros E1 E2. unfold AlphaMain.check. rewrite E1. cbn [mbind outcome_bind].
  by rewrite E2.
Qed.

End CheckFacts.

Section TestFacts.

Lemma test_no_throw text k e : TableMain.test text k ≠ Throw e.
Proof. unfold TableMain.test. by apply try_catch_no_throw. Qed.

Lemma test_key_error text k e :
  Table.new k = Throw e →
  TableMain.test text k
  = Ret [put_wide (wide "Error with key "); put_int k;
         put_wide (wide " and text '"); put_wide text;
         put_wide (wide "': "); put_narrow (what e); put_endl; put_endl].
Proof. intros E. unfold TableMain.test. by rewrite E. Qed.

Lemma test_text_error text k :
  1 <= k <= 100 → normalize text = [] →
  TableMain.test text k
  = Ret [put_wide (wide "Error with key "); put_int k;
         put_wide (wide " and text '"); put_wide text;
         put_wide (wide "': ");
         put_narrow "Empty text: no valid Russian letters"; put_endl; put_endl].
Proof.
  intros Hk Hn. unfold TableMain.test. rewrite table_new_spec by done.
  cbn [mbind outcome_bind].
  by rewrite (proj2 (table_encrypt_throws _ text Table.empty_text)).
Qed.

(** Within the [int] range every call returns a report. *)
Lemma test_returns text k :
  fits_int (length (normalize text)) k → ∃ r, TableMain.test text k = Ret r.
Proof.
  intros Hfit.
  destruct (decide (k <= 0)) as [Hle|Hgt].
  { eexists. apply (test_key_error text k Table.zero_key).
    apply table_new_throws. by left. }
  destruct (decide (100 < k)) as [Hbig|Hok].
  { eexists. apply (test_key_error text k Table.large_key).
    apply table_new_throws. by right. }
  destruct (decide (normalize text = [])) as [Hn|Hne].
  { eexists. apply test_text_error; [lia|done]. }
  pose proof (table_round_trip_closed {| Table.cols := k |} text) as Hrt.
  cbn [Table.cols] in Hrt. specialize (Hrt ltac:(lia) Hne Hfit).
  unfold TableMain.test. rewrite table_new_spec by lia.
  cbn [mbind outcome_bind].
  destruct (Table.encrypt {| Table.cols := k |} text) as [c| |]; [|done..].
  cbn [mbind outcome_bind] in *. rewrite Hrt. cbn [mbind outcome_bind try_catch].
  by eexists.
Qed.

End TestFacts.

Lemma utf8_lowers_capitals : lowers_capitals utf8_ru utf8_towlower.
Proof.
  intros c Hc.
  apply negb_true_iff.
  apply (forallb_elem (fun c => negb (utf8_iswupper (utf8_towlower c))) upper_letters);
    [by vm_compute|done].
Qed.

Lemma glibc_lowers_capitals : lowers_capitals glibc_ru utf8_towlower.
Proof.
  intros c Hc.
  apply negb_true_iff.
  apply (forallb_elem (fun c => negb (utf8_iswupper (utf8_towlower c))) upper_letters);
    [by vm_compute|done].
Qed.

Lemma utf8_latin_capitals : latin_capitals utf8_ru.
Proof.
  intros c Hc. cbn [iswupper towupper utf8_ru].
  unfold utf8_iswupper, utf8_towupper, in_range, L_a, L_ya, L_yo.
  destruct (Z.leb_spec 65 c); [|lia]. destruct (Z.leb_spec c 90); [|lia].
  destruct (Z.leb_spec 97 c); [lia|]. destruct (Z.leb_spec 1072 c); [lia|].
  destruct (Z.eqb_spec c 1105); [lia|]. split; reflexivity.
Qed.

Lemma utf8_latin_alphabetic : latin_alphabetic utf8_ru.
Proof.
  intros c Hc. cbn [iswalpha iswlower utf8_ru].
  unfold utf8_iswupper, utf8_iswlower, in_range, L_a, L_ya, L_yo.
  destruct (Z.leb_spec 65 c); [|lia]. destruct (Z.leb_spec c 90); [|lia].
  destruct (Z.leb_spec 97 c); [lia|]. destruct (Z.leb_spec 1072 c); [lia|].
  destruct (Z.eqb_spec c 1105); [lia|]. split; reflexivity.
Qed.

End ProgramFacts.

Import TableLaws ShiftLaws ProgramFacts.

(** ** Engines of the examples *)

Lemma engine_SHCHSB_new : modAlphaCipher.new utf8_ru key_SHCHSB = Ret engine_SHCHSB.
Proof. vm_compute. reflexivity. Qed.

Lemma engine_MIRMIR_new :
  modAlphaCipher.new utf8_ru (repeated 2 key_MIR) = Ret engine_MIRMIR.
Proof. vm_compute. reflexivity. Qed.

Lemma engine_A_new : modAlphaCipher.new utf8_ru key_A = Ret engine_A.
Proof. vm_compute. reflexivity. Qed.

Lemma engine_mir_new : modAlphaCipher.new utf8_ru key_mir = Ret engine_MIR.
Proof. vm_compute. reflexivity. Qed.


(** The same keys build the same engines in the locale with the aliases of
    glibc. *)
Lemma engine_SHCHSB_glibc : modAlphaCipher.new glibc_ru key_SHCHSB = Ret engine_SHCHSB.
Proof. vm_compute. reflexivity. Qed.

Lemma engine_A_glibc : modAlphaCipher.new glibc_ru key_A = Ret engine_A.
Proof. vm_compute. reflexivity. Qed.

(** ** Properties of the transposition engine *)

(** X1.  The constructor of the transposition engine accepts exactly the
    column counts 1 to 100.  A count of zero or below is refused with
    "Invalid key: cannot be zero", also when it is negative: the message
    "Invalid key: cannot be negative" is never raised.  A count above 100
    is refused with "Invalid key: too large". *)
Theorem table_constructor_range (k : Z) :
  (1 <= k <= 100 → Table.new k = Ret {| Table.cols := k |})
  ∧ (k <= 0 → Table.new k = Throw Table.zero_key)
  ∧ (100 < k → Table.new k = Throw Table.large_key)
  ∧ ¬ (Table.new k = Throw Table.negative_key)
  ∧ ∀ T, Table.new k = Ret T → 1 <= k <= 100 ∧ Table.cols T = k.
Proof.
  split; [apply table_new_spec|]. split; [|split; [|split]].
  - intros Hk. apply table_new_throws. by left.
  - intros Hk. apply table_new_throws. by right.
  - intros [[_ ?]|[_ ?]]%table_new_throws; done.
  - intros T. apply table_new_inv.
Qed.

(** X2.  The transposition engine's [encrypt] undoes its [decrypt]: for an
    engine built by the constructor, decrypting a valid ciphertext
    (non-empty, capitals of the alphabet only, within the [int] range) and
    encrypting the result gives the ciphertext back. *)
Theorem table_decrypt_then_encrypt (k : Z) (T : Table.t) (cipher : list Z) :
  Table.new k = Ret T →
  cipher ≠ [] → Forall (fun c => c ∈ upper_letters) cipher →
  fits_int (length cipher) k →
  Table.decrypt T cipher ≫= Table.encrypt T = Ret cipher.
Proof.
  intros [Hk HT]%table_new_inv Hne Hcap Hfit.
  apply table_reverse_trip_closed; rewrite ?HT; [lia|done..].
Qed.

(** X2 at four columns and the ciphertext "АБВГД". *)
Lemma table_decrypt_then_encrypt_witness :
  Table.new 4 = Ret {| Table.cols := 4 |}
  ∧ Table.decrypt {| Table.cols := 4 |} txt_ABVGD ≫= Table.encrypt {| Table.cols := 4 |}
    = Ret txt_ABVGD.
Proof.
  assert (Table.new 4 = Ret {| Table.cols := 4 |}) as HT by reflexivity.
  split; [exact HT|].
  apply (table_decrypt_then_encrypt 4 _ txt_ABVGD HT).
  - discriminate.
  - apply capitals_sample. vm_compute. reflexivity.
  - vm_compute. discriminate.
Defined.

(** X3.  The transposition engine's [encrypt] sees a text only through its
    normalization: two texts with the same normalization get the same
    result (ciphertext or error), and so do a text and its normalization. *)
Theorem table_encrypt_normal_form (k : Z) (T : Table.t) (t1 t2 : list Z) :
  Table.new k = Ret T → normalize t1 = normalize t2 →
  Table.encrypt T t1 = Table.encrypt T t2
  ∧ Table.encrypt T (normalize t1) = Table.encrypt T t1.
Proof.
  intros _ E. unfold Table.encrypt.
  rewrite !table_getValidOpenText_spec, normalize_idemp, E. done.
Qed.

(** X3 at three columns and the texts "привет, мир!" and "ПРИВЕТМИР". *)
Lemma table_encrypt_normal_form_witness :
  normalize txt_privet_mir = normalize txt_PRIVETMIR
  ∧ Table.encrypt {| Table.cols := 3 |} txt_privet_mir
    = Table.encrypt {| Table.cols := 3 |} txt_PRIVETMIR.
Proof.
  assert (Table.new 3 = Ret {| Table.cols := 3 |}) as HT by reflexivity.
  assert (normalize txt_privet_mir = normalize txt_PRIVETMIR) as E
    by (vm_compute; reflexivity).
  split; [exact E|].
  exact (proj1 (table_encrypt_normal_form 3 _ txt_privet_mir txt_PRIVETMIR HT E)).
Defined.

(** X4.  When the grid is at least as wide as the ciphertext, [decrypt] of
    the transposition engine returns the ciphertext reversed. *)
Theorem table_decrypt_wide_reverses (k : Z) (T : Table.t) (cipher : list Z) :
  Table.new k = Ret T →
  cipher ≠ [] → Forall (fun c => c ∈ upper_letters) cipher →
  Z.of_nat (length cipher) <= k →
  Table.decrypt T cipher = Ret (reverse cipher).
Proof.
  intros [Hk HT]%table_new_inv Hne Hcap Hwide.
  apply table_decrypt_wide_closed; rewrite ?HT; [lia|done..].
Qed.

(** X4 at ten columns: "ТЕВИРП" is decrypted to "ПРИВЕТ". *)
Lemma table_decrypt_wide_reverses_witness :
  Table.new 10 = Ret {| Table.cols := 10 |}
  ∧ Table.decrypt {| Table.cols := 10 |} txt_TEVIRP = Ret txt_PRIVET.
Proof.
  assert (Table.new 10 = Ret {| Table.cols := 10 |}) as HT by reflexivity.
  split; [exact HT|].
  apply (table_decrypt_wide_reverses 10 _ txt_TEVIRP HT).
  - discriminate.
  - apply capitals_sample. vm_compute. reflexivity.
  - vm_compute. discriminate.
Defined.

(** X5.  On an input within the [int] range, [decrypt] of the transposition
    engine raises "Empty cipher text" exactly on the empty input and
    "Invalid cipher text" exactly on an input holding a character that is
    not a capital of the alphabet; on every other input it returns a
    text. *)
Theorem table_decrypt_failures (k : Z) (T : Table.t) (s : list Z) (e : cipher_error) :
  Table.new k = Ret T → fits_int (length s) k →
  (Table.decrypt T s = Throw e ↔
   (s = [] ∧ e = Table.empty_cipher_text)
   ∨ (e = Table.invalid_cipher_text ∧ Exists (fun c => c ∉ upper_letters) s))
  ∧ (s ≠ [] → Forall (fun c => c ∈ upper_letters) s →
     ∃ p, Table.decrypt T s = Ret p).
Proof.
  intros [Hk HT]%table_new_inv Hfit. split.
  2:{ intros Hne Hcap. eexists.
      apply table_decrypt_closed; rewrite ?HT; [lia|done..]. }
  unfold Table.decrypt. rewrite table_getValidCipherText_spec.
  destruct s as [|c s].
  - cbn. split.
    + intros [= <-]. by left.
    + intros [[_ ->]|[_ H]]; [done|]. by apply Exists_nil in H.
  - destruct (decide _) as [H|H]; cbn [mbind outcome_bind].
    + split.
      * intros E. exfalso. destruct (_ =? _)%Z; [done|]. revert E. cbv zeta.
        destruct (Table.fill_cols _ _ _ _ _ _) as [st| |] eqn:E1; cbn [mbind outcome_bind].
        -- apply read_rows_no_throw.
        -- by apply fill_cols_no_throw in E1.
        -- done.
      * intros [[? _]|[_ Hex]]; [done|].
        exfalso. apply Exists_exists in Hex as (x & Hx & Hnx).
        by apply Hnx, (proj1 (Forall_forall _ _) H).
    + split.
      * intros [= <-]. right. split; [done|]. apply not_Forall_Exists in H; [done|apply _].
      * intros [[? _]|[-> _]]; done.
Qed.

(** X5 at three columns: the empty input is refused, the input "ПРИВЕТ" is
    decrypted. *)
Lemma table_decrypt_failures_witness :
  Table.new 3 = Ret {| Table.cols := 3 |}
  ∧ Table.decrypt {| Table.cols := 3 |} [] = Throw Table.empty_cipher_text
  ∧ ∃ p, Table.decrypt {| Table.cols := 3 |} txt_PRIVET = Ret p.
Proof.
  assert (Table.new 3 = Ret {| Table.cols := 3 |}) as HT by reflexivity.
  split; [exact HT|]. split.
  - apply (table_decrypt_failures 3 _ [] Table.empty_cipher_text HT).
    + vm_compute. discriminate.
    + left. split; reflexivity.
  - apply (table_decrypt_failures 3 _ txt_PRIVET Table.empty_cipher_text HT).
    + vm_compute. discriminate.
    + discriminate.
    + apply capitals_sample. vm_compute. reflexivity.
Defined.

(** ** Properties of the shift engine *)

(** X6.  The constructor of the shift engine returns an engine exactly for
    the non-empty key strings whose characters are all alphabetic for the
    locale; it raises "Empty key" exactly on the empty string and "Invalid
    key: non-alphabetic character" exactly on a non-empty string holding a
    character that is not alphabetic. *)
Theorem shift_constructor_accepts (L : Locale) (skey : list Z) :
  ((∃ C, modAlphaCipher.new L skey = Ret C)
   ↔ skey ≠ [] ∧ Forall (fun c => iswalpha L c = true) skey)
  ∧ (modAlphaCipher.new L skey = Throw modAlphaCipher.empty_key ↔ skey = [])
  ∧ (modAlphaCipher.new L skey = Throw modAlphaCipher.invalid_key
     ↔ skey ≠ [] ∧ Exists (fun c => iswalpha L c = false) skey).
Proof.
  split; [|split].
  - rewrite shift_new_spec. destruct skey as [|c s].
    + split; [by intros [C ?]|by intros [? _]].
    + destruct (forallb _ _) eqn:E.
      * split; [|by eexists]. intros _. split; [done|].
        by apply forallb_true_Forall.
      * split; [by intros [C ?]|]. intros [_ H%forallb_true_Forall]. congruence.
  - rewrite shift_new_throws. split.
    + by intros [[? _]|[? _]].
    + intros ->. by left.
  - rewrite shift_new_throws. split.
    + intros [[_ ?]|[_ H]]; [done|]. split; [|done]. intros ->.
      by apply Exists_nil in H.
    + intros [_ H]. by right.
Qed.

(** X7.  The derived key of the shift engine is the list of alphabet
    positions of the normalized key string, so that key strings with the
    same normalization ("мир" and "МИР") build the same engine.  This holds
    where upper-casing fixes the capitals, for a key string of Russian
    letters, and for every accepted key string where upper-casing also
    keeps foreign characters foreign. *)
Theorem shift_key_from_normalized (L : Locale) (skey : list Z) (C : modAlphaCipher.t) :
  capitals_fixed L →
  Forall (fun c => is_letter c = true) skey ∨ foreign_kept_foreign L →
  modAlphaCipher.new L skey = Ret C →
  modAlphaCipher.key C = alphabet_index <$> normalize skey.
Proof.
  intros H1 Hcase [_ ->]%shift_new_key. destruct Hcase as [Hall|H2].
  - by apply convert_kept_letters.
  - by apply convert_kept_normalize.
Qed.

(** X7 at the key "мир": it builds the engine of "МИР". *)
Lemma shift_key_from_normalized_witness :
  modAlphaCipher.new utf8_ru key_mir = Ret engine_MIR
  ∧ modAlphaCipher.key engine_MIR = alphabet_index <$> normalize key_mir.
Proof.
  split; [exact engine_mir_new|].
  apply (shift_key_from_normalized utf8_ru key_mir engine_MIR).
  - apply utf8_ru_russian.
  - left. repeat constructor.
  - exact engine_mir_new.
Defined.

(** X8.  The table [alphaNum] filled by the constructor is the inverse of
    indexing [numAlpha]: it has 33 entries and sends a character to [i]
    exactly when [i] is a position of the alphabet and the character is the
    letter at that position. *)
Theorem shift_alphaNum_inverse (L : Locale) (skey : list Z) (C : modAlphaCipher.t) :
  modAlphaCipher.new L skey = Ret C →
  size (modAlphaCipher.alphaNum C) = 33%nat
  ∧ ∀ c i, modAlphaCipher.alphaNum C !! c = Some i
           ↔ 0 <= i < 33 ∧ modAlphaCipher.numAlpha !! Z.to_nat i = Some c.
Proof.
  intros [-> _]%shift_new_key. split; [apply alphaNum_size|apply alphaNum_inverse].
Qed.

(** X8 at the engine of "МИР": the letter "Я" has the index 32. *)
Lemma shift_alphaNum_inverse_witness :
  modAlphaCipher.new utf8_ru key_MIR = Ret engine_MIR
  ∧ size (modAlphaCipher.alphaNum engine_MIR) = 33%nat
  ∧ modAlphaCipher.alphaNum engine_MIR !! L_YA = Some 32.
Proof.
  split; [exact engine_MIR_new|].
  destruct (shift_alphaNum_inverse utf8_ru key_MIR engine_MIR engine_MIR_new)
    as [Hsize Hinv].
  split; [exact Hsize|]. apply Hinv. split; [lia|reflexivity].
Defined.

(** X9.  The two overloads of [convert] of a constructed engine.  The one on
    vectors drops every index outside [0, 33) and maps the others to their
    letters; converting its result back gives the vector without the
    dropped indices.  Where upper-casing fixes the capitals and keeps
    foreign characters foreign, converting a string to indices and back
    gives the normalization of the string. *)
Theorem shift_convert_round_trip (L : Locale) (skey : list Z) (C : modAlphaCipher.t)
    (s v : list Z) :
  capitals_fixed L → modAlphaCipher.new L skey = Ret C →
  modAlphaCipher.convert_v v = letter_at <$> filter in_alphabet v
  ∧ modAlphaCipher.convert_s L (modAlphaCipher.alphaNum C) (modAlphaCipher.convert_v v)
    = filter in_alphabet v
  ∧ (foreign_kept_foreign L →
     modAlphaCipher.convert_v (modAlphaCipher.convert_s L (modAlphaCipher.alphaNum C) s)
     = normalize s).
Proof.
  intros H1 [-> _]%shift_new_key. split; [|split].
  - apply convert_v_filter.
  - by apply convert_vs.
  - intros H2. by apply convert_sv.
Qed.

(** X9 at the engine of "МИР", the vector [[5; 33; -1; 0]] and the string
    "привет, мир!". *)
Lemma shift_convert_round_trip_witness :
  modAlphaCipher.new utf8_ru key_MIR = Ret engine_MIR
  ∧ modAlphaCipher.convert_v [5; 33; -1; 0] = [1045; 1040]
  ∧ modAlphaCipher.convert_s utf8_ru (modAlphaCipher.alphaNum engine_MIR)
      (modAlphaCipher.convert_v [5; 33; -1; 0]) = [5; 0]
  ∧ modAlphaCipher.convert_v
      (modAlphaCipher.convert_s utf8_ru (modAlphaCipher.alphaNum engine_MIR)
         txt_privet_mir) = txt_PRIVETMIR.
Proof.
  split; [exact engine_MIR_new|].
  destruct (shift_convert_round_trip utf8_ru key_MIR engine_MIR txt_privet_mir
              [5; 33; -1; 0] (ru_capitals_fixed _ utf8_ru_russian) engine_MIR_new)
    as (H1 & H2 & H3).
  split; [exact H1|]. split; [exact H2|].
  exact (H3 (ru_foreign _ utf8_ru_russian)).
Defined.

(** X10.  The shift engine's [encrypt] undoes its [decrypt]: for an engine
    with a non-empty derived key, decrypting a non-empty ciphertext made of
    capitals of the alphabet and encrypting the result gives the ciphertext
    back. *)
Theorem shift_decrypt_then_encrypt (L : Locale) (skey : list Z)
    (C : modAlphaCipher.t) (cipher : list Z) :
  capitals_fixed L → capitals_upper L → letters_alphabetic L →
  modAlphaCipher.new L skey = Ret C → modAlphaCipher.key C ≠ [] →
  cipher ≠ [] → Forall (fun c => c ∈ upper_letters) cipher →
  modAlphaCipher.decrypt L C cipher ≫= modAlphaCipher.encrypt L C = Ret cipher.
Proof.
  intros H1 H4 H3 Hnew Hkey Hne Hall.
  rewrite (shift_decrypt_closed L skey C cipher) by done. cbn [mbind outcome_bind].
  pose proof (unshift_text_capitals (modAlphaCipher.key C) cipher) as Hcap.
  rewrite (shift_encrypt_letters L skey); [|done..| |].
  - rewrite normalize_of_capitals by done. f_equal.
    apply shift_unshift; [done|by eapply key_in_alphabet|done].
  - eapply nonempty_length; [apply length_unshift_text|done].
  - eapply Forall_impl; [exact Hcap|]. intros c Hc. apply is_letter_true. by left.
Qed.

(** X10 at the key "МИР" and the ciphertext "ОПЗБДС". *)
Lemma shift_decrypt_then_encrypt_witness :
  modAlphaCipher.new utf8_ru key_MIR = Ret engine_MIR
  ∧ modAlphaCipher.decrypt utf8_ru engine_MIR txt_OPZBDS
      ≫= modAlphaCipher.encrypt utf8_ru engine_MIR = Ret txt_OPZBDS.
Proof.
  split; [exact engine_MIR_new|].
  apply (shift_decrypt_then_encrypt utf8_ru key_MIR engine_MIR txt_OPZBDS).
  - apply utf8_ru_russian.
  - apply utf8_ru_russian.
  - apply utf8_ru_russian.
  - exact engine_MIR_new.
  - discriminate.
  - discriminate.
  - apply capitals_sample. vm_compute. reflexivity.
Defined.

(** X11.  Encrypting with one key and then with a second key of the same
    derived length is encrypting once with the key whose shifts are the
    sums, modulo 33, of the shifts of the two: for every text with a letter
    of the alphabet, in a locale where the Russian letters are alphabetic
    and upper-casing fixes the capitals. *)
Theorem shift_keys_add (L : Locale) (s1 s2 s3 : list Z)
    (C1 C2 C3 : modAlphaCipher.t) (text : list Z) :
  capitals_fixed L → letters_alphabetic L →
  modAlphaCipher.new L s1 = Ret C1 → modAlphaCipher.new L s2 = Ret C2 →
  modAlphaCipher.new L s3 = Ret C3 →
  modAlphaCipher.key C1 ≠ [] →
  length (modAlphaCipher.key C1) = length (modAlphaCipher.key C2) →
  modAlphaCipher.key C3 = add_keys (modAlphaCipher.key C1) (modAlphaCipher.key C2) →
  normalize text ≠ [] →
  modAlphaCipher.encrypt L C1 text ≫= modAlphaCipher.encrypt L C2
  = modAlphaCipher.encrypt L C3 text.
Proof.
  intros H1 H3 Hn1 Hn2 Hn3 Hk1 Hlen Hk3 Hne.
  assert (modAlphaCipher.key C2 ≠ []) as Hk2
    by (by eapply nonempty_length).
  assert (modAlphaCipher.key C3 ≠ []) as Hk3'.
  { eapply nonempty_length; [|exact Hk1]. rewrite Hk3. unfold add_keys.
    rewrite length_zip_with. lia. }
  rewrite (shift_encrypt_own L s1 C1 text), (shift_encrypt_own L s3 C3 text) by done.
  destruct (shift_open_text L text H1 H3 Hne) as (valid & -> & Hwork).
  cbn [mbind outcome_bind].
  set (t := letter_at <$> modAlphaCipher.convert_s L modAlphaCipher.fillAlphaNum valid).
  assert (t ≠ []) as Ht.
  { eapply nonempty_length; [|exact Hwork]. apply length_fmap. }
  pose proof (shift_text_capitals (modAlphaCipher.key C1) t) as Hcap.
  rewrite (shift_encrypt_letters L s2 C2); [|done..| |].
  - rewrite normalize_of_capitals by done. f_equal.
    rewrite Hk3. by apply shift_shift.
  - eapply nonempty_length; [apply length_shift_text|done].
  - eapply Forall_impl; [exact Hcap|]. intros c Hc. apply is_letter_true. by left.
Qed.

(** X11 in the locale with the aliases of glibc, at the keys "МИР"
    and "МИР", whose sum is the key "ЩСБ". *)
Lemma shift_keys_add_witness :
  modAlphaCipher.new glibc_ru key_MIR = Ret engine_MIR
  ∧ modAlphaCipher.new glibc_ru key_SHCHSB = Ret engine_SHCHSB
  ∧ modAlphaCipher.encrypt glibc_ru engine_MIR txt_privet_mir
      ≫= modAlphaCipher.encrypt glibc_ru engine_MIR
    = modAlphaCipher.encrypt glibc_ru engine_SHCHSB txt_privet_mir.
Proof.
  split; [exact engine_MIR_glibc|]. split; [exact engine_SHCHSB_glibc|].
  apply (shift_keys_add glibc_ru key_MIR key_MIR key_SHCHSB
           engine_MIR engine_MIR engine_SHCHSB txt_privet_mir).
  - exact glibc_ru_capitals_fixed.
  - exact glibc_ru_alphabetic.
  - exact engine_MIR_glibc.
  - exact engine_MIR_glibc.
  - exact engine_SHCHSB_glibc.
  - discriminate.
  - reflexivity.
  - reflexivity.
  - vm_compute. discriminate.
Defined.

(** X12.  A key string and the same string written several times in a row
    build engines that encrypt and decrypt alike: only the cycle of the key
    matters. *)
Theorem shift_repeated_key (L : Locale) (skey : list Z) (n : nat)
    (C1 C2 : modAlphaCipher.t) (text : list Z) :
  modAlphaCipher.new L skey = Ret C1 →
  modAlphaCipher.new L (repeated (S n) skey) = Ret C2 →
  modAlphaCipher.encrypt L C2 text = modAlphaCipher.encrypt L C1 text
  ∧ modAlphaCipher.decrypt L C2 text = modAlphaCipher.decrypt L C1 text.
Proof.
  intros Hn1 Hn2.
  assert (modAlphaCipher.key C2
          = concat (replicate (S n) (modAlphaCipher.key C1))) as Hkey.
  { apply shift_new_key in Hn1 as [_ ->]. apply shift_new_key in Hn2 as [_ ->].
    unfold repeated. rewrite <- convert_s_repeated. f_equal.
    generalize (S n). intros m. induction m as [|m IH]; [done|].
    cbn [replicate concat]. by rewrite fmap_app, IH. }
  destruct (decide (modAlphaCipher.key C1 = [])) as [E|Hne].
  - assert (C2 = C1) as ->; [|done].
    pose proof Hn1 as [Ha1 _]%shift_new_key. pose proof Hn2 as [Ha2 _]%shift_new_key.
    destruct C1 as [a1 k1], C2 as [a2 k2]. cbn in *. subst. f_equal.
    clear. cbn [app]. induction n as [|m IH]; [done|]. by cbn [replicate concat app].
  - assert (modAlphaCipher.key C2 ≠ []) as Hne2.
    { rewrite Hkey. cbn [replicate concat]. by destruct (modAlphaCipher.key C1). }
    rewrite (shift_encrypt_map L _ C2), (shift_encrypt_map L skey C1) by done.
    rewrite (shift_decrypt_map L _ C2), (shift_decrypt_map L skey C1) by done.
    split.
    + destruct (modAlphaCipher.getValidOpenText L text); [|done..].
      cbn [mbind outcome_bind]. do 2 f_equal. apply imap_ext. intros i p _.
      by rewrite Hkey, key_at_repeated.
    + destruct (modAlphaCipher.getValidCipherText L text); [|done..].
      cbn [mbind outcome_bind]. do 2 f_equal. apply imap_ext. intros i p _.
      by rewrite Hkey, key_at_repeated.
Qed.

(** X12 at the keys "МИР" and "МИРМИР". *)
Lemma shift_repeated_key_witness :
  modAlphaCipher.new utf8_ru key_MIR = Ret engine_MIR
  ∧ modAlphaCipher.new utf8_ru (repeated 2 key_MIR) = Ret engine_MIRMIR
  ∧ modAlphaCipher.encrypt utf8_ru engine_MIRMIR txt_privet_mir
    = modAlphaCipher.encrypt utf8_ru engine_MIR txt_privet_mir.
Proof.
  split; [exact engine_MIR_new|]. split; [exact engine_MIRMIR_new|].
  exact (proj1 (shift_repeated_key utf8_ru key_MIR 1 engine_MIR engine_MIRMIR
                  txt_privet_mir engine_MIR_new engine_MIRMIR_new)).
Defined.

(** X13.  Encrypting a text of [n] letters "А" (the letter of index zero)
    spells the key: the ciphertext is the first [n] letters of the derived
    key reused cyclically. *)
Theorem shift_known_plaintext (L : Locale) (skey : list Z) (C : modAlphaCipher.t)
    (n : nat) :
  capitals_fixed L → letters_alphabetic L →
  modAlphaCipher.new L skey = Ret C → modAlphaCipher.key C ≠ [] → (0 < n)%nat →
  modAlphaCipher.encrypt L C (replicate n L_A)
  = Ret (letter_at <$> cycled (modAlphaCipher.key C) n).
Proof.
  intros H1 H3 Hnew Hkey Hn.
  assert (Forall (fun c => c ∈ upper_letters) (replicate n L_A)) as Hcap.
  { apply Forall_replicate. by apply (bool_decide_eq_true (L_A ∈ upper_letters)). }
  rewrite (shift_encrypt_letters L skey C); [|done..| |].
  - rewrite normalize_of_capitals by done. f_equal.
    apply list_eq. intros i. unfold shift_text, cycled.
    rewrite list_lookup_imap, !list_lookup_fmap.
    destruct (decide (i < n)%nat) as [Hi|Hi].
    + rewrite lookup_replicate_2 by done.
      rewrite (proj2 (lookup_seq 0 n i i)) by (split; [done|lia]). cbn. do 2 f_equal.
      pose proof (key_at_range (modAlphaCipher.key C) i Hkey
                    (key_in_alphabet L _ _ Hnew)) as Hr.
      unfold in_alphabet in Hr. change (alphabet_index L_A) with 0.
      rewrite Z.add_0_l. by apply Z.mod_small.
    + rewrite (proj2 (lookup_ge_None _ _)) by (rewrite length_replicate; lia).
      by rewrite (proj2 (lookup_ge_None _ _)) by (rewrite length_seq; lia).
  - destruct n; [lia|done].
  - eapply Forall_impl; [exact Hcap|]. intros c Hc. apply is_letter_true. by left.
Qed.

(** X13 at the key "МИР" and five letters "А": the ciphertext is "МИРМИ". *)
Lemma shift_known_plaintext_witness :
  modAlphaCipher.new utf8_ru key_MIR = Ret engine_MIR
  ∧ modAlphaCipher.encrypt utf8_ru engine_MIR (replicate 5 L_A)
    = Ret [1052; 1048; 1056; 1052; 1048].
Proof.
  split; [exact engine_MIR_new|].
  apply (shift_known_plaintext utf8_ru key_MIR engine_MIR 5).
  - apply utf8_ru_russian.
  - apply utf8_ru_russian.
  - exact engine_MIR_new.
  - discriminate.
  - lia.
Defined.

(** X14.  A key string made of the letter "А" (of either case) changes
    nothing: the constructor accepts it, [encrypt] returns the normalized
    text of every text that has a letter of the alphabet and holds no alias,
    and [decrypt] returns a valid ciphertext as it is - in a locale where
    the Russian letters are alphabetic and the capitals are upper-case and
    fixed by upper-casing. *)
Theorem shift_zero_key (L : Locale) (skey text cipher : list Z) :
  capitals_fixed L → letters_alphabetic L → capitals_upper L →
  skey ≠ [] → Forall (fun c => c = L_A ∨ c = L_a) skey →
  normalize text ≠ [] → no_alias L text →
  cipher ≠ [] → Forall (fun c => c ∈ upper_letters) cipher →
  ∃ C, modAlphaCipher.new L skey = Ret C
       ∧ modAlphaCipher.encrypt L C text = Ret (normalize text)
       ∧ modAlphaCipher.decrypt L C cipher = Ret cipher.
Proof.
  intros H1 H3 H4 Hsne Hall Hne Hclean Hcne Hcap.
  assert (modAlphaCipher.new L skey
          = Ret {| modAlphaCipher.alphaNum := modAlphaCipher.fillAlphaNum;
                   modAlphaCipher.key := replicate (length skey) 0 |})
    as Hnew.
  { rewrite shift_new_accepts; [|done|].
    - by rewrite zero_key_derived.
    - eapply Forall_impl; [exact Hall|]. intros c Hc. apply H3.
      by destruct Hc as [-> | ->]. }
  eexists. split; [exact Hnew|].
  set (C := {| modAlphaCipher.alphaNum := modAlphaCipher.fillAlphaNum;
               modAlphaCipher.key := replicate (length skey) 0 |}) in *.
  assert (modAlphaCipher.key C ≠ []) as Hkey by (cbn; by destruct skey).
  assert (∀ i, key_at (modAlphaCipher.key C) i = 0) as Hk.
  { intros i. pose proof (key_at_lookup (modAlphaCipher.key C) i Hkey) as Hl.
    cbn [modAlphaCipher.key C] in Hl.
    apply lookup_replicate in Hl as [Hz _]. exact Hz. }
  assert (∀ txt, Forall (fun c => c ∈ upper_letters) txt →
            shift_text 33 (modAlphaCipher.key C) txt = txt
            ∧ unshift_text 33 (modAlphaCipher.key C) txt = txt) as Hid.
  { intros txt Htxt. split; apply list_eq; intros i;
      unfold shift_text, unshift_text; rewrite list_lookup_imap;
      destruct (txt !! i) as [c|] eqn:Hc; try done; cbn [fmap option_fmap option_map];
      f_equal;
      pose proof (alphabet_index_range c (Forall_lookup_1 _ _ _ _ Htxt Hc)) as Hr;
      rewrite Hk.
    - rewrite Z.add_0_r, Z.mod_small by lia.
      by apply letter_at_index, (Forall_lookup_1 _ _ _ _ Htxt Hc).
    - replace (alphabet_index c + 33 - 0) with (alphabet_index c + 1 * 33) by lia.
      rewrite Z.mod_add, Z.mod_small by lia.
      by apply letter_at_index, (Forall_lookup_1 _ _ _ _ Htxt Hc). }
  split.
  - rewrite (shift_encrypt_clean L skey C text) by done. f_equal.
    apply Hid, normalize_capitals.
  - rewrite (shift_decrypt_closed L skey C cipher) by done. f_equal.
    by apply Hid.
Qed.

(** X14 in the locale with the aliases of glibc, at the key "А", the
    text "привет, мир!" and the ciphertext "ОПЗБДС". *)
Lemma shift_zero_key_witness :
  modAlphaCipher.new glibc_ru key_A = Ret engine_A
  ∧ no_alias glibc_ru txt_privet_mir
  ∧ modAlphaCipher.encrypt glibc_ru engine_A txt_privet_mir = Ret txt_PRIVETMIR
  ∧ modAlphaCipher.decrypt glibc_ru engine_A txt_OPZBDS = Ret txt_OPZBDS.
Proof.
  assert (no_alias glibc_ru txt_privet_mir) as Hclean
    by (apply no_alias_sample; vm_compute; reflexivity).
  split; [exact engine_A_glibc|]. split; [exact Hclean|].
  destruct (shift_zero_key glibc_ru key_A txt_privet_mir txt_OPZBDS)
    as (C & HC & He & Hd).
  - exact glibc_ru_capitals_fixed.
  - exact glibc_ru_alphabetic.
  - exact glibc_ru_upper.
  - discriminate.
  - repeat constructor.
  - vm_compute. discriminate.
  - exact Hclean.
  - discriminate.
  - apply capitals_sample. vm_compute. reflexivity.
  - rewrite engine_A_glibc in HC. injection HC as <-.
    split; [exact He|exact Hd].
Defined.

(** X15.  What [decrypt] of the shift engine raises: "Empty cipher text"
    exactly on the empty input, "Incorrect data entry" exactly on an input
    holding a character that is not upper-case for the locale, and nothing
    else. *)
Theorem shift_decrypt_failures (L : Locale) (skey : list Z) (C : modAlphaCipher.t)
    (s : list Z) (e : cipher_error) :
  modAlphaCipher.new L skey = Ret C →
  (modAlphaCipher.decrypt L C s = Throw e ↔
   (s = [] ∧ e = modAlphaCipher.empty_cipher_text)
   ∨ (e = modAlphaCipher.invalid_cipher_text
      ∧ Exists (fun c => iswupper L c = false) s)).
Proof.
  intros _. unfold modAlphaCipher.decrypt, modAlphaCipher.getValidCipherText.
  destruct s as [|c s].
  - cbn. split.
    + intros [= <-]. by left.
    + intros [[_ ->]|[_ H]]; [done|]. by apply Exists_nil in H.
  - destruct (forallb _ _) eqn:E; cbn [mbind outcome_bind].
    + split.
      * destruct (for_each _ _ _) as [w| |] eqn:E1; cbn [mbind outcome_bind];
          [done| |done].
        exfalso. revert E1. apply for_each_no_throw. apply decrypt_step_no_throw.
      * intros [[? _]|[_ H]]; [done|].
        apply forallb_false_Exists in H. congruence.
    + split.
      * intros [= <-]. right. split; [done|]. by apply forallb_false_Exists.
      * by intros [[? _]|[-> _]].
Qed.

(** X15 at the key "МИР" and the empty input. *)
Lemma shift_decrypt_failures_witness :
  modAlphaCipher.new utf8_ru key_MIR = Ret engine_MIR
  ∧ modAlphaCipher.decrypt utf8_ru engine_MIR []
    = Throw modAlphaCipher.empty_cipher_text.
Proof.
  split; [exact engine_MIR_new|].
  apply (shift_decrypt_failures utf8_ru key_MIR engine_MIR []
           modAlphaCipher.empty_cipher_text engine_MIR_new).
  left. split; reflexivity.
Defined.



(** X17.  In every locale, [toUpper] sends the lowercase letter at a
    position of the alphabet to the capital at the same position ("ё", which
    lies outside the range "а" to "я", included); the transposition engine's
    text validation folds the letter to the same capital. *)
Theorem toUpper_same_position (L : Locale) (i : nat) (c : Z) :
  lower_letters !! i = Some c →
  upper_letters !! i = Some (modAlphaCipher.toUpper L c)
  ∧ Table.getValidOpenText [c] = Ret [modAlphaCipher.toUpper L c].
Proof.
  intros Hc.
  assert (c ∈ lower_letters) as Hin by (by eapply list_elem_of_lookup_2).
  rewrite (toUpper_small L c Hin). split.
  - assert (forallb (fun i => bool_decide (upper_letters !! i
                                           = fold_upper <$> lower_letters !! i))
              (seq 0 33) = true) as H by (by vm_compute).
    rewrite forallb_forall in H. specialize (H i).
    rewrite bool_decide_eq_true in H. rewrite H, ?Hc; [done|].
    apply list_elem_of_In, elem_of_seq. apply lookup_lt_Some in Hc.
    change (length lower_letters) with 33%nat in Hc. lia.
  - rewrite table_getValidOpenText_spec, normalize_cons.
    assert (is_letter c = true) as -> by (apply is_letter_true; by right).
    by rewrite decide_False.
Qed.

(** X17 at the letter "ё", the seventh of the alphabet. *)
Lemma toUpper_same_position_witness :
  lower_letters !! 6%nat = Some L_yo
  ∧ upper_letters !! 6%nat = Some (modAlphaCipher.toUpper utf8_ru L_yo)
  ∧ Table.getValidOpenText [L_yo] = Ret [modAlphaCipher.toUpper utf8_ru L_yo].
Proof.
  assert (lower_letters !! 6%nat = Some L_yo) as H by reflexivity.
  split; [exact H|]. exact (toUpper_same_position utf8_ru 6 L_yo H).
Defined.

(** ** Properties of the demonstration programs *)

(** X18.  In a locale where the Russian letters are alphabetic and the
    capitals are upper-case and fixed by upper-casing, for a key with a
    non-empty derived key and a text that has a letter of the alphabet and
    holds no alias, [check] without the destruction flag prints the key, the
    text, the ciphertext and the decrypted text, which is the normalized
    text; the verdict line compares the decrypted text with the text as
    given, so it reads "Ok" only for a text that is its own normalization
    and "Err" for every other text, lowercase ones included. *)
Theorem check_prints_round_trip (L : Locale) (towlower : Z → Z) (skey : list Z)
    (C : modAlphaCipher.t) (Text : list Z) :
  capitals_fixed L → letters_alphabetic L → capitals_upper L →
  modAlphaCipher.new L skey = Ret C →
  modAlphaCipher.key C ≠ [] → normalize Text ≠ [] → no_alias L Text →
  AlphaMain.check L towlower Text skey false
  = Ret [put_wide (wide "key="); put_wide skey; put_endl;
         put_wide (wide "Original: "); put_wide Text; put_endl;
         put_wide (wide "Encrypted: ");
         put_wide (shift_text 33 (modAlphaCipher.key C) (normalize Text)); put_endl;
         put_wide (wide "Decrypted: "); put_wide (normalize Text); put_endl;
         put_wide (if bool_decide (Text = normalize Text)
                   then wide "Ok" ++ [10] else wide "Err" ++ [10]);
         put_endl].
Proof.
  intros H1 H3 H4 Hnew Hkey Hne Hclean.
  pose proof (shift_round_trip_clean L skey C Text H1 H3 H4 Hnew Hkey Hne Hclean)
    as Hrt.
  rewrite (shift_encrypt_clean L skey C Text H1 H3 Hnew Hkey Hne Hclean) in Hrt.
  cbn [mbind outcome_bind] in Hrt.
  unfold AlphaMain.check. rewrite Hnew. cbn [mbind outcome_bind].
  rewrite (shift_encrypt_clean L skey C Text H1 H3 Hnew Hkey Hne Hclean).
  cbn [mbind outcome_bind]. rewrite Hrt. done.
Qed.

(** X18 in the locale with the aliases of glibc, at the key "МИР"
    and the text "привет, мир!": the verdict is "Err". *)
Lemma check_prints_round_trip_witness :
  modAlphaCipher.new glibc_ru key_MIR = Ret engine_MIR
  ∧ no_alias glibc_ru txt_privet_mir
  ∧ AlphaMain.check glibc_ru utf8_towlower txt_privet_mir key_MIR false
    = Ret [put_wide (wide "key="); put_wide key_MIR; put_endl;
           put_wide (wide "Original: "); put_wide txt_privet_mir; put_endl;
           put_wide (wide "Encrypted: ");
           put_wide (shift_text 33 [13; 9; 17] txt_PRIVETMIR); put_endl;
           put_wide (wide "Decrypted: "); put_wide txt_PRIVETMIR; put_endl;
           put_wide (wide "Err" ++ [10]);
           put_endl].
Proof.
  assert (no_alias glibc_ru txt_privet_mir) as Hclean
    by (apply no_alias_sample; vm_compute; reflexivity).
  split; [exact engine_MIR_glibc|]. split; [exact Hclean|].
  apply (check_prints_round_trip glibc_ru utf8_towlower key_MIR engine_MIR
           txt_privet_mir glibc_ru_capitals_fixed glibc_ru_alphabetic
           glibc_ru_upper engine_MIR_glibc).
  - discriminate.
  - vm_compute. discriminate.
  - exact Hclean.
Defined.

(** X19.  With the destruction flag, [check] lowers the first character of
    the ciphertext, [decrypt] refuses it, and the report is the one line
    "Error: Incorrect data entry" - for every key with a non-empty derived
    key and every text with a letter of the alphabet, in a locale where the
    Russian letters are alphabetic, upper-casing fixes the capitals, and
    lowering a capital of the alphabet gives a character that is not
    upper-case. *)
Theorem check_destructed_ciphertext (L : Locale) (towlower : Z → Z) (skey : list Z)
    (C : modAlphaCipher.t) (Text : list Z) :
  capitals_fixed L → letters_alphabetic L → lowers_capitals L towlower →
  modAlphaCipher.new L skey = Ret C →
  modAlphaCipher.key C ≠ [] → normalize Text ≠ [] →
  AlphaMain.check L towlower Text skey true
  = Ret [put_wide (wide "Error: "); put_narrow "Incorrect data entry";
         put_endl; put_endl].
Proof.
  intros H1 H3 Hlow Hnew Hkey Hne.
  unfold AlphaMain.check. rewrite Hnew. cbn [mbind outcome_bind].
  rewrite (shift_encrypt_own L skey C Text) by done.
  destruct (shift_open_text L Text H1 H3 Hne) as (valid & -> & Hwork).
  cbn [mbind outcome_bind].
  set (t := letter_at <$> modAlphaCipher.convert_s L modAlphaCipher.fillAlphaNum valid).
  assert (t ≠ []) as Ht.
  { eapply nonempty_length; [|exact Hwork]. apply length_fmap. }
  pose proof (shift_text_capitals (modAlphaCipher.key C) t) as Hcap.
  destruct (shift_text 33 _ _) as [|c ct] eqn:E.
  { exfalso. apply (f_equal length) in E. rewrite length_shift_text in E.
    by destruct t. }
  cbn [AlphaMain.destruct_front mbind outcome_bind].
  rewrite (shift_decrypt_rejects L C _ (towlower c)); [done|left|].
  apply Hlow. by apply Forall_cons in Hcap as [? _].
Qed.

(** X19 in the locale with the aliases of glibc, at the key "МИР"
    and the text "ПРИВЕТ". *)
Lemma check_destructed_ciphertext_witness :
  modAlphaCipher.new glibc_ru key_MIR = Ret engine_MIR
  ∧ AlphaMain.check glibc_ru utf8_towlower txt_PRIVET key_MIR true
    = Ret [put_wide (wide "Error: "); put_narrow "Incorrect data entry";
           put_endl; put_endl].
Proof.
  split; [exact engine_MIR_glibc|].
  apply (check_destructed_ciphertext glibc_ru utf8_towlower key_MIR engine_MIR
           txt_PRIVET glibc_ru_capitals_fixed glibc_ru_alphabetic
           glibc_lowers_capitals engine_MIR_glibc).
  - discriminate.
  - vm_compute. discriminate.
Defined.

(** X20.  [check] lets no exception out.  An empty key is reported as
    "Error: Empty key" and a key with a non-alphabetic character as "Error:
    Invalid key: non-alphabetic character", whatever the text; with an
    accepted key, a text without any alphabetic character is reported as
    "Error: Empty text, no letters". *)
Theorem check_reports_errors (L : Locale) (towlower : Z → Z) (Text skey : list Z)
    (d : bool) :
  (∀ e, ¬ (AlphaMain.check L towlower Text skey d = Throw e))
  ∧ (skey = [] →
     AlphaMain.check L towlower Text skey d
     = Ret [put_wide (wide "Error: "); put_narrow "Empty key"; put_endl; put_endl])
  ∧ (Exists (fun c => iswalpha L c = false) skey →
     AlphaMain.check L towlower Text skey d
     = Ret [put_wide (wide "Error: ");
            put_narrow "Invalid key: non-alphabetic character"; put_endl; put_endl])
  ∧ (skey ≠ [] → Forall (fun c => iswalpha L c = true) skey →
     Forall (fun c => iswalpha L c = false) Text →
     AlphaMain.check L towlower Text skey d
     = Ret [put_wide (wide "Error: "); put_narrow "Empty text, no letters";
            put_endl; put_endl]).
Proof.
  split; [|split; [|split]].
  - intros e. apply check_no_throw.
  - intros ->. by apply (check_key_error L towlower Text [] d modAlphaCipher.empty_key).
  - intros Hex.
    apply (check_key_error L towlower Text skey d modAlphaCipher.invalid_key).
    apply shift_new_throws. by right.
  - intros Hne Hall Htext.
    eapply (check_text_error L towlower Text skey _ d modAlphaCipher.empty_text).
    + by apply shift_new_accepts.
    + by apply shift_encrypt_throws.
Qed.

(** X21.  With the destruction flag, [check] calls [front()] on an empty
    string when the text consists of Latin capitals: the key is accepted,
    [encrypt] filters nothing out in validation, drops every character in
    the conversion to indices and returns the empty string. *)
Theorem check_front_of_empty (L : Locale) (towlower : Z → Z) (skey : list Z)
    (C : modAlphaCipher.t) (Text : list Z) :
  latin_capitals L → latin_alphabetic L →
  modAlphaCipher.new L skey = Ret C →
  Text ≠ [] → Forall (fun c => 65 <= c <= 90) Text →
  modAlphaCipher.encrypt L C Text = Ret []
  ∧ AlphaMain.check L towlower Text skey true = Undefined.
Proof.
  intros Hup Hal Hnew Hne Hall.
  assert (modAlphaCipher.encrypt L C Text = Ret []) as Henc.
  { pose proof Hnew as [Hmap _]%shift_new_key.
    unfold modAlphaCipher.encrypt, modAlphaCipher.getValidOpenText.
    rewrite openLetters_alphabetic.
    2:{ eapply Forall_impl; [exact Hall|]. intros c Hc. by apply Hal. }
    assert (kept L <$> Text = Text) as ->.
    { clear Hne. induction Hall as [|c s Hc _ IH]; [done|].
      rewrite fmap_cons, IH. unfold kept.
      by rewrite (proj2 (Hal c Hc)). }
    destruct Text as [|c s] eqn:E; [done|]. rewrite <- E in *.
    cbn [mbind outcome_bind]. rewrite Hmap, convert_s_foreign; [done|].
    eapply Forall_impl; [exact Hall|]. intros x Hx. cbn beta in Hx.
    split; [|by apply Hup].
    apply negb_true_iff.
    apply (forallb_range (fun c => negb (is_letter c)) 65 26); [by vm_compute|lia]. }
  split; [done|].
  unfold AlphaMain.check. rewrite Hnew. cbn [mbind outcome_bind].
  by rewrite Henc.
Qed.

(** X21 at the key "МИР" and the text "ABC". *)
Lemma check_front_of_empty_witness :
  modAlphaCipher.new utf8_ru key_MIR = Ret engine_MIR
  ∧ modAlphaCipher.encrypt utf8_ru engine_MIR latin_ABC = Ret []
  ∧ AlphaMain.check utf8_ru utf8_towlower latin_ABC key_MIR true = Undefined.
Proof.
  split; [exact engine_MIR_new|].
  apply (check_front_of_empty utf8_ru utf8_towlower key_MIR engine_MIR latin_ABC
           utf8_latin_capitals utf8_latin_alphabetic engine_MIR_new).
  - discriminate.
  - repeat constructor; lia.
Defined.

(** X22.  For a column count in [1, 100] and a text with a non-empty
    normalization, [test] prints the count, the text, the ciphertext (the
    column route of the normalized text) and the decrypted text, which is
    the normalized text. *)
Theorem test_prints_round_trip (text : list Z) (k : Z) :
  1 <= k <= 100 → normalize text ≠ [] → fits_int (length (normalize text)) k →
  TableMain.test text k
  = Ret [put_wide (wide "Key: "); put_int k; put_wide (wide " | Text: '");
         put_wide text; put_wide (wide "'"); put_endl;
         put_wide (wide "Encrypted: '");
         put_wide (column_route (Z.to_nat k) (normalize text));
         put_wide (wide "'"); put_endl;
         put_wide (wide "Decrypted: '"); put_wide (normalize text);
         put_wide (wide "'"); put_endl;
         put_endl].
Proof.
  intros Hk Hne Hfit.
  pose proof (table_round_trip_closed {| Table.cols := k |} text) as Hrt.
  cbn [Table.cols] in Hrt. specialize (Hrt ltac:(lia) Hne Hfit).
  assert (Table.encrypt {| Table.cols := k |} text
          = Ret (column_route (Z.to_nat k) (normalize text))) as E.
  { rewrite table_encrypt_closed; cbn [Table.cols]; [|lia|done..].
    by rewrite column_route_cells. }
  rewrite E in Hrt. cbn [mbind outcome_bind] in Hrt.
  unfold TableMain.test. rewrite table_new_spec by done.
  cbn [mbind outcome_bind]. rewrite E. cbn [mbind outcome_bind].
  by rewrite Hrt.
Qed.

(** X22 at three columns and the text "привет, мир!". *)
Lemma test_prints_round_trip_witness :
  TableMain.test txt_privet_mir 3
  = Ret [put_wide (wide "Key: "); put_int 3; put_wide (wide " | Text: '");
         put_wide txt_privet_mir; put_wide (wide "'"); put_endl;
         put_wide (wide "Encrypted: '");
         put_wide [1048; 1058; 1056; 1056; 1045; 1048; 1055; 1042; 1052];
         put_wide (wide "'"); put_endl;
         put_wide (wide "Decrypted: '"); put_wide txt_PRIVETMIR;
         put_wide (wide "'"); put_endl;
         put_endl].
Proof.
  apply (test_prints_round_trip txt_privet_mir 3).
  - lia.
  - vm_compute. discriminate.
  - vm_compute. discriminate.
Defined.

(** X23.  For a text whose normalized length is within the [int] range,
    [test] lets no exception out: every call returns a report.  A column
    count of zero or below, negative ones included, is reported with
    "Invalid key: cannot be zero" and one above 100 with "Invalid key: too
    large", whatever the text; with a count in [1, 100], a text without any
    letter of the alphabet is reported with "Empty text: no valid Russian
    letters". *)
Theorem test_reports_errors (text : list Z) (k : Z) :
  (fits_int (length (normalize text)) k → ∃ r, TableMain.test text k = Ret r)
  ∧ (k <= 0 →
     TableMain.test text k
     = Ret [put_wide (wide "Error with key "); put_int k;
            put_wide (wide " and text '"); put_wide text; put_wide (wide "': ");
            put_narrow "Invalid key: cannot be zero"; put_endl; put_endl])
  ∧ (100 < k →
     TableMain.test text k
     = Ret [put_wide (wide "Error with key "); put_int k;
            put_wide (wide " and text '"); put_wide text; put_wide (wide "': ");
            put_narrow "Invalid key: too large"; put_endl; put_endl])
  ∧ (1 <= k <= 100 → normalize text = [] →
     TableMain.test text k
     = Ret [put_wide (wide "Error with key "); put_int k;
            put_wide (wide " and text '"); put_wide text; put_wide (wide "': ");
            put_narrow "Empty text: no valid Russian letters"; put_endl; put_endl]).
Proof.
  split; [|split; [|split]].
  - apply test_returns.
  - intros Hk. apply (test_key_error text k Table.zero_key).
    apply table_new_throws. by left.
  - intros Hk. apply (test_key_error text k Table.large_key).
    apply table_new_throws. by right.
  - intros Hk Hn. by apply test_text_error.
Qed.

(** ** The expectations of the unit tests *)

(** In the model locale the shift engine meets every expectation of
    src/2.1/unit_tests.cpp: the ciphertexts and plaintexts that the suites
    KeyTest, EncryptTest and DecryptTest compare with, the exceptions they
    wait for, and the round trip of KeyTest/WeakKey. *)
Lemma shift_unit_tests :
  Forall (fun '(k, t, c) =>
            modAlphaCipher.new utf8_ru k ≫= (fun C => modAlphaCipher.encrypt utf8_ru C t)
            = Ret c) shift_encrypt_expected
  ∧ Forall (fun '(k, c, t) =>
              modAlphaCipher.new utf8_ru k ≫= (fun C => modAlphaCipher.decrypt utf8_ru C c)
              = Ret t) shift_decrypt_expected
  ∧ Forall (fun k => ∃ e, modAlphaCipher.new utf8_ru k = Throw e) shift_keys_refused
  ∧ Forall (fun '(k, t) =>
              ∃ e, modAlphaCipher.new utf8_ru k
                     ≫= (fun C => modAlphaCipher.encrypt utf8_ru C t) = Throw e)
      shift_texts_refused
  ∧ Forall (fun '(k, c) =>
              ∃ e, modAlphaCipher.new utf8_ru k
                     ≫= (fun C => modAlphaCipher.decrypt utf8_ru C c) = Throw e)
      shift_ciphers_refused
  ∧ Forall (fun '(k, t) =>
              modAlphaCipher.new utf8_ru k
                ≫= (fun C => modAlphaCipher.encrypt utf8_ru C t
                               ≫= modAlphaCipher.decrypt utf8_ru C) = Ret t)
      shift_round_trips.
Proof.
  repeat split; repeat (constructor; [first [by vm_compute|by eexists; vm_compute]|]);
    constructor.
Qed.

(** The transposition engine meets every expectation of src/2.2/test.cpp:
    the ciphertexts and plaintexts that the suites ConstructorTest,
    EncryptTest and DecryptTest compare with, the exceptions they wait for,
    and the two round trips. *)
Lemma table_unit_tests :
  Forall (fun '(k, t, c) => Table.new k ≫= (fun T => Table.encrypt T t) = Ret c)
    table_encrypt_expected
  ∧ Forall (fun '(k, c, t) => Table.new k ≫= (fun T => Table.decrypt T c) = Ret t)
      table_decrypt_expected
  ∧ Forall (fun k => ∃ e, Table.new k = Throw e) table_keys_refused
  ∧ Forall (fun '(k, t) => ∃ e, Table.new k ≫= (fun T => Table.encrypt T t) = Throw e)
      table_texts_refused
  ∧ Forall (fun '(k, c) => ∃ e, Table.new k ≫= (fun T => Table.decrypt T c) = Throw e)
      table_ciphers_refused
  ∧ Forall (fun '(k, t) =>
              Table.new k ≫= (fun T => Table.encrypt T t ≫= Table.decrypt T) = Ret t)
      table_round_trips.
Proof.
  repeat split; repeat (constructor; [first [by vm_compute|by eexists; vm_compute]|]);
    constructor.
Qed.
